(** * ColumnIxJson: the variable-length string column of clickhouse-cpp

    A shallow embedding of [clickhouse/columns/ix-json.{h,cpp}] together with
    the properties of the column that its specification states.

    The column stores every row as a [std::string_view], that is a raw
    (pointer, length) pair, whose bytes live in one of three places: an arena
    block owned by the column, a [std::string] held in the column's deque, or
    a buffer of the caller.  The embedding therefore keeps an explicit memory
    of allocations; a pointer is an allocation together with an offset, and
    reading through a pointer whose allocation was released is undefined
    behaviour. *)

From Stdlib Require Import NArith Lia.
From Stdlib Require Import Strings.Byte Strings.String.
From stdpp Require Import base numbers option list.

Local Open Scope nat_scope.

(** ** [size_t] arithmetic

    Sizes that measure something held in memory (the length of a view, the
    fill level of a block, the number of rows) are natural numbers.  C++
    computes them modulo [2^64]; the two operations of the source whose
    mathematical result can leave that range are written out with their
    wrap-around: the running sum of [ComputeTotalSize] and the subtraction of
    [Block::GetAvailable]. *)

Definition SIZE_MODULUS : N := (2 ^ 64)%N.

Definition fits_size_t (n : nat) : Prop := (N.of_nat n < SIZE_MODULUS)%N.

Definition wrap_size_t (n : N) : nat := N.to_nat (n mod SIZE_MODULUS).

Definition add_size_t (a b : nat) : nat := wrap_size_t (N.of_nat a + N.of_nat b).

Definition sub_size_t (a b : nat) : nat :=
  if decide (b ≤ a) then a - b
  else wrap_size_t (SIZE_MODULUS - N.of_nat (b - a)).

(** [constexpr size_t DEFAULT_BLOCK_SIZE = 4096;] *)
Definition DEFAULT_BLOCK_SIZE : nat := 4096.

(** ** Memory

    An address names one allocation ([new CharT[n]], the buffer of a
    [std::string], a buffer of the caller); addresses are never reused.  A
    released allocation stays in the list as [None]. *)

Abbreviation bytes := (list byte).

#[global] Instance byte_eq_decision : EqDecision byte := Byte.byte_eq_dec.
Definition addr := nat.
Abbreviation mem := (list (option bytes)).

Record ptr := Ptr { p_base : addr; p_off : nat }.

(** [std::string_view]: [data()] and [size()]. *)
Record string_view := StringView { sv_data : ptr; sv_size : nat }.

Definition cell (m : mem) (a : addr) : option bytes := mjoin (m !! a).

(** A new allocation with the given contents. *)
Definition alloc (init : bytes) (m : mem) : addr * mem :=
  (length m, m ++ [Some init]).

(** [new CharT[n]]: the contents are indeterminate in C++; the model fills
    them with zero bytes and no statement below reads them. *)
Definition alloc_array (n : nat) (m : mem) : addr * mem :=
  alloc (replicate n x00) m.

Definition free (a : addr) (m : mem) : mem := <[a := None]> m.

Definition free_all (l : list addr) (m : mem) : mem := foldr free m l.

(** Reading [len] bytes at [p]; [None] when the allocation is gone or the
    range leaves it. *)
Definition load (m : mem) (p : ptr) (len : nat) : option bytes :=
  buf ← cell m (p_base p);
  if decide (p_off p + len ≤ length buf)
  then Some (take len (drop (p_off p) buf))
  else None.

(** Writing [bs] at [p]; [None] when the allocation is gone or the range
    leaves it. *)
Definition store (m : mem) (p : ptr) (bs : bytes) : option mem :=
  buf ← cell m (p_base p);
  if decide (p_off p + length bs ≤ length buf)
  then Some (<[p_base p := Some (take (p_off p) buf ++ bs
                                  ++ drop (p_off p + length bs) buf)]> m)
  else None.

(** The bytes a view denotes. *)
Definition sv_read (m : mem) (v : string_view) : option bytes :=
  load m (sv_data v) (sv_size v).

(** [strlen]: the distance from [p] to the first zero byte of its
    allocation; [None] when there is none (the scan leaves the buffer). *)
Fixpoint find_nul (bs : bytes) : option nat :=
  match bs with
  | [] => None
  | b :: bs' => if decide (b = x00) then Some 0 else S <$> find_nul bs'
  end.

Definition strlen (m : mem) (p : ptr) : option nat :=
  buf ← cell m (p_base p);
  if decide (p_off p ≤ length buf) then find_nul (drop (p_off p) buf) else None.

(** ** Outcomes

    A call returns normally, has undefined behaviour (a wild [memcpy], a null
    or dangling dereference), throws, or, for the one loop of the source
    that is not bounded by a counter fixed beforehand, is cut off by the
    fuel. *)

Inductive exception := out_of_range | bad_cast | length_error | bad_alloc.

Inductive outcome (A : Type) : Type :=
  | Ok (a : A)
  | UB
  | Throw (e : exception)
  | OutOfFuel.
Arguments Ok {A} a.
Arguments UB {A}.
Arguments Throw {A} e.
Arguments OutOfFuel {A}.

Definition outcome_bind {A B} (f : A → outcome B) (x : outcome A) : outcome B :=
  match x with
  | Ok a => f a
  | UB => UB
  | Throw e => Throw e
  | OutOfFuel => OutOfFuel
  end.

#[global] Instance outcome_ret : MRet outcome := λ A a, Ok a.
#[global] Instance outcome_mbind : MBind outcome := λ A B f x, outcome_bind f x.

(** An access that is undefined when it has no value. *)
Definition or_UB {A} (o : option A) : outcome A :=
  match o with Some a => Ok a | None => UB end.

(** Two ranges of [n] bytes that have a byte in common. *)
Definition ranges_overlap (p q : ptr) (n : nat) : bool :=
  bool_decide (p_base p = p_base q ∧ p_off p < p_off q + n ∧ p_off q < p_off p + n).

(** [memcpy(dst, src, n)]: undefined when the source or the destination
    leaves its allocation, and when the two ranges overlap. *)
Definition memcpy (dst src : ptr) (n : nat) (m : mem) : outcome mem :=
  bs ← or_UB (load m src n);
  if ranges_overlap dst src n then UB else or_UB (store m dst bs).

(** ** What the implementation grants

    Memory in C++ is not without end.  [std::vector::reserve(n)] throws
    [std::length_error] when [n] is larger than [max_size()], and both it and
    the allocation of a block throw [std::bad_alloc] when the allocator does
    not serve the request.  What the allocator answers is not in the
    program's hands; it is a parameter of [LoadBody], where the sizes that
    are asked for come from the stream and from the caller's row count.
    [reserve] asks for nothing when the vector has the capacity already, and
    the answer to a request for a block may depend on what is allocated
    already.  The other member functions ask for as much as their arguments
    hold in memory; their requests are taken to be served. *)
Record Implementation := MkImplementation {
  admits_size : nat → bool;    (* n <= items_.max_size() *)
  reserves : nat → bool;       (* items_.reserve(n) gets the storage it asks for *)
  grants : mem → nat → bool    (* blocks_.emplace_back(n) gets what it asks for,
                                  the place in the vector and the array of n bytes *)
}.

(** An implementation that refuses nothing. *)
Definition generous : Implementation :=
  MkImplementation (λ _, true) (λ _, true) (λ _ _, true).

(** An implementation of the usual kind for the examples: a vector of
    16-byte views has at most [2^59 - 1] elements, and the allocator serves a
    request of up to one gigabyte. *)
Definition one_gigabyte : Implementation :=
  MkImplementation
    (λ n, bool_decide (N.of_nat n < 2 ^ 59)%N)
    (λ n, bool_decide (16 * N.of_nat n ≤ 2 ^ 30)%N)
    (λ _ n, bool_decide (N.of_nat n ≤ 2 ^ 30)%N).

(** ** The wire codec

    [base/wire_format.h] is not part of the sources at hand; the column uses
    three of its primitives.  Streams are the bytes still to be read and the
    bytes written so far. *)

Abbreviation InputStream := (list byte) (only parsing).
Abbreviation OutputStream := (list byte) (only parsing).

Definition byte_of_N (n : N) : byte := default x00 (Byte.of_N (n mod 256)).

(** [k] bytes of [n], least significant first. *)
Fixpoint le_encode (k : nat) (n : N) : bytes :=
  match k with
  | 0 => []
  | S k' => byte_of_N n :: le_encode k' (n / 256)
  end.

Fixpoint le_decode (bs : bytes) : N :=
  match bs with
  | [] => 0
  | b :: bs' => Byte.to_N b + 256 * le_decode bs'
  end.

(** Modelled from the spec: [ReadUInt64(stream) -> value, success/failure]
    reads "an 8-byte unsigned length-prefix".  The spec does not fix the byte
    order; the least significant byte comes first here.  A stream with fewer
    than eight bytes left is exhausted by the attempt. *)
Definition ReadUInt64 (input : InputStream) : option N * InputStream :=
  if decide (8 ≤ length input)
  then (Some (le_decode (take 8 input)), drop 8 input)
  else (None, []).

(** Modelled from the spec: [ReadBytes(stream, destination address, length)
    -> success/failure] reads "exactly [length] bytes from the input stream
    directly into" the destination.  When the stream ends early the bytes
    that were still there have been transferred before the failure is
    reported. *)
Definition ReadBytes (input : InputStream) (dst : ptr) (len : nat) (m : mem)
  : outcome (bool * InputStream * mem) :=
  if decide (len ≤ length input)
  then m' ← or_UB (store m dst (take len input)); mret (true, drop len input, m')
  else m' ← or_UB (store m dst input); mret (false, [], m').

(** Modelled from the spec: [WriteObject(stream, byte view)] writes the view
    "as a length-prefixed byte string (length prefix encoding, then raw bytes
    — bit-for-bit the inverse of LoadBody's read sequence)". *)
Definition WriteObject (output : OutputStream) (item : string_view) (m : mem)
  : outcome OutputStream :=
  bs ← or_UB (sv_read m item);
  mret (output ++ le_encode 8 (N.of_nat (sv_size item)) ++ bs).

(** ** [ComputeTotalSize]

    The template is used with [std::vector<std::string>] and with
    [std::vector<std::string_view>]; [size_of] is the element's [size()].
    The default [len = -1] is the largest [size_t], so [len] is a binary
    number. *)
Definition ComputeTotalSize {A} (size_of : A → nat) (strings : list A)
    (begin : nat) (len : N) : nat :=
  if decide (begin < length strings) then
    let len := N.to_nat (N.min len (N.of_nat (length strings - begin))) in
    foldl (λ result s, add_size_t result (size_of s)) 0 (take len (drop begin strings))
  else 0.

Definition SIZE_MAX : N := (SIZE_MODULUS - 1)%N.

(** ** [struct ColumnIxJson::Block] *)
Module Block.

Record t := Make {
  size : nat;
  capacity : nat;
  data_ : addr   (* std::unique_ptr<CharT[]> *)
}.

(** [explicit Block(size_t starting_capacity)] *)
Definition create (starting_capacity : nat) (m : mem) : t * mem :=
  let '(a, m') := alloc_array starting_capacity m in
  (Make 0 starting_capacity a, m').

Definition GetAvailable (b : t) : nat := sub_size_t (capacity b) (size b).

Definition GetCurrentWritePos (b : t) : ptr := Ptr (data_ b) (size b).

(** [size += str.size()] stays below [capacity] whenever the [memcpy] was
    in range. *)
Definition AppendUnsafe (str : string_view) (m : mem) (b : t)
  : outcome (string_view * mem * t) :=
  let pos := Ptr (data_ b) (size b) in
  m' ← memcpy pos (sv_data str) (sv_size str) m;
  mret (StringView pos (sv_size str), m',
        Make (size b + sv_size str) (capacity b) (data_ b)).

Definition ConsumeTailAsStringViewUnsafe (len : nat) (b : t) : string_view * t :=
  let start := Ptr (data_ b) (size b) in
  (StringView start len, Make (size b + len) (capacity b) (data_ b)).

End Block.

(** ** [class ColumnIxJson] *)
Module ColumnIxJson.

Record t := Make {
  items_ : list string_view;        (* std::vector<std::string_view> *)
  blocks_ : list Block.t;           (* std::vector<Block> *)
  append_data_ : list addr          (* std::deque<std::string> *)
}.

(** [ColumnIxJson()] *)
Definition create : t := Make [] [] [].

Definition push_item (v : string_view) (c : t) : t :=
  Make (items_ c ++ [v]) (blocks_ c) (append_data_ c).

(** [blocks_.emplace_back(capacity)].  Growing the vector moves the [Block]
    objects, not the arrays they point to. *)
Definition emplace_block (cap : nat) (m : mem) (c : t) : mem * t :=
  let '(b, m') := Block.create cap m in
  (m', Make (items_ c) (blocks_ c ++ [b]) (append_data_ c)).

(** The position of [blocks_.back()]. *)
Definition back_index (c : t) : nat := pred (length (blocks_ c)).

Definition set_block (i : nat) (b : Block.t) (c : t) : t :=
  Make (items_ c) (<[i := b]> (blocks_ c)) (append_data_ c).

(** [blocks_.size() == 0 || blocks_[i].GetAvailable() < n] *)
Definition lacks_room (c : t) (i : option nat) (n : nat) : outcome bool :=
  if decide (length (blocks_ c) = 0) then mret true
  else
    i ← or_UB i;
    b ← or_UB (blocks_ c !! i);
    mret (bool_decide (Block.GetAvailable b < n)).

(** [blocks_.back().AppendUnsafe(str)] *)
Definition back_AppendUnsafe (str : string_view) (m : mem) (c : t)
  : outcome (string_view * mem * t) :=
  b ← or_UB (blocks_ c !! back_index c);
  '(v, m', b') ← Block.AppendUnsafe str m b;
  mret (v, m', set_block (back_index c) b' c).

(** [void Append(std::string_view str)] *)
Definition Append (str : string_view) (m : mem) (c : t) : outcome (mem * t) :=
  grow ← lacks_room c (Some (back_index c)) (sv_size str);
  let '(m1, c1) :=
    if grow : bool
    then emplace_block (DEFAULT_BLOCK_SIZE `max` sv_size str) m c
    else (m, c) in
  '(v, m2, c2) ← back_AppendUnsafe str m1 c1;
  mret (m2, push_item v c2).

(** [void Append(const char* str)] *)
Definition Append_cstr (str : ptr) (m : mem) (c : t) : outcome (mem * t) :=
  n ← or_UB (strlen m str);
  Append (StringView str n) m c.

(** [void Append(std::string&& steal_value)]: the deque gets a new
    [std::string] that takes over the contents of the argument. *)
Definition Append_move (steal_value : bytes) (m : mem) (c : t) : outcome (mem * t) :=
  let '(last_data, m') := alloc steal_value m in
  mret (m', Make (items_ c ++ [StringView (Ptr last_data 0) (length steal_value)])
                 (blocks_ c) (append_data_ c ++ [last_data])).

Definition AppendNoManagedLifetime (str : string_view) (m : mem) (c : t)
  : outcome (mem * t) :=
  mret (m, push_item str c).

(** The private [void AppendUnsafe(std::string_view)] *)
Definition AppendUnsafe (str : string_view) (m : mem) (c : t) : outcome (mem * t) :=
  '(v, m', c') ← back_AppendUnsafe str m c;
  mret (m', push_item v c').

Fixpoint AppendUnsafe_each (data : list string_view) (m : mem) (c : t)
  : outcome (mem * t) :=
  match data with
  | [] => mret (m, c)
  | s :: data' => '(m', c') ← AppendUnsafe s m c; AppendUnsafe_each data' m' c'
  end.

(** [ColumnIxJson(const std::vector<std::string>& data)]; the strings of the
    vector are given by their views. *)
Definition create_copy (data : list string_view) (m : mem) : outcome (mem * t) :=
  let '(m1, c1) := emplace_block (ComputeTotalSize sv_size data 0 SIZE_MAX) m create in
  AppendUnsafe_each data m1 c1.

(** [ColumnIxJson(std::vector<std::string>&& data)] *)
Fixpoint create_move_from (data : list bytes) (m : mem) (c : t) : outcome (mem * t) :=
  match data with
  | [] => mret (m, c)
  | d :: data' => '(m', c') ← Append_move d m c; create_move_from data' m' c'
  end.

Definition create_move (data : list bytes) (m : mem) : outcome (mem * t) :=
  create_move_from data m create.

(** [blocks_.clear()] and [append_data_.clear()] run the destructors, which
    release the array of every block and the buffer of every string. *)
Definition release_blocks (c : t) (m : mem) : mem :=
  free_all (Block.data_ <$> blocks_ c) m.

Definition release_append_data (c : t) (m : mem) : mem :=
  free_all (append_data_ c) m.

Definition Clear (m : mem) (c : t) : mem * t :=
  (release_append_data c (release_blocks c m), create).

(** [items_.at(n)] *)
Definition At (c : t) (n : nat) : outcome string_view :=
  match items_ c !! n with
  | Some v => Ok v
  | None => Throw out_of_range
  end.

(** [operator[]]: [items_[n]] *)
Definition subscript (c : t) (n : nat) : outcome string_view :=
  or_UB (items_ c !! n).

Definition Size (c : t) : nat := length (items_ c).

(** The body of the loop of [LoadBody]; [block] is the local pointer into
    [blocks_], [None] for [nullptr]. *)
Fixpoint LoadBody_rows_on (impl : Implementation) (rows : nat) (input : InputStream)
    (block : option nat) (m : mem) (c : t) : outcome (bool * InputStream * mem * t) :=
  match rows with
  | 0 => mret (true, input, m, c)
  | S rows' =>
    match ReadUInt64 input with
    | (None, input1) => mret (false, input1, m, c)
    | (Some len, input1) =>
      let len := N.to_nat len in
      grow ← lacks_room c block len;
      '(block1, (m1, c1)) ←
        (if grow : bool
         then
           if grants impl m (DEFAULT_BLOCK_SIZE `max` len)
           then mret (Some (length (blocks_ c)),
                      emplace_block (DEFAULT_BLOCK_SIZE `max` len) m c)
           else Throw bad_alloc
         else mret (block, (m, c)));
      i ← or_UB block1;
      b ← or_UB (blocks_ c1 !! i);
      '(ok, input2, m2) ← ReadBytes input1 (Block.GetCurrentWritePos b) len m1;
      if ok : bool then
        let '(v, b') := Block.ConsumeTailAsStringViewUnsafe len b in
        LoadBody_rows_on impl rows' input2 block1 m2 (push_item v (set_block i b' c1))
      else mret (false, input2, m2, c1)
    end
  end.

(** [bool LoadBody(InputStream* input, size_t rows)]: the two vectors are
    cleared, which releases the arrays of the blocks, then [items_.reserve(rows)]
    and the loop. *)
Definition LoadBody_on (impl : Implementation) (input : InputStream) (rows : nat)
    (m : mem) (c : t) : outcome (bool * InputStream * mem * t) :=
  if negb (admits_size impl rows) then Throw length_error
  else if negb (reserves impl rows) then Throw bad_alloc
  else LoadBody_rows_on impl rows input None (release_blocks c m)
                        (Make [] [] (append_data_ c)).

(** [LoadBody] where nothing is refused: the claims about loads that go
    through are about it. *)
Definition LoadBody_rows : nat → InputStream → option nat → mem → t
    → outcome (bool * InputStream * mem * t) :=
  LoadBody_rows_on generous.

Definition LoadBody : InputStream → nat → mem → t → outcome (bool * InputStream * mem * t) :=
  LoadBody_on generous.

(** [void SaveBody(OutputStream* output)] *)
Fixpoint SaveBody_items (items : list string_view) (output : OutputStream) (m : mem)
  : outcome OutputStream :=
  match items with
  | [] => mret output
  | item :: items' =>
    output' ← WriteObject output item m; SaveBody_items items' output' m
  end.

Definition SaveBody (output : OutputStream) (m : mem) (c : t) : outcome OutputStream :=
  SaveBody_items (items_ c) output m.

(** The loop of [Slice]: [count] rows starting at row [i] of [items]. *)
Fixpoint Slice_rows (count i : nat) (items : list string_view) (m : mem) (result : t)
  : outcome (mem * t) :=
  match count with
  | 0 => mret (m, result)
  | S count' =>
    v ← or_UB (items !! i);
    '(m', result') ← Append v m result;
    Slice_rows count' (S i) items m' result'
  end.

(** [ColumnRef Slice(size_t begin, size_t len) const]; the result is the new
    column. *)
Definition Slice (begin len : nat) (m : mem) (c : t) : outcome (mem * t) :=
  let result := create in
  if decide (begin < length (items_ c)) then
    let len := len `min` (length (items_ c) - begin) in
    let '(m1, result1) :=
      emplace_block (ComputeTotalSize sv_size (items_ c) begin (N.of_nat len)) m result in
    Slice_rows len begin (items_ c) m1 result1
  else mret (m, result).

(** [ColumnRef CloneEmpty() const] *)
Definition CloneEmpty (c : t) : t := create.

End ColumnIxJson.

(** ** Columns as shared objects

    [column.h] is not part of the sources at hand: the base class [Column],
    the shared reference [ColumnRef] and the downcast [As<T>]. *)

(** Modelled from the spec: a column is an object of one of several
    concrete column types, "a shared, reference-counted handle at the
    column-interface level"; the string column is one of them and the
    objects of the other types are kept opaque. *)
Inductive Column :=
  | IxJson (c : ColumnIxJson.t)
  | OtherColumn (type_code : nat).

Definition ColumnRef := nat.

(** Memory and the objects a [ColumnRef] can denote. *)
Record World := MkWorld {
  memory : mem;
  objects : list Column
}.

(** Modelled from the spec: [column->As<ColumnIxJson>()] is the downcast to
    "the same concrete column type", null when the object is of another
    type.  Dereferencing a null [ColumnRef] is undefined. *)
Definition As_ColumnIxJson (w : World) (column : ColumnRef) : outcome (option ColumnRef) :=
  match objects w !! column with
  | None => UB
  | Some (IxJson _) => mret (Some column)
  | Some (OtherColumn _) => mret None
  end.

(** The fields of the [ColumnIxJson] object behind a reference. *)
Definition fields (w : World) (r : ColumnRef) : outcome ColumnIxJson.t :=
  match objects w !! r with
  | Some (IxJson c) => mret c
  | _ => UB
  end.

(** A member function run on the object [this]. *)
Definition on_object (this : ColumnRef)
    (f : mem → ColumnIxJson.t → outcome (mem * ColumnIxJson.t)) (w : World)
  : outcome World :=
  c ← fields w this;
  '(m', c') ← f (memory w) c;
  mret (MkWorld m' (<[this := IxJson c']> (objects w))).

(** The loop of [Append(ColumnRef)]: [column->Size()] and row [i] of [col]
    are read from the object on every round, [this->AppendUnsafe] writes to the
    object [this]; the two may be the same object. *)
Fixpoint Append_column_rows (fuel : nat) (this col : ColumnRef) (i : nat) (w : World)
  : outcome World :=
  match fuel with
  | 0 => OutOfFuel
  | S fuel' =>
    source ← fields w col;
    if decide (i < ColumnIxJson.Size source) then
      v ← ColumnIxJson.subscript source i;
      w' ← on_object this (ColumnIxJson.AppendUnsafe v) w;
      Append_column_rows fuel' this col (S i) w'
    else mret w
  end.

(** [void Append(ColumnRef column)] *)
Definition Append_column (fuel : nat) (this column : ColumnRef) (w : World)
  : outcome World :=
  col ← As_ColumnIxJson w column;
  match col with
  | Some col =>
    source ← fields w col;
    let total_size := ComputeTotalSize sv_size (ColumnIxJson.items_ source) 0 SIZE_MAX in
    w1 ← on_object this (λ m c,
            grow ← ColumnIxJson.lacks_room c (Some (ColumnIxJson.back_index c)) total_size;
            mret (if grow : bool
                  then ColumnIxJson.emplace_block (DEFAULT_BLOCK_SIZE `max` total_size) m c
                  else (m, c))) w;
    Append_column_rows fuel this col 0 w1
  | None => mret w
  end.

(** [void Swap(Column& other)]: [dynamic_cast] to a reference throws
    [std::bad_cast] when [other] is of another type. *)
Definition Swap (this other : ColumnRef) (w : World) : outcome World :=
  c ← fields w this;
  match objects w !! other with
  | None => UB
  | Some (OtherColumn _) => Throw bad_cast
  | Some (IxJson col) =>
    mret (MkWorld (memory w)
            (<[other := IxJson c]> (<[this := IxJson col]> (objects w))))
  end.

(** ** Calls of the append family *)

Inductive AppendCall :=
  | CallAppend (str : string_view)
  | CallAppendCStr (str : ptr)
  | CallAppendMove (steal_value : bytes)
  | CallAppendNoManagedLifetime (str : string_view).

Definition run_call (a : AppendCall) (m : mem) (c : ColumnIxJson.t)
  : outcome (mem * ColumnIxJson.t) :=
  match a with
  | CallAppend str => ColumnIxJson.Append str m c
  | CallAppendCStr str => ColumnIxJson.Append_cstr str m c
  | CallAppendMove s => ColumnIxJson.Append_move s m c
  | CallAppendNoManagedLifetime str => ColumnIxJson.AppendNoManagedLifetime str m c
  end.

Fixpoint run_calls (l : list AppendCall) (m : mem) (c : ColumnIxJson.t)
  : outcome (mem * ColumnIxJson.t) :=
  match l with
  | [] => mret (m, c)
  | a :: l' => '(m', c') ← run_call a m c; run_calls l' m' c'
  end.

(** The lengths that [LoadBody] reads from the stream, in order, up to and
    with the one at which it stops. *)
Fixpoint announced (rows : nat) (input : InputStream) : list nat :=
  match rows with
  | 0 => []
  | S rows' =>
    match ReadUInt64 input with
    | (None, _) => []
    | (Some len, input1) =>
      let len := N.to_nat len in
      len :: (if decide (len ≤ length input1) then announced rows' (drop len input1) else [])
    end
  end.

(** The rows of a column as bytes: what [At] yields for every index, read
    through memory; [None] when some row dangles. *)
Definition rows_of (m : mem) (c : ColumnIxJson.t) : option (list bytes) :=
  mapM (sv_read m) (ColumnIxJson.items_ c).

Definition At_bytes (m : mem) (c : ColumnIxJson.t) (n : nat) : outcome bytes :=
  v ← ColumnIxJson.At c n; or_UB (sv_read m v).

(** The body of a column on the wire. *)
Definition wire_row (s : bytes) : list byte := le_encode 8 (N.of_nat (length s)) ++ s.
Definition wire_body (rows : list bytes) : list byte := concat (wire_row <$> rows).

(** ** Representation invariants

    A block is well formed when its array is live and as long as [capacity]
    says, and [size] has not passed [capacity]. *)
Definition block_ok (m : mem) (b : Block.t) : Prop :=
  match cell m (Block.data_ b) with
  | Some buf => length buf = Block.capacity b ∧ Block.size b ≤ Block.capacity b
  | None => False
  end.

(** The column owns live blocks and live strings. *)
Definition col_wf (m : mem) (c : ColumnIxJson.t) : Prop :=
  Forall (block_ok m) (ColumnIxJson.blocks_ c)
  ∧ Forall (λ a, a < length m) (ColumnIxJson.append_data_ c).

(** A view does not reach into the part of the column's current block that
    is still to be written. *)
Definition below_mark (c : ColumnIxJson.t) (v : string_view) : Prop :=
  match ColumnIxJson.blocks_ c !! ColumnIxJson.back_index c with
  | Some b =>
    p_base (sv_data v) = Block.data_ b →
    p_off (sv_data v) + sv_size v ≤ Block.size b
  | None => True
  end.

(** A view that reads [bs] now and keeps doing so while the column grows. *)
Definition stable (m : mem) (c : ColumnIxJson.t) (v : string_view) (bs : bytes) : Prop :=
  sv_read m v = Some bs ∧ below_mark c v.

(** What a call of the append family appends, provided its argument is
    [stable]. *)
Definition call_appends (m : mem) (c : ColumnIxJson.t) (a : AppendCall) (bs : bytes)
  : Prop :=
  match a with
  | CallAppend str => stable m c str bs
  | CallAppendCStr str =>
    (x00 ∉ bs) ∧ stable m c (StringView str (S (length bs))) (bs ++ [x00])
  | CallAppendMove s => s = bs
  | CallAppendNoManagedLifetime str => stable m c str bs
  end.

(** Memory only grows: live allocations stay live and keep their length. *)
Definition mem_grows (m m' : mem) : Prop :=
  length m ≤ length m'
  ∧ ∀ a buf, cell m a = Some buf →
      ∃ buf', cell m' a = Some buf' ∧ length buf' = length buf.


(** The current block has at most the default block size left.  This is so
    for an empty column and stays so under the append family. *)
Definition slack_bounded (c : ColumnIxJson.t) : Prop :=
  ∀ b, ColumnIxJson.blocks_ c !! ColumnIxJson.back_index c = Some b →
       Block.capacity b - Block.size b ≤ DEFAULT_BLOCK_SIZE.

(** How two states of a column relate when the later one was reached by
    growing the earlier one. *)
Definition frame (m : mem) (c : ColumnIxJson.t) (m' : mem) (c' : ColumnIxJson.t) : Prop :=
  mem_grows m m' ∧ ∀ u x, stable m c u x → stable m' c' u x.

(** The local pointer [block] of [LoadBody] is null while there is no block
    and points to [blocks_.back()] afterwards. *)
Definition block_ptr_ok (c : ColumnIxJson.t) (block : option nat) : Prop :=
  ColumnIxJson.blocks_ c ≠ [] → block = Some (ColumnIxJson.back_index c).

(** Whatever is allocated already, the allocator serves the block that
    [LoadBody] asks for when a row of [len] bytes does not go into the
    current block. *)
Definition grants_block (impl : Implementation) (len : nat) : Prop :=
  ∀ m, grants impl m (DEFAULT_BLOCK_SIZE `max` len) = true.

(** The next read of a row fails: the stream is too short for the length
    prefix, or for the bytes the prefix announces. *)
Definition row_fails (tail : list byte) : Prop :=
  match ReadUInt64 tail with
  | (None, _) => True
  | (Some len, rest) => length rest < N.to_nat len
  end.

(** What a call leaves of memory: every live allocation stays live, keeps
    its length, and keeps its contents, except that the array of the
    column's current block may change above the write mark. *)
Definition keeps (c : ColumnIxJson.t) (m m' : mem) : Prop :=
  ∀ a buf, cell m a = Some buf →
    ∃ buf', cell m' a = Some buf' ∧ length buf' = length buf
      ∧ ∀ k, (∀ b, ColumnIxJson.blocks_ c !! ColumnIxJson.back_index c = Some b →
                   Block.data_ b = a → k ≤ Block.size b) →
             take k buf' = take k buf.

(** The current block afterwards is a new allocation, or the current block
    of before with its write mark no lower. *)
Definition back_advances (m : mem) (c c' : ColumnIxJson.t) : Prop :=
  ∀ b', ColumnIxJson.blocks_ c' !! ColumnIxJson.back_index c' = Some b' →
    length m ≤ Block.data_ b'
    ∨ ∃ b, ColumnIxJson.blocks_ c !! ColumnIxJson.back_index c = Some b
           ∧ Block.data_ b' = Block.data_ b ∧ Block.size b ≤ Block.size b'.

(** No block of the column has more than the default block size unused. *)
Definition waste_bounded (c : ColumnIxJson.t) : Prop :=
  Forall (λ b, Block.capacity b - Block.size b ≤ DEFAULT_BLOCK_SIZE)
         (ColumnIxJson.blocks_ c).

(** ** Concrete data for the examples *)

Definition lit (s : string) : bytes := list_byte_of_string s.

(** A memory holding the given strings, one allocation each, as buffers of
    the caller, and the views of those buffers. *)
Definition caller_memory (l : list bytes) : mem := Some <$> l.

Definition caller_views (l : list bytes) : list string_view :=
  imap (λ i s, StringView (Ptr i 0) (length s)) l.

Definition long_string : bytes := replicate 5000 "x"%byte.

(** The bytes of [json:{"x":1}]. *)
Definition json_string : bytes :=
  lit "json:{" ++ [x22] ++ lit "x" ++ [x22] ++ lit ":1}".

(** The column with the rows "x", "y", "z", "w" in one block. *)
Definition xyzw_memory : mem := [Some (lit "xyzw" ++ replicate 4092 x00)].

Definition xyzw_column : ColumnIxJson.t :=
  ColumnIxJson.Make
    [StringView (Ptr 0 0) 1; StringView (Ptr 0 1) 1;
     StringView (Ptr 0 2) 1; StringView (Ptr 0 3) 1]
    [Block.Make 4 4096 0] [].

(** A world with one freshly constructed string column and nothing else. *)
Definition fresh_world : World := MkWorld [] [IxJson ColumnIxJson.create].

(** Three string columns and a column of another type.  Object 0 has no
    rows, object 1 has the row "ab" in its only block, object 3 has the rows
    "xyz" and the empty string in its only block. *)
Definition sample_world : World :=
  MkWorld [Some (lit "ab" ++ replicate 4094 x00);
           Some (lit "xyz" ++ replicate 4093 x00)]
          [IxJson ColumnIxJson.create;
           IxJson (ColumnIxJson.Make [StringView (Ptr 0 0) 2] [Block.Make 2 4096 0] []);
           OtherColumn 7;
           IxJson (ColumnIxJson.Make [StringView (Ptr 1 0) 3; StringView (Ptr 1 3) 0]
                     [Block.Make 3 4096 1] [])].

(** Buffers of the caller: a short string, an empty one, a C string with
    its terminator, and one longer than the default block size. *)
Definition sample_memory : mem :=
  caller_memory [lit "a"; []; lit "json:{x:1}" ++ [x00]; long_string].

Definition sample_rows : list bytes :=
  [lit "a"; []; lit "json:{x:1}"; long_string; lit "tail"].

(** One call of each of the four variants, and a second managed copy. *)
Definition sample_calls : list AppendCall :=
  [CallAppend (StringView (Ptr 0 0) 1);
   CallAppendNoManagedLifetime (StringView (Ptr 1 0) 0);
   CallAppendCStr (Ptr 2 0);
   CallAppend (StringView (Ptr 3 0) 5000);
   CallAppendMove (lit "tail")].

(** Checking by evaluation that concrete views are stable and concrete
    calls well formed. *)
Ltac solve_stable :=
  split;
  [ vm_compute; reflexivity
  | unfold below_mark; simpl; try exact I; intros ?;
    first [discriminate | simpl in *; lia] ].

Ltac solve_call :=
  lazymatch goal with
  | |- call_appends _ _ (CallAppendCStr _) _ =>
    split; [refine (bool_decide_unpack _ _); vm_compute; exact I | solve_stable]
  | |- call_appends _ _ (CallAppendMove _) _ => reflexivity
  | |- call_appends _ _ _ _ => simpl; solve_stable
  end.

Ltac solve_calls :=
  lazymatch goal with
  | |- Forall2 _ [] [] => constructor
  | |- Forall2 _ (_ :: _) (_ :: _) => constructor; [solve_call | solve_calls]
  end.

Ltac solve_block_ok :=
  unfold block_ok; simpl; split; [vm_compute; reflexivity | simpl; lia].

(** * Properties *)

(** ** [size_t] *)

Lemma wrap_size_t_small (n : nat) : fits_size_t n → wrap_size_t (N.of_nat n) = n.
Proof.
  unfold fits_size_t, wrap_size_t. intros H.
  rewrite N.mod_small by exact H. apply Nat2N.id.
Qed.

Lemma add_size_t_small (a b : nat) : fits_size_t (a + b) → add_size_t a b = a + b.
Proof.
  intros H. unfold add_size_t. rewrite <- Nat2N.inj_add.
  by apply wrap_size_t_small.
Qed.

Lemma fits_size_t_le (a b : nat) : a ≤ b → fits_size_t b → fits_size_t a.
Proof. unfold fits_size_t. lia. Qed.

Lemma sub_size_t_le (a b : nat) : b ≤ a → sub_size_t a b = a - b.
Proof. intros H. unfold sub_size_t. by rewrite decide_True. Qed.

(** ** Memory *)

Lemma cell_lt m a buf : cell m a = Some buf → a < length m.
Proof.
  unfold cell. intros H.
  destruct (m !! a) as [o|] eqn:E; [|done]. by eapply lookup_lt_Some.
Qed.

Lemma cell_app m l a : a < length m → cell (m ++ l) a = cell m a.
Proof. intros H. unfold cell. by rewrite lookup_app_l. Qed.

Lemma cell_app_new m o : cell (m ++ [o]) (length m) = o.
Proof. unfold cell. rewrite list_lookup_middle by done. done. Qed.

Lemma cell_insert m a o a' :
  a < length m → cell (<[a := o]> m) a' = if decide (a = a') then o else cell m a'.
Proof.
  intros H. unfold cell. case_decide as E.
  - subst. by rewrite list_lookup_insert_eq.
  - by rewrite list_lookup_insert_ne.
Qed.

Lemma cell_free m a a' :
  cell (free a m) a' = if decide (a = a') then None else cell m a'.
Proof.
  unfold free. destruct (decide (a < length m)) as [H|H].
  - by apply cell_insert.
  - rewrite list_insert_ge by lia. case_decide; [subst|done].
    unfold cell. rewrite lookup_ge_None_2 by lia. done.
Qed.

Lemma cell_free_all m l a :
  cell (free_all l m) a = if decide (a ∈ l) then None else cell m a.
Proof.
  induction l as [|x l IH]; simpl.
  - done.
  - rewrite cell_free, IH. destruct (decide (x = a)) as [->|Hne].
    + by rewrite decide_True by (apply elem_of_cons; by left).
    + destruct (decide (a ∈ l)) as [Hin|Hnin].
      * by rewrite decide_True by (apply elem_of_cons; by right).
      * rewrite decide_False; [done|]. by intros [->|?]%elem_of_cons.
Qed.

Lemma length_free_all m l : length (free_all l m) = length m.
Proof.
  induction l as [|x l IH]; simpl; [done|].
  unfold free. by rewrite length_insert.
Qed.

Lemma load_Some m p n bs :
  load m p n = Some bs ↔
  ∃ buf, cell m (p_base p) = Some buf ∧ p_off p + n ≤ length buf
         ∧ bs = take n (drop (p_off p) buf).
Proof.
  unfold load. destruct (cell m (p_base p)) as [buf|]; simpl.
  - case_decide; split.
    + intros [= <-]. eauto.
    + intros (? & [= <-] & ? & ->). done.
    + done.
    + intros (? & [= <-] & ? & ->). lia.
  - split; [done | by intros (? & ? & _)].
Qed.

Lemma load_length m p n bs : load m p n = Some bs → length bs = n.
Proof.
  rewrite load_Some. intros (buf & _ & H & ->).
  rewrite length_take, length_drop. lia.
Qed.

Lemma load_lt m p n bs : load m p n = Some bs → p_base p < length m.
Proof. rewrite load_Some. intros (buf & H & _). by eapply cell_lt. Qed.

Lemma store_Some m p bs m' :
  store m p bs = Some m' ↔
  ∃ buf, cell m (p_base p) = Some buf ∧ p_off p + length bs ≤ length buf
         ∧ m' = <[p_base p := Some (take (p_off p) buf ++ bs
                                     ++ drop (p_off p + length bs) buf)]> m.
Proof.
  unfold store. destruct (cell m (p_base p)) as [buf|]; simpl.
  - case_decide; split.
    + intros [= <-]. eauto.
    + intros (? & [= <-] & ? & ->). done.
    + done.
    + intros (? & [= <-] & ? & ->). lia.
  - split; [done | by intros (? & ? & _)].
Qed.

Lemma store_fits m p bs buf :
  cell m (p_base p) = Some buf → p_off p + length bs ≤ length buf →
  ∃ m', store m p bs = Some m'.
Proof.
  intros Hc Hl. unfold store. rewrite Hc. simpl. rewrite decide_True by done. eauto.
Qed.

Lemma store_length m p bs m' : store m p bs = Some m' → length m' = length m.
Proof. rewrite store_Some. intros (buf & _ & _ & ->). by rewrite length_insert. Qed.

Lemma store_cell m p bs m' a :
  store m p bs = Some m' →
  a ≠ p_base p → cell m' a = cell m a.
Proof.
  rewrite store_Some. intros (buf & Hc & _ & ->) Hne.
  rewrite cell_insert by (by eapply cell_lt). by rewrite decide_False.
Qed.

Lemma store_grows m p bs m' : store m p bs = Some m' → mem_grows m m'.
Proof.
  intros Hs. split; [by rewrite (store_length _ _ _ _ Hs)|].
  intros a buf Ha. destruct (decide (a = p_base p)) as [->|Hne].
  - apply store_Some in Hs as (buf0 & Hc & Hl & ->).
    rewrite cell_insert by (by eapply cell_lt). rewrite decide_True by done.
    eexists; split; [done|]. rewrite Ha in Hc. injection Hc as ->.
    rewrite !length_app, length_take, length_drop. lia.
  - rewrite (store_cell _ _ _ _ _ Hs Hne). eauto.
Qed.

(** A write leaves every range it does not meet as it was. *)
Lemma load_store_frame m p bs m' q n x :
  store m p bs = Some m' → load m q n = Some x →
  (p_base q = p_base p → p_off q + n ≤ p_off p ∨ p_off p + length bs ≤ p_off q) →
  load m' q n = Some x.
Proof.
  intros Hs Hl Hd. destruct (decide (p_base q = p_base p)) as [E|E].
  - specialize (Hd E). apply store_Some in Hs as (buf & Hc & Hb & ->).
    apply load_Some in Hl as (buf' & Hc' & Hb' & ->).
    rewrite E, Hc in Hc'. injection Hc' as <-.
    apply load_Some. eexists. split.
    { rewrite E, cell_insert by (by eapply cell_lt). by rewrite decide_True. }
    split.
    { rewrite !length_app, length_take, length_drop. lia. }
    symmetry. destruct Hd as [Hd|Hd].
    + rewrite drop_app_le by (rewrite length_take; lia).
      rewrite take_app_le by (rewrite length_drop, length_take; lia).
      rewrite skipn_firstn_comm, take_take. f_equal. lia.
    + rewrite app_assoc, drop_app_ge by (rewrite length_app, length_take; lia).
      rewrite length_app, length_take, drop_drop. do 2 f_equal. lia.
  - apply load_Some in Hl as (buf' & Hc' & Hb' & ->).
    apply load_Some. exists buf'. by rewrite (store_cell _ _ _ _ _ Hs E).
Qed.

Lemma load_store_same m p bs m' :
  store m p bs = Some m' → load m' p (length bs) = Some bs.
Proof.
  intros Hs. apply store_Some in Hs as (buf & Hc & Hb & ->).
  apply load_Some. eexists. split.
  { rewrite cell_insert by (by eapply cell_lt). by rewrite decide_True. }
  split.
  { rewrite !length_app, length_take, length_drop. lia. }
  rewrite drop_app_length' by (rewrite length_take; lia).
  by rewrite take_app_length.
Qed.

Lemma alloc_grows m l : mem_grows m (m ++ l).
Proof.
  split; [rewrite length_app; lia|].
  intros a buf Ha. exists buf. split; [|done].
  rewrite cell_app; [done | by eapply cell_lt].
Qed.

Lemma mem_grows_refl m : mem_grows m m.
Proof. split; [done | eauto]. Qed.

Lemma mem_grows_trans m1 m2 m3 : mem_grows m1 m2 → mem_grows m2 m3 → mem_grows m1 m3.
Proof.
  intros [L1 H1] [L2 H2]. split; [lia|].
  intros a buf Ha. destruct (H1 _ _ Ha) as (b2 & Hb2 & E2).
  destruct (H2 _ _ Hb2) as (b3 & Hb3 & E3). exists b3. split; [done | congruence].
Qed.

Lemma load_alloc m l p n bs : load m p n = Some bs → load (m ++ l) p n = Some bs.
Proof.
  rewrite !load_Some. intros (buf & Hc & H). exists buf. split; [|done].
  rewrite cell_app; [done | by eapply cell_lt].
Qed.

(** ** Blocks and the frame of an append *)

Lemma block_ok_grows m m' b : mem_grows m m' → block_ok m b → block_ok m' b.
Proof.
  intros [_ G]. unfold block_ok.
  destruct (cell m (Block.data_ b)) as [buf|] eqn:E; [|done].
  destruct (G _ _ E) as (buf' & -> & L). intros [<- ?]. done.
Qed.

Lemma block_ok_available m b :
  block_ok m b → Block.GetAvailable b = Block.capacity b - Block.size b.
Proof.
  unfold block_ok. destruct (cell m (Block.data_ b)); [|done].
  intros [_ H]. by apply sub_size_t_le.
Qed.

Lemma frame_refl m c : frame m c m c.
Proof. split; [apply mem_grows_refl | done]. Qed.

Lemma frame_trans m1 c1 m2 c2 m3 c3 :
  frame m1 c1 m2 c2 → frame m2 c2 m3 c3 → frame m1 c1 m3 c3.
Proof.
  intros [G1 S1] [G2 S2]. split; [by eapply mem_grows_trans | eauto].
Qed.

Lemma below_mark_push v c u :
  below_mark (ColumnIxJson.push_item v c) u ↔ below_mark c u.
Proof. done. Qed.

Lemma emplace_block_eq cap m c :
  ColumnIxJson.emplace_block cap m c =
  (m ++ [Some (replicate cap x00)],
   ColumnIxJson.Make (ColumnIxJson.items_ c)
     (ColumnIxJson.blocks_ c ++ [Block.Make 0 cap (length m)])
     (ColumnIxJson.append_data_ c)).
Proof. done. Qed.

Lemma back_snoc items blocks b data :
  ColumnIxJson.blocks_ (ColumnIxJson.Make items (blocks ++ [b]) data)
    !! ColumnIxJson.back_index (ColumnIxJson.Make items (blocks ++ [b]) data) = Some b.
Proof.
  unfold ColumnIxJson.back_index. simpl.
  rewrite length_app. simpl. replace (pred (length blocks + 1)) with (length blocks) by lia.
  by rewrite list_lookup_middle.
Qed.

Lemma emplace_block_ok cap m c m' c' :
  ColumnIxJson.emplace_block cap m c = (m', c') → col_wf m c →
  col_wf m' c' ∧ frame m c m' c'
  ∧ ColumnIxJson.blocks_ c' !! ColumnIxJson.back_index c' = Some (Block.Make 0 cap (length m))
  ∧ ColumnIxJson.items_ c' = ColumnIxJson.items_ c
  ∧ ColumnIxJson.append_data_ c' = ColumnIxJson.append_data_ c.
Proof.
  rewrite emplace_block_eq. intros [= <- <-] [Hb Ha].
  pose proof (alloc_grows m [Some (replicate cap x00)]) as G.
  split; [|split; [|split; [apply back_snoc | done]]].
  - split; simpl.
    + apply Forall_app. split.
      * eapply Forall_impl; [exact Hb|]. intros b. by apply block_ok_grows.
      * apply Forall_singleton. unfold block_ok. simpl.
        rewrite cell_app_new. split; [apply length_replicate | lia].
    + eapply Forall_impl; [exact Ha|]. simpl. intros a. rewrite length_app. lia.
  - split; [done|]. intros u x [Hr _]. split.
    + by apply load_alloc.
    + unfold below_mark. rewrite back_snoc. simpl. intros E.
      apply load_lt in Hr. lia.
Qed.

Lemma Ok_bind {A B} (a : A) (f : A → outcome B) : (Ok a ≫= f) = f a.
Proof. done. Qed.

(** Writing [bs] at the write position of the current block, which has room
    for it: no stable view is disturbed, whether or not [size] is advanced
    afterwards. *)
Lemma write_back_ok m c b bs :
  col_wf m c →
  ColumnIxJson.blocks_ c !! ColumnIxJson.back_index c = Some b →
  length bs ≤ Block.capacity b - Block.size b →
  ∃ m',
    let v' := StringView (Ptr (Block.data_ b) (Block.size b)) (length bs) in
    let c' := ColumnIxJson.set_block (ColumnIxJson.back_index c)
                (Block.Make (Block.size b + length bs) (Block.capacity b) (Block.data_ b)) c in
    store m (Ptr (Block.data_ b) (Block.size b)) bs = Some m'
    ∧ col_wf m' c ∧ frame m c m' c
    ∧ col_wf m' c' ∧ stable m' c' v' bs ∧ frame m c m' c'.
Proof.
  intros [Hb Ha] Hback Hroom.
  assert (block_ok m b) as Hok by (eapply Forall_lookup_1; eauto).
  pose proof Hok as Hok'. unfold block_ok in Hok'.
  destruct (cell m (Block.data_ b)) as [buf|] eqn:Hcell; [|done].
  destruct Hok' as [Hlen Hsz].
  destruct (store_fits m (Ptr (Block.data_ b) (Block.size b)) bs buf) as [m' Hs];
    [done | simpl; lia |].
  exists m'. simpl.
  pose proof (store_grows _ _ _ _ Hs) as G.
  assert (ColumnIxJson.back_index c < length (ColumnIxJson.blocks_ c)) as Hlt
    by (by eapply lookup_lt_Some).
  assert (∀ u x, stable m c u x → sv_read m' u = Some x) as Hframe.
  { intros u x [Hu Hm]. unfold sv_read. eapply load_store_frame; [exact Hs | exact Hu |].
    simpl. intros E. left. unfold below_mark in Hm. rewrite Hback in Hm. auto. }
  assert (Forall (block_ok m') (ColumnIxJson.blocks_ c)) as Hb'.
  { eapply Forall_impl; [exact Hb|]. intros b0. by apply block_ok_grows. }
  assert (Forall (λ a, a < length m') (ColumnIxJson.append_data_ c)) as Ha'.
  { eapply Forall_impl; [exact Ha|]. simpl. intros a. destruct G. lia. }
  split_and!; [done | done | | | |].
  - split; [done|]. intros u x Hu. split; [by eapply Hframe | apply Hu].
  - split; simpl; [|done]. apply Forall_insert; [done|].
    unfold block_ok. simpl. destruct G as [_ G].
    destruct (G _ _ Hcell) as (buf' & -> & L). split; lia.
  - split.
    + unfold sv_read. simpl. by eapply load_store_same.
    + unfold below_mark, ColumnIxJson.back_index. simpl.
      rewrite length_insert. fold (ColumnIxJson.back_index c).
      rewrite list_lookup_insert_eq by done. simpl. lia.
  - split; [done|]. intros u x Hu. split; [by eapply Hframe|].
    destruct Hu as [_ Hm].
    unfold below_mark in *. unfold ColumnIxJson.back_index in *. simpl.
    rewrite length_insert. fold (ColumnIxJson.back_index c) in *.
    rewrite list_lookup_insert_eq by done. simpl. rewrite Hback in Hm.
    intros E. specialize (Hm E). lia.
Qed.

Lemma memcpy_Ok dst src n m m' :
  memcpy dst src n m = Ok m' ↔
  ∃ bs, load m src n = Some bs ∧ ranges_overlap dst src n = false
        ∧ store m dst bs = Some m'.
Proof.
  unfold memcpy. split.
  - destruct (load m src n) as [bs|] eqn:Hl; [|done]. simpl.
    destruct (ranges_overlap dst src n); [done|].
    destruct (store m dst bs) as [m1|] eqn:Hs; [|done]. intros [= <-]. eauto.
  - intros (bs & Hl & Ho & Hs). rewrite Hl. simpl. by rewrite Ho, Hs.
Qed.

Lemma memcpy_cases dst src n m :
  (∃ m', memcpy dst src n m = Ok m') ∨ memcpy dst src n m = UB.
Proof.
  unfold memcpy. destruct (load m src n) as [bs|]; simpl; [|by right].
  destruct (ranges_overlap dst src n); [by right|].
  destruct (store m dst bs) as [m'|]; simpl; [left; by exists m' | by right].
Qed.

(** A view below the write mark of the current block does not meet what is
    written there next. *)
Lemma below_mark_apart c b v :
  ColumnIxJson.blocks_ c !! ColumnIxJson.back_index c = Some b →
  below_mark c v →
  ranges_overlap (Ptr (Block.data_ b) (Block.size b)) (sv_data v) (sv_size v) = false.
Proof.
  intros Hb Hm. unfold below_mark in Hm. rewrite Hb in Hm.
  unfold ranges_overlap. apply bool_decide_eq_false. simpl.
  intros (E & Hlt & _). symmetry in E. specialize (Hm E). lia.
Qed.

Lemma back_AppendUnsafe_ok m c b v bs :
  col_wf m c →
  ColumnIxJson.blocks_ c !! ColumnIxJson.back_index c = Some b →
  sv_read m v = Some bs → below_mark c v →
  sv_size v ≤ Block.capacity b - Block.size b →
  ∃ m',
    let v' := StringView (Ptr (Block.data_ b) (Block.size b)) (sv_size v) in
    let c' := ColumnIxJson.set_block (ColumnIxJson.back_index c)
                (Block.Make (Block.size b + sv_size v) (Block.capacity b) (Block.data_ b)) c in
    ColumnIxJson.back_AppendUnsafe v m c = Ok (v', m', c')
    ∧ col_wf m' c' ∧ stable m' c' v' bs ∧ frame m c m' c'.
Proof.
  intros Hwf Hback Hr Hbelow Hroom.
  pose proof (below_mark_apart _ _ _ Hback Hbelow) as Hapart.
  pose proof (load_length _ _ _ _ Hr) as Hl. rewrite <- Hl in Hroom.
  destruct (write_back_ok m c b bs Hwf Hback Hroom) as (m' & Hs & _ & _ & W & St & F).
  exists m'. simpl. rewrite <- Hl. split_and!; try done.
  unfold ColumnIxJson.back_AppendUnsafe, Block.AppendUnsafe.
  rewrite Hback. simpl.
  assert (memcpy (Ptr (Block.data_ b) (Block.size b)) (sv_data v) (sv_size v) m = Ok m')
    as ->; [|by rewrite Hl].
  apply memcpy_Ok. exists bs. split_and!; [exact Hr | exact Hapart | exact Hs].
Qed.

#[local] Arguments Nat.max : simpl never.
#[local] Arguments Nat.min : simpl never.

Lemma lacks_room_back c n :
  ColumnIxJson.lacks_room c (Some (ColumnIxJson.back_index c)) n =
  Ok (match ColumnIxJson.blocks_ c !! ColumnIxJson.back_index c with
      | Some b => bool_decide (Block.GetAvailable b < n)
      | None => true
      end).
Proof.
  unfold ColumnIxJson.lacks_room, ColumnIxJson.back_index.
  destruct (ColumnIxJson.blocks_ c) as [|b0 l] eqn:E using rev_ind; simpl; [done|].
  rewrite length_app. simpl. rewrite decide_False by lia.
  replace (pred (length l + 1)) with (length l) by lia.
  by rewrite list_lookup_middle.
Qed.

(** The guard that precedes every unchecked write: afterwards the current
    block has room for [n] bytes. *)
Lemma make_room_ok m c n grow m1 c1 :
  col_wf m c →
  ColumnIxJson.lacks_room c (Some (ColumnIxJson.back_index c)) n = Ok grow →
  (if grow : bool
   then ColumnIxJson.emplace_block (DEFAULT_BLOCK_SIZE `max` n) m c
   else (m, c)) = (m1, c1) →
  col_wf m1 c1 ∧ frame m c m1 c1
  ∧ (∀ p k x, load m p k = Some x → load m1 p k = Some x)
  ∧ ColumnIxJson.items_ c1 = ColumnIxJson.items_ c
  ∧ ColumnIxJson.append_data_ c1 = ColumnIxJson.append_data_ c
  ∧ ∃ b1, ColumnIxJson.blocks_ c1 !! ColumnIxJson.back_index c1 = Some b1
          ∧ n ≤ Block.capacity b1 - Block.size b1.
Proof.
  intros Hwf. rewrite lacks_room_back. intros [= <-] Hgo.
  destruct (ColumnIxJson.blocks_ c !! ColumnIxJson.back_index c) as [b|] eqn:Hb.
  - case_bool_decide as Hav.
    + destruct (emplace_block_ok _ _ _ _ _ Hgo Hwf) as (W & F & B & I & A).
      rewrite emplace_block_eq in Hgo. injection Hgo as <- <-.
      split_and!; [exact W | exact F | intros p k x; apply load_alloc | done | done |].
      eexists; split; [exact B|]. simpl. lia.
    + injection Hgo as <- <-.
      split_and!; [done | apply frame_refl | done | done | done |].
      exists b. split; [done|].
      erewrite block_ok_available in Hav; [lia|].
      destruct Hwf as [Hwf _]. eapply Forall_lookup_1; eauto.
  - destruct (emplace_block_ok _ _ _ _ _ Hgo Hwf) as (W & F & B & I & A).
    rewrite emplace_block_eq in Hgo. injection Hgo as <- <-.
    split_and!; [exact W | exact F | intros p k x; apply load_alloc | done | done |].
    eexists; split; [exact B|]. simpl. lia.
Qed.

Lemma Append_ok m c v bs :
  col_wf m c → sv_read m v = Some bs → below_mark c v →
  ∃ m' c' v',
    ColumnIxJson.Append v m c = Ok (m', c')
    ∧ ColumnIxJson.items_ c' = ColumnIxJson.items_ c ++ [v']
    ∧ ColumnIxJson.append_data_ c' = ColumnIxJson.append_data_ c
    ∧ col_wf m' c' ∧ stable m' c' v' bs ∧ frame m c m' c'.
Proof.
  intros Hwf Hr Hbelow. unfold ColumnIxJson.Append.
  destruct (ColumnIxJson.lacks_room c _ (sv_size v)) as [grow| | |] eqn:Hg;
    try (rewrite lacks_room_back in Hg; discriminate).
  rewrite Ok_bind.
  destruct (if grow then _ else _) as [m1 c1] eqn:Hgo.
  destruct (make_room_ok _ _ _ _ _ _ Hwf Hg Hgo) as (W1 & F1 & L1 & I1 & A1 & b1 & B1 & R1).
  assert (below_mark c1 v) as Hbelow1.
  { destruct F1 as [_ F1]. by destruct (F1 v bs (conj Hr Hbelow)). }
  destruct (back_AppendUnsafe_ok m1 c1 b1 v bs W1 B1 (L1 _ _ _ Hr) Hbelow1 R1)
    as (m2 & E & W2 & S2 & F2).
  simpl in E. rewrite E, Ok_bind.
  eexists _, _, _. split; [done|]. simpl. rewrite I1.
  split_and!; [done | done | exact W2 | exact S2 |].
  eapply frame_trans; [exact F1|]. exact F2.
Qed.

(** ** The append family *)

Lemma find_nul_app bs rest : x00 ∉ bs → find_nul (bs ++ x00 :: rest) = Some (length bs).
Proof.
  induction bs as [|b bs IH]; intros H; [done|].
  apply not_elem_of_cons in H as [H1 H2].
  cbn [find_nul app length]. destruct (decide (b = x00)) as [->|_]; [done|].
  by rewrite IH.
Qed.

(** A C string: the bytes [bs], none of them zero, followed by a zero. *)
Lemma strlen_ok m p bs :
  load m p (S (length bs)) = Some (bs ++ [x00]) → x00 ∉ bs →
  strlen m p = Some (length bs) ∧ load m p (length bs) = Some bs.
Proof.
  intros Hl Hn. apply load_Some in Hl as (buf & Hc & Hb & E).
  assert (drop (p_off p) buf = bs ++ x00 :: drop (S (length bs)) (drop (p_off p) buf)) as D.
  { rewrite <- (take_drop (S (length bs)) (drop (p_off p) buf)) at 1.
    rewrite <- E. by rewrite <- app_assoc. }
  split.
  - unfold strlen. rewrite Hc. simpl. rewrite decide_True by lia.
    rewrite D. by apply find_nul_app.
  - apply load_Some. exists buf. split; [done|]. split; [lia|].
    rewrite D. by rewrite take_app_length.
Qed.

Lemma call_appends_frame m c m' c' a bs :
  frame m c m' c' → call_appends m c a bs → call_appends m' c' a bs.
Proof.
  intros [_ F]. destruct a; simpl; try done.
  - apply F.
  - intros [? ?]. split; [done | by apply F].
  - apply F.
Qed.

Lemma Append_move_ok m c bs :
  col_wf m c →
  ∃ m' c' v',
    ColumnIxJson.Append_move bs m c = Ok (m', c')
    ∧ ColumnIxJson.items_ c' = ColumnIxJson.items_ c ++ [v']
    ∧ ColumnIxJson.blocks_ c' = ColumnIxJson.blocks_ c
    ∧ col_wf m' c' ∧ stable m' c' v' bs ∧ frame m c m' c'.
Proof.
  intros [Hb Ha]. unfold ColumnIxJson.Append_move, alloc.
  pose proof (alloc_grows m [Some bs]) as G.
  eexists _, _, _. split; [done|]. simpl. split_and!; try done.
  - split; simpl.
    + eapply Forall_impl; [exact Hb|]. intros b. by apply block_ok_grows.
    + apply Forall_app. split.
      * eapply Forall_impl; [exact Ha|]. simpl. intros a. rewrite length_app. lia.
      * apply Forall_singleton. rewrite length_app. simpl. lia.
  - split.
    + apply load_Some. exists bs. simpl. rewrite cell_app_new.
      split; [done|]. split; [lia|]. by rewrite drop_0, firstn_all.
    + unfold below_mark, ColumnIxJson.back_index. simpl.
      destruct (ColumnIxJson.blocks_ c !! pred (length (ColumnIxJson.blocks_ c)))
        as [b|] eqn:E; [|done].
      intros Eq.
      assert (block_ok m b) as Hok by (eapply Forall_lookup_1; eauto).
      unfold block_ok in Hok. rewrite <- Eq in Hok.
      destruct (cell m (length m)) eqn:Hc; [|done]. apply cell_lt in Hc. lia.
  - split; [done|]. intros u x [Hu Hm]. split; [by apply load_alloc | done].
Qed.

Lemma below_mark_shorter c p k k' :
  below_mark c (StringView p k) → k' ≤ k → below_mark c (StringView p k').
Proof.
  unfold below_mark. destruct (ColumnIxJson.blocks_ c !! ColumnIxJson.back_index c); [|done].
  simpl. intros H Hle E. specialize (H E). lia.
Qed.

Lemma run_call_ok m c a bs :
  col_wf m c → call_appends m c a bs →
  ∃ m' c' v',
    run_call a m c = Ok (m', c')
    ∧ ColumnIxJson.items_ c' = ColumnIxJson.items_ c ++ [v']
    ∧ col_wf m' c' ∧ stable m' c' v' bs ∧ frame m c m' c'.
Proof.
  intros Hwf. destruct a as [str|str|s|str]; simpl.
  - intros [Hr Hbelow].
    destruct (Append_ok m c str bs Hwf Hr Hbelow) as (m' & c' & v' & E & I & _ & W & St & F).
    eauto 10.
  - intros [Hn [Hr Hbelow]]. unfold sv_read in Hr. simpl in Hr.
    destruct (strlen_ok _ _ _ Hr Hn) as [Hs Hl].
    unfold ColumnIxJson.Append_cstr. rewrite Hs. simpl.
    destruct (Append_ok m c (StringView str (length bs)) bs Hwf Hl)
      as (m' & c' & v' & E & I & _ & W & St & F).
    { eapply below_mark_shorter; [exact Hbelow | lia]. }
    eauto 10.
  - intros ->.
    destruct (Append_move_ok m c bs Hwf) as (m' & c' & v' & E & I & _ & W & St & F).
    eauto 10.
  - intros St. eexists m, _, str. split; [done|]. simpl.
    split_and!; [done | split; apply Hwf | split; apply St |].
    split; [apply mem_grows_refl | by intros u x [? ?]].
Qed.

Lemma run_calls_ok calls : ∀ m c added,
  col_wf m c → Forall2 (call_appends m c) calls added →
  ∃ m' c' vs,
    run_calls calls m c = Ok (m', c')
    ∧ ColumnIxJson.items_ c' = ColumnIxJson.items_ c ++ vs
    ∧ Forall2 (stable m' c') vs added
    ∧ col_wf m' c' ∧ frame m c m' c'.
Proof.
  induction calls as [|a calls IH]; intros m c added Hwf HF.
  - apply Forall2_nil_inv_l in HF as ->.
    exists m, c, []. rewrite app_nil_r.
    split_and!; [done | done | constructor | done | apply frame_refl].
  - apply Forall2_cons_inv_l in HF as (bs & added' & Ha & HF & ->).
    destruct (run_call_ok m c a bs Hwf Ha) as (m1 & c1 & v1 & E1 & I1 & W1 & S1 & F1).
    assert (Forall2 (call_appends m1 c1) calls added') as HF1.
    { eapply Forall2_impl; [exact HF|]. intros ? ?. by apply call_appends_frame. }
    destruct (IH m1 c1 added' W1 HF1) as (m2 & c2 & vs & E2 & I2 & S2 & W2 & F2).
    exists m2, c2, (v1 :: vs). simpl. rewrite E1, Ok_bind.
    split_and!; [done | | | done | by eapply frame_trans].
    + rewrite I2, I1. by rewrite <- app_assoc.
    + constructor; [|done]. destruct F2 as [_ F2]. by apply F2.
Qed.

(** ** The wire format *)

Lemma to_N_byte_of_N n : Byte.to_N (byte_of_N n) = (n mod 256)%N.
Proof.
  unfold byte_of_N. destruct (Byte.of_N (n mod 256)) as [b|] eqn:E; simpl.
  - by apply Byte.to_of_N.
  - apply Byte.of_N_None_iff in E. pose proof (N.mod_lt n 256). lia.
Qed.

Lemma length_le_encode k n : length (le_encode k n) = k.
Proof. revert n. induction k as [|k IH]; intros n; simpl; [done | by rewrite IH]. Qed.

Lemma le_decode_encode k n : le_decode (le_encode k n) = (n mod 256 ^ N.of_nat k)%N.
Proof.
  revert n. induction k as [|k IH]; intros n.
  - simpl. by rewrite N.mod_1_r.
  - cbn [le_encode le_decode]. rewrite IH, to_N_byte_of_N.
    rewrite Nat2N.inj_succ, N.pow_succ_r'.
    by rewrite N.Div0.mod_mul_r.
Qed.

Lemma ReadUInt64_row s input :
  fits_size_t (length s) →
  ReadUInt64 (wire_row s ++ input) = (Some (N.of_nat (length s)), s ++ input).
Proof.
  intros Hf. unfold ReadUInt64, wire_row.
  rewrite <- app_assoc.
  rewrite decide_True by (rewrite length_app, length_le_encode; lia).
  rewrite take_app_length' by (by rewrite length_le_encode).
  rewrite drop_app_length' by (by rewrite length_le_encode).
  rewrite le_decode_encode. do 2 f_equal. apply N.mod_small. exact Hf.
Qed.

Lemma ReadUInt64_short input : length input < 8 → ReadUInt64 input = (None, []).
Proof. intros H. unfold ReadUInt64. by rewrite decide_False by lia. Qed.

Lemma rows_of_Some m c rs :
  rows_of m c = Some rs ↔
  Forall2 (λ v bs, sv_read m v = Some bs) (ColumnIxJson.items_ c) rs.
Proof. unfold rows_of. apply mapM_Some. Qed.

Lemma stable_rows_of m c rs :
  Forall2 (stable m c) (ColumnIxJson.items_ c) rs → rows_of m c = Some rs.
Proof.
  intros H. apply rows_of_Some. eapply Forall2_impl; [exact H|]. by intros v bs [? _].
Qed.

Lemma SaveBody_items_ok m items : ∀ rs output,
  Forall2 (λ v bs, sv_read m v = Some bs) items rs →
  ColumnIxJson.SaveBody_items items output m = Ok (output ++ wire_body rs).
Proof.
  induction items as [|v items IH]; intros rs output HF.
  - apply Forall2_nil_inv_l in HF as ->. simpl. by rewrite app_nil_r.
  - apply Forall2_cons_inv_l in HF as (bs & rs' & Hv & HF & ->).
    cbn [ColumnIxJson.SaveBody_items]. unfold WriteObject. rewrite Hv. simpl.
    rewrite (IH rs' _ HF). unfold wire_body. cbn [fmap list_fmap concat].
    unfold wire_row at 2. rewrite (load_length _ _ _ _ Hv).
    by rewrite <- !app_assoc.
Qed.

(** ** [LoadBody] *)

Lemma LoadBody_rows_S rows input block m c :
  ColumnIxJson.LoadBody_rows (S rows) input block m c
  = match ReadUInt64 input with
    | (None, input1) => mret (false, input1, m, c)
    | (Some len, input1) =>
      grow ← ColumnIxJson.lacks_room c block (N.to_nat len);
      let '(block1, (m1, c1)) :=
        if grow : bool
        then (Some (length (ColumnIxJson.blocks_ c)),
              ColumnIxJson.emplace_block (DEFAULT_BLOCK_SIZE `max` N.to_nat len) m c)
        else (block, (m, c)) in
      i ← or_UB block1;
      b ← or_UB (ColumnIxJson.blocks_ c1 !! i);
      '(ok, input2, m2) ←
        ReadBytes input1 (Block.GetCurrentWritePos b) (N.to_nat len) m1;
      if ok : bool then
        let '(v, b') := Block.ConsumeTailAsStringViewUnsafe (N.to_nat len) b in
        ColumnIxJson.LoadBody_rows rows input2 block1 m2
          (ColumnIxJson.push_item v (ColumnIxJson.set_block i b' c1))
      else mret (false, input2, m2, c1)
    end.
Proof.
  unfold ColumnIxJson.LoadBody_rows. cbn [ColumnIxJson.LoadBody_rows_on].
  destruct (ReadUInt64 input) as [[len|] input1]; [|reflexivity].
  destruct (ColumnIxJson.lacks_room c block (N.to_nat len)) as [[|]| | |]; reflexivity.
Qed.

Lemma LoadBody_eq input rows m c :
  ColumnIxJson.LoadBody input rows m c
  = ColumnIxJson.LoadBody_rows rows input None (ColumnIxJson.release_blocks c m)
      (ColumnIxJson.Make [] [] (ColumnIxJson.append_data_ c)).
Proof. reflexivity. Qed.

Lemma lacks_room_ptr c block n :
  block_ptr_ok c block →
  ColumnIxJson.lacks_room c block n =
  ColumnIxJson.lacks_room c (Some (ColumnIxJson.back_index c)) n.
Proof.
  intros H. unfold ColumnIxJson.lacks_room.
  case_decide as E; [done|]. rewrite H; [done|].
  intros E'. by rewrite E' in E.
Qed.

(** The guard of [LoadBody] for a row of [n] bytes. *)
Lemma LoadBody_room_ok m c block n grow block1 m1 c1 :
  col_wf m c → block_ptr_ok c block →
  ColumnIxJson.lacks_room c block n = Ok grow →
  (if grow : bool
   then (Some (length (ColumnIxJson.blocks_ c)),
         ColumnIxJson.emplace_block (DEFAULT_BLOCK_SIZE `max` n) m c)
   else (block, (m, c))) = (block1, (m1, c1)) →
  col_wf m1 c1 ∧ frame m c m1 c1
  ∧ ColumnIxJson.items_ c1 = ColumnIxJson.items_ c
  ∧ ColumnIxJson.append_data_ c1 = ColumnIxJson.append_data_ c
  ∧ block1 = Some (ColumnIxJson.back_index c1)
  ∧ ∃ b1, ColumnIxJson.blocks_ c1 !! ColumnIxJson.back_index c1 = Some b1
          ∧ n ≤ Block.capacity b1 - Block.size b1.
Proof.
  intros Hwf Hp Hg Hgo. rewrite (lacks_room_ptr _ _ _ Hp) in Hg.
  assert ((if grow : bool
           then ColumnIxJson.emplace_block (DEFAULT_BLOCK_SIZE `max` n) m c
           else (m, c)) = (m1, c1)) as Hgo'.
  { destruct grow; by injection Hgo as _ <- <-. }
  destruct (make_room_ok _ _ _ _ _ _ Hwf Hg Hgo') as (W & F & _ & I & A & b1 & B & R).
  split_and!; try done; [|eauto].
  destruct grow.
  - rewrite emplace_block_eq in Hgo. injection Hgo as <- <- <-.
    unfold ColumnIxJson.back_index. simpl. rewrite length_app. simpl. f_equal. lia.
  - injection Hgo as <- <- <-. apply Hp. intros E.
    rewrite lacks_room_back in Hg. unfold ColumnIxJson.back_index in Hg.
    rewrite E in Hg. simpl in Hg. discriminate.
Qed.

(** One complete row on the wire is loaded as one new stable row. *)
Lemma LoadBody_rows_step n s input block m c :
  col_wf m c → block_ptr_ok c block → fits_size_t (length s) →
  ∃ m' c' block' v,
    ColumnIxJson.LoadBody_rows (S n) (wire_row s ++ input) block m c
    = ColumnIxJson.LoadBody_rows n input block' m' c'
    ∧ col_wf m' c' ∧ block_ptr_ok c' block'
    ∧ ColumnIxJson.items_ c' = ColumnIxJson.items_ c ++ [v]
    ∧ ColumnIxJson.append_data_ c' = ColumnIxJson.append_data_ c
    ∧ stable m' c' v s ∧ frame m c m' c'.
Proof.
  intros Hwf Hp Hf. rewrite LoadBody_rows_S.
  rewrite (ReadUInt64_row _ _ Hf), Nat2N.id.
  destruct (ColumnIxJson.lacks_room c block (length s)) as [grow| | |] eqn:Hg;
    try (rewrite (lacks_room_ptr _ _ _ Hp), lacks_room_back in Hg; discriminate).
  rewrite Ok_bind.
  destruct (if grow then _ else _) as [block1 [m1 c1]] eqn:Hgo.
  destruct (LoadBody_room_ok _ _ _ _ _ _ _ _ Hwf Hp Hg Hgo)
    as (W1 & F1 & I1 & A1 & -> & b1 & B1 & R1).
  simpl. rewrite B1. simpl.
  destruct (write_back_ok m1 c1 b1 s W1 B1 R1) as (m2 & Hs & _ & _ & W2 & S2 & F2).
  unfold ReadBytes. rewrite decide_True by (rewrite length_app; lia).
  rewrite take_app_length, drop_app_length.
  unfold Block.GetCurrentWritePos. rewrite Hs. simpl.
  eexists m2, _, _, _. split; [done|].
  split_and!; [exact W2 | | by simpl; rewrite I1 | by simpl | exact S2
              | by eapply frame_trans].
  intros _. unfold ColumnIxJson.back_index. simpl. by rewrite length_insert.
Qed.

(** The loop of [LoadBody] over the complete rows [rs] at the head of the
    input. *)
Lemma LoadBody_rows_prefix rs : ∀ n input block m c,
  col_wf m c → block_ptr_ok c block → Forall (λ s, fits_size_t (length s)) rs →
  ∃ m' c' block' vs,
    ColumnIxJson.LoadBody_rows (length rs + n) (wire_body rs ++ input) block m c
    = ColumnIxJson.LoadBody_rows n input block' m' c'
    ∧ col_wf m' c' ∧ block_ptr_ok c' block'
    ∧ ColumnIxJson.items_ c' = ColumnIxJson.items_ c ++ vs
    ∧ ColumnIxJson.append_data_ c' = ColumnIxJson.append_data_ c
    ∧ Forall2 (stable m' c') vs rs ∧ frame m c m' c'.
Proof.
  induction rs as [|s rs IH]; intros n input block m c Hwf Hp Hf.
  - exists m, c, block, []. rewrite app_nil_r.
    split_and!; [done | done | done | done | done | constructor | apply frame_refl].
  - apply Forall_cons_1 in Hf as [Hs Hf].
    change (wire_body (s :: rs)) with (wire_row s ++ wire_body rs).
    rewrite <- app_assoc. cbn [length plus].
    destruct (LoadBody_rows_step (length rs + n) s (wire_body rs ++ input) block m c
                Hwf Hp Hs) as (m1 & c1 & block1 & v & E1 & W1 & P1 & I1 & A1 & S1 & F1).
    destruct (IH n input block1 m1 c1 W1 P1 Hf)
      as (m2 & c2 & block2 & vs & E2 & W2 & P2 & I2 & A2 & S2 & F2).
    exists m2, c2, block2, (v :: vs). rewrite E1, E2.
    split_and!; [done | done | done | | congruence | | by eapply frame_trans].
    + rewrite I2, I1. by rewrite <- app_assoc.
    + constructor; [|done]. destruct F2 as [_ F2]. by apply F2.
Qed.

Lemma release_blocks_wf m c :
  Forall (λ a, a < length m) (ColumnIxJson.append_data_ c) →
  col_wf (ColumnIxJson.release_blocks c m)
         (ColumnIxJson.Make [] [] (ColumnIxJson.append_data_ c)).
Proof.
  intros Ha. split; simpl; [constructor|].
  unfold ColumnIxJson.release_blocks. by rewrite length_free_all.
Qed.

Lemma At_bytes_rows m c rs i s :
  rows_of m c = Some rs → rs !! i = Some s → At_bytes m c i = Ok s.
Proof.
  rewrite rows_of_Some. intros HF Hi.
  destruct (Forall2_lookup_r _ _ _ _ _ HF Hi) as (v & Hv & Hr).
  unfold At_bytes, ColumnIxJson.At. rewrite Hv. simpl. by rewrite Hr.
Qed.

Lemma rows_of_Size m c rs : rows_of m c = Some rs → ColumnIxJson.Size c = length rs.
Proof. rewrite rows_of_Some. apply Forall2_length. Qed.

(** A stream that starts with the complete rows [rs] loads them all. *)
Lemma LoadBody_complete m c rs rest :
  Forall (λ a, a < length m) (ColumnIxJson.append_data_ c) →
  Forall (λ s, fits_size_t (length s)) rs →
  ∃ m' c',
    ColumnIxJson.LoadBody (wire_body rs ++ rest) (length rs) m c = Ok (true, rest, m', c')
    ∧ rows_of m' c' = Some rs ∧ col_wf m' c'.
Proof.
  intros Ha Hf. rewrite LoadBody_eq.
  assert (block_ptr_ok (ColumnIxJson.Make [] [] (ColumnIxJson.append_data_ c)) None) as Hp
    by (by intros ?).
  destruct (LoadBody_rows_prefix rs 0 rest None _ _ (release_blocks_wf m c Ha) Hp Hf)
    as (m' & c' & block' & vs & E & W & _ & I & _ & St & _).
  rewrite Nat.add_0_r in E. rewrite E. exists m', c'. split; [done|].
  split; [|done]. apply stable_rows_of. by rewrite I.
Qed.

(** A stream that ends inside row [length rs]: the load reports failure and
    the column keeps the rows before it. *)
Lemma LoadBody_truncated m c rs tail n :
  Forall (λ a, a < length m) (ColumnIxJson.append_data_ c) →
  Forall (λ s, fits_size_t (length s)) rs →
  row_fails tail →
  ∃ m' c',
    ColumnIxJson.LoadBody (wire_body rs ++ tail) (length rs + S n) m c = Ok (false, [], m', c')
    ∧ rows_of m' c' = Some rs ∧ col_wf m' c'
    ∧ ∀ len rest, ReadUInt64 tail = (Some len, rest) → ColumnIxJson.blocks_ c' ≠ [].
Proof.
  intros Ha Hf Hfail. rewrite LoadBody_eq.
  assert (block_ptr_ok (ColumnIxJson.Make [] [] (ColumnIxJson.append_data_ c)) None) as Hp
    by (by intros ?).
  destruct (LoadBody_rows_prefix rs (S n) tail None _ _ (release_blocks_wf m c Ha) Hp Hf)
    as (m1 & c1 & block1 & vs & E & W1 & P1 & I1 & _ & S1 & _).
  rewrite E. clear E. simpl in I1. subst vs.
  rewrite LoadBody_rows_S. unfold row_fails in Hfail.
  destruct (ReadUInt64 tail) as [[len|] rest] eqn:Hrd.
  - destruct (ColumnIxJson.lacks_room c1 block1 (N.to_nat len)) as [grow| | |] eqn:Hg;
      try (rewrite (lacks_room_ptr _ _ _ P1), lacks_room_back in Hg; discriminate).
    rewrite Ok_bind.
    destruct (if grow then _ else _) as [block2 [m2 c2]] eqn:Hgo.
    destruct (LoadBody_room_ok _ _ _ _ _ _ _ _ W1 P1 Hg Hgo)
      as (W2 & F2 & I2 & A2 & -> & b2 & B2 & R2).
    simpl. rewrite B2. simpl.
    destruct (write_back_ok m2 c2 b2 rest W2 B2) as (m3 & Hs & W3 & F3 & _); [lia|].
    unfold ReadBytes. rewrite decide_False by lia.
    unfold Block.GetCurrentWritePos. rewrite Hs. simpl.
    exists m3, c2. split; [done|]. split_and!; [|done|].
    + apply stable_rows_of. rewrite I2.
      eapply Forall2_impl; [exact S1|]. intros v bs Hv.
      destruct F3 as [_ F3]. apply F3. destruct F2 as [_ F2]. by apply F2.
    + intros _ _ _ Hnil. by rewrite Hnil in B2.
  - assert (rest = []) as ->.
    { unfold ReadUInt64 in Hrd. case_decide; by injection Hrd. }
    exists m1, c1. split; [done|]. split_and!; [by apply stable_rows_of | done | done].
Qed.


(** ** Round trip through the wire format *)

(** C1. A column built from an empty one by calls of the append family,
    written with [SaveBody] and read back with [LoadBody] into a fresh
    column with the same number of rows: the load succeeds, consumes the
    whole stream, and [At] yields the original byte strings in order.  The
    strings may be empty or longer than the default block size; their lengths
    are [size_t] values. *)
Theorem SaveBody_LoadBody_roundtrip (m : mem) (calls : list AppendCall) (ss : list bytes) :
  Forall2 (call_appends m ColumnIxJson.create) calls ss →
  Forall (λ s, fits_size_t (length s)) ss →
  ∃ m1 c1 wire,
    run_calls calls m ColumnIxJson.create = Ok (m1, c1)
    ∧ ColumnIxJson.SaveBody [] m1 c1 = Ok wire
    ∧ ∀ m2, ∃ m3 c3,
        ColumnIxJson.LoadBody wire (length ss) m2 ColumnIxJson.create
          = Ok (true, [], m3, c3)
        ∧ ColumnIxJson.Size c3 = length ss
        ∧ ∀ i s, ss !! i = Some s → At_bytes m3 c3 i = Ok s.
Proof.
  intros Hcalls Hfit.
  assert (col_wf m ColumnIxJson.create) as Hwf by (split; constructor).
  destruct (run_calls_ok calls m _ ss Hwf Hcalls) as (m1 & c1 & vs & E & I & St & W & _).
  simpl in I. subst vs.
  exists m1, c1, (wire_body ss). split; [done|]. split.
  { unfold ColumnIxJson.SaveBody. rewrite (SaveBody_items_ok m1 _ ss); [done|].
    eapply Forall2_impl; [exact St|]. by intros v bs [? _]. }
  intros m2.
  destruct (LoadBody_complete m2 ColumnIxJson.create ss []) as (m3 & c3 & L & R & _);
    [constructor | done |].
  rewrite app_nil_r in L. exists m3, c3. split; [done|].
  split; [by eapply rows_of_Size|]. intros i s Hi. by eapply At_bytes_rows.
Qed.

Lemma SaveBody_LoadBody_roundtrip_witness :
  ∃ m1 c1 wire,
    run_calls sample_calls sample_memory ColumnIxJson.create = Ok (m1, c1)
    ∧ ColumnIxJson.SaveBody [] m1 c1 = Ok wire
    ∧ ∀ m2, ∃ m3 c3,
        ColumnIxJson.LoadBody wire (length sample_rows) m2 ColumnIxJson.create
          = Ok (true, [], m3, c3)
        ∧ ColumnIxJson.Size c3 = length sample_rows
        ∧ ∀ i s, sample_rows !! i = Some s → At_bytes m3 c3 i = Ok s.
Proof.
  apply (SaveBody_LoadBody_roundtrip sample_memory sample_calls sample_rows).
  - unfold sample_calls, sample_rows. solve_calls.
  - repeat constructor.
Defined.

(** ** A load that fails *)

Lemma byte_of_N_to_N b x : byte_of_N (Byte.to_N b + 256 * x) = b.
Proof.
  unfold byte_of_N.
  replace ((Byte.to_N b + 256 * x) mod 256)%N with (Byte.to_N b).
  - by rewrite Byte.of_to_N.
  - pose proof (Byte.to_N_bounded b).
    rewrite (N.mul_comm 256 x), N.Div0.mod_add. symmetry. apply N.mod_small. lia.
Qed.

Lemma le_encode_decode bs : le_encode (length bs) (le_decode bs) = bs.
Proof.
  induction bs as [|b bs IH]; [done|].
  cbn [length le_encode le_decode]. rewrite byte_of_N_to_N. f_equal.
  pose proof (Byte.to_N_bounded b).
  rewrite (N.mul_comm 256 (le_decode bs)), N.div_add by lia.
  rewrite N.div_small by lia. exact IH.
Qed.

Lemma le_decode_bound bs : (le_decode bs < 256 ^ N.of_nat (length bs))%N.
Proof.
  rewrite <- (le_encode_decode bs) at 1. rewrite le_decode_encode.
  apply N.mod_lt. apply N.pow_nonzero. lia.
Qed.

(** Every stream is some complete rows followed by a rest; a rest on which
    the next read succeeds starts with one more complete row. *)
Lemma row_succeeds tail :
  ¬ row_fails tail →
  ∃ s rest, tail = wire_row s ++ rest ∧ fits_size_t (length s).
Proof.
  unfold row_fails, ReadUInt64. case_decide as H8; [|done]. intros Hlen.
  exists (take (N.to_nat (le_decode (take 8 tail))) (drop 8 tail)),
         (drop (N.to_nat (le_decode (take 8 tail))) (drop 8 tail)).
  assert (length (take (N.to_nat (le_decode (take 8 tail))) (drop 8 tail))
          = N.to_nat (le_decode (take 8 tail))) as L by (rewrite length_take; lia).
  split.
  - unfold wire_row. rewrite L, N2Nat.id.
    replace 8 with (length (take 8 tail)) at 1 by (rewrite length_take; lia).
    rewrite le_encode_decode. by rewrite <- app_assoc, !take_drop.
  - unfold fits_size_t. rewrite L, N2Nat.id.
    pose proof (le_decode_bound (take 8 tail)) as B.
    rewrite length_take in B. replace (8 `min` length tail) with 8 in B by lia.
    exact B.
Qed.

Lemma stream_rows n : ∀ input,
  ∃ rs tail,
    input = wire_body rs ++ tail
    ∧ Forall (λ s, fits_size_t (length s)) rs
    ∧ (length rs = n ∨ ∃ k, n = length rs + S k ∧ row_fails tail).
Proof.
  induction n as [|n IH]; intros input.
  - exists [], input. split_and!; [done | constructor | by left].
  - destruct (decide (length input < 8)) as [Hs|Hs].
    { exists [], input. split_and!; [done | constructor |]. right. exists n.
      split; [done|]. unfold row_fails. by rewrite ReadUInt64_short. }
    destruct (decide (length (drop 8 input) < N.to_nat (le_decode (take 8 input)))) as [Hb|Hb].
    { exists [], input. split_and!; [done | constructor |]. right. exists n.
      split; [done|]. unfold row_fails, ReadUInt64. by rewrite decide_True by lia. }
    destruct (row_succeeds input) as (s & rest & -> & Hf).
    { unfold row_fails, ReadUInt64. rewrite decide_True by lia. lia. }
    destruct (IH rest) as (rs & tail & -> & Hfs & Hn).
    exists (s :: rs), tail. split_and!.
    + change (wire_body (s :: rs)) with (wire_row s ++ wire_body rs).
      by rewrite <- app_assoc.
    + by constructor.
    + destruct Hn as [Hn|(k & -> & Hk)]; [left; simpl; lia|].
      right. exists k. split; [simpl; lia | done].
Qed.

(** C2 fails as stated: a declared row count of three and a stream that
    ends after two rows.  The load returns failure and the column is left
    with two rows and one block. *)
Lemma LoadBody_failure_not_empty :
  ∃ rest m' c',
    ColumnIxJson.LoadBody (wire_body [lit "ab"; lit "c"]) 3 [] ColumnIxJson.create
      = Ok (false, rest, m', c')
    ∧ ColumnIxJson.Size c' = 2
    ∧ length (ColumnIxJson.blocks_ c') = 1
    ∧ ¬ (ColumnIxJson.items_ c' = [] ∧ ColumnIxJson.blocks_ c' = []).
Proof.
  eexists _, _, _. split; [vm_compute; reflexivity|].
  split; [done|]. split; [done|]. by intros [? _].
Qed.

(** ** What a returning call has done *)

Lemma bind_Ok_inv {A B} (x : outcome A) (f : A → outcome B) (b : B) :
  x ≫= f = Ok b → ∃ a, x = Ok a ∧ f a = Ok b.
Proof. destruct x; try discriminate. eauto. Qed.

Lemma or_UB_Ok_inv {A} (o : option A) (a : A) : or_UB o = Ok a → o = Some a.
Proof. destruct o; [by intros [= ->] | discriminate]. Qed.

Lemma back_AppendUnsafe_inv v m c v' m' c' :
  ColumnIxJson.back_AppendUnsafe v m c = Ok (v', m', c') →
  ∃ b bs,
    ColumnIxJson.blocks_ c !! ColumnIxJson.back_index c = Some b
    ∧ sv_read m v = Some bs
    ∧ store m (Ptr (Block.data_ b) (Block.size b)) bs = Some m'
    ∧ v' = StringView (Ptr (Block.data_ b) (Block.size b)) (sv_size v)
    ∧ c' = ColumnIxJson.set_block (ColumnIxJson.back_index c)
             (Block.Make (Block.size b + sv_size v) (Block.capacity b) (Block.data_ b)) c.
Proof.
  unfold ColumnIxJson.back_AppendUnsafe, Block.AppendUnsafe. intros H.
  apply bind_Ok_inv in H as (b & Hb & H). apply or_UB_Ok_inv in Hb.
  apply bind_Ok_inv in H as ([[v1 m1] b1] & H1 & H).
  apply bind_Ok_inv in H1 as (m2 & Hm2 & H1).
  apply memcpy_Ok in Hm2 as (bs & Hbs & _ & Hm2).
  injection H1 as <- <- <-. injection H as <- <- <-.
  exists b, bs. done.
Qed.

Lemma set_block_addresses c i b b' :
  ColumnIxJson.blocks_ c !! i = Some b → Block.data_ b' = Block.data_ b →
  Block.data_ <$> ColumnIxJson.blocks_ (ColumnIxJson.set_block i b' c)
  = Block.data_ <$> ColumnIxJson.blocks_ c.
Proof.
  intros Hb E. simpl. rewrite list_fmap_insert, E.
  apply list_insert_id. by rewrite list_lookup_fmap, Hb.
Qed.

(** The addresses of the blocks of a column after [Append], and where the
    new row lies. *)
Lemma Append_inv v m c m' c' :
  ColumnIxJson.Append v m c = Ok (m', c') →
  ∃ v',
    ColumnIxJson.items_ c' = ColumnIxJson.items_ c ++ [v']
    ∧ ColumnIxJson.append_data_ c' = ColumnIxJson.append_data_ c
    ∧ p_base (sv_data v') ∈ Block.data_ <$> ColumnIxJson.blocks_ c'
    ∧ (Block.data_ <$> ColumnIxJson.blocks_ c' = Block.data_ <$> ColumnIxJson.blocks_ c
       ∨ Block.data_ <$> ColumnIxJson.blocks_ c'
         = (Block.data_ <$> ColumnIxJson.blocks_ c) ++ [length m]).
Proof.
  unfold ColumnIxJson.Append. rewrite lacks_room_back, Ok_bind. intros H.
  match type of H with
  | context [if ?g then ?x else ?y] =>
    assert (∃ m1 c1, (if g then x else y) = (m1, c1)
            ∧ ColumnIxJson.items_ c1 = ColumnIxJson.items_ c
            ∧ ColumnIxJson.append_data_ c1 = ColumnIxJson.append_data_ c
            ∧ (Block.data_ <$> ColumnIxJson.blocks_ c1
                 = Block.data_ <$> ColumnIxJson.blocks_ c
               ∨ Block.data_ <$> ColumnIxJson.blocks_ c1
                 = (Block.data_ <$> ColumnIxJson.blocks_ c) ++ [length m]))
      as (m1 & c1 & Hgo & I & A & D)
  end.
  { match goal with |- context [if ?g then _ else _] => destruct g end.
    - rewrite emplace_block_eq. eexists _, _. split; [done|]. simpl.
      split_and!; [done | done |]. right. by rewrite fmap_app.
    - eexists _, _. split; [done|]. split_and!; [done | done | by left]. }
  rewrite Hgo in H.
  apply bind_Ok_inv in H as ([[v1 m2] c2] & H1 & H). injection H as <- <-.
  apply back_AppendUnsafe_inv in H1 as (b & bs & Hb & _ & _ & -> & ->).
  exists (StringView (Ptr (Block.data_ b) (Block.size b)) (sv_size v)).
  pose proof (set_block_addresses c1 (ColumnIxJson.back_index c1) b
    (Block.Make (Block.size b + sv_size v) (Block.capacity b) (Block.data_ b)) Hb eq_refl) as HA.
  simpl. rewrite I, A. split_and!; [done | done | |].
  - simpl in HA. rewrite HA. apply list_elem_of_fmap. exists b. split; [done|].
    by eapply list_elem_of_lookup_2.
  - simpl in HA. by rewrite HA.
Qed.

Lemma run_call_inv a m c m' c' :
  run_call a m c = Ok (m', c') →
  ∃ v', ColumnIxJson.items_ c' = ColumnIxJson.items_ c ++ [v'].
Proof.
  destruct a as [str|str|s|str]; simpl.
  - intros H. apply Append_inv in H as (v' & I & _). eauto.
  - unfold ColumnIxJson.Append_cstr. intros H.
    apply bind_Ok_inv in H as (n & _ & H). apply Append_inv in H as (v' & I & _). eauto.
  - unfold ColumnIxJson.Append_move. simpl. intros [= <- <-]. simpl. eauto.
  - unfold ColumnIxJson.AppendNoManagedLifetime. intros [= <- <-]. simpl. eauto.
Qed.

Lemma AppendUnsafe_inv v m c m' c' :
  ColumnIxJson.AppendUnsafe v m c = Ok (m', c') →
  ∃ v', ColumnIxJson.items_ c' = ColumnIxJson.items_ c ++ [v']
        ∧ ColumnIxJson.append_data_ c' = ColumnIxJson.append_data_ c
        ∧ length (ColumnIxJson.blocks_ c') = length (ColumnIxJson.blocks_ c).
Proof.
  unfold ColumnIxJson.AppendUnsafe. intros H.
  apply bind_Ok_inv in H as ([[v1 m2] c2] & H1 & H). injection H as <- <-.
  apply back_AppendUnsafe_inv in H1 as (b & bs & Hb & _ & _ & -> & ->).
  eexists. simpl. split_and!; [done | done | by rewrite length_insert].
Qed.

(** ** The block policy of [Append] *)

Lemma back_index_None c :
  ColumnIxJson.blocks_ c !! ColumnIxJson.back_index c = None ↔ ColumnIxJson.blocks_ c = [].
Proof.
  unfold ColumnIxJson.back_index.
  destruct (ColumnIxJson.blocks_ c) as [|b l]; [done|].
  split; [|done]. intros H. apply lookup_ge_None in H. simpl in H. lia.
Qed.

Lemma Append_blocks_inv v m c m' c' :
  ColumnIxJson.Append v m c = Ok (m', c') →
  let fresh := Block.Make (sv_size v) (DEFAULT_BLOCK_SIZE `max` sv_size v) (length m) in
  match ColumnIxJson.blocks_ c !! ColumnIxJson.back_index c with
  | Some b =>
    if bool_decide (Block.GetAvailable b < sv_size v)
    then ColumnIxJson.blocks_ c' = ColumnIxJson.blocks_ c ++ [fresh]
         ∧ length m' = S (length m)
    else ColumnIxJson.blocks_ c'
         = <[ColumnIxJson.back_index c :=
               Block.Make (Block.size b + sv_size v) (Block.capacity b) (Block.data_ b)]>
             (ColumnIxJson.blocks_ c)
         ∧ length m' = length m
  | None => ColumnIxJson.blocks_ c' = ColumnIxJson.blocks_ c ++ [fresh]
            ∧ length m' = S (length m)
  end.
Proof.
  unfold ColumnIxJson.Append. rewrite lacks_room_back, Ok_bind. intros H. simpl.
  assert (∀ m1 c1,
    ColumnIxJson.emplace_block (DEFAULT_BLOCK_SIZE `max` sv_size v) m c = (m1, c1) →
    ColumnIxJson.back_AppendUnsafe v m1 c1 ≫= (λ '(v0, m2, c2), mret (m2, ColumnIxJson.push_item v0 c2))
      = Ok (m', c') →
    ColumnIxJson.blocks_ c'
      = ColumnIxJson.blocks_ c
        ++ [Block.Make (sv_size v) (DEFAULT_BLOCK_SIZE `max` sv_size v) (length m)]
    ∧ length m' = S (length m)) as Hgrow.
  { intros m1 c1 Hgo H1. rewrite emplace_block_eq in Hgo. injection Hgo as <- <-.
    apply bind_Ok_inv in H1 as ([[v1 m2] c2] & H1 & H2). injection H2 as <- <-.
    apply back_AppendUnsafe_inv in H1 as (b & bs & Hb & _ & Hs & -> & ->).
    rewrite back_snoc in Hb. injection Hb as <-. simpl.
    apply store_length in Hs. rewrite Hs, length_app. simpl.
    split; [|lia]. unfold ColumnIxJson.back_index. simpl. rewrite length_app. simpl.
    replace (pred (length (ColumnIxJson.blocks_ c) + 1))
      with (length (ColumnIxJson.blocks_ c) + 0) by lia.
    by rewrite insert_app_r. }
  destruct (ColumnIxJson.blocks_ c !! ColumnIxJson.back_index c) as [b|] eqn:Hb.
  - case_bool_decide as Hav.
    + destruct (ColumnIxJson.emplace_block _ m c) as [m1 c1] eqn:Hgo. by eapply Hgrow.
    + apply bind_Ok_inv in H as ([[v1 m2] c2] & H1 & H2). injection H2 as <- <-.
      apply back_AppendUnsafe_inv in H1 as (b' & bs & Hb' & _ & Hs & -> & ->).
      rewrite Hb in Hb'. injection Hb' as <-. simpl.
      split; [done | by eapply store_length].
  - destruct (ColumnIxJson.emplace_block _ m c) as [m1 c1] eqn:Hgo. by eapply Hgrow.
Qed.




Lemma back_lookup_snoc (l : list Block.t) (x : Block.t) :
  (l ++ [x]) !! pred (length (l ++ [x])) = Some x.
Proof.
  rewrite length_app. simpl. replace (pred (length l + 1)) with (length l) by lia.
  by rewrite list_lookup_middle.
Qed.

Lemma slack_bounded_create : slack_bounded ColumnIxJson.create.
Proof. intros b H. done. Qed.

(** The append family keeps the slack of the current block within the
    default block size. *)
Lemma run_call_slack a m c m' c' :
  slack_bounded c → run_call a m c = Ok (m', c') → slack_bounded c'.
Proof.
  intros Hs.
  assert (∀ v, ColumnIxJson.Append v m c = Ok (m', c') → slack_bounded c') as HA.
  { intros v H. apply Append_blocks_inv in H. simpl in H.
    unfold slack_bounded, ColumnIxJson.back_index in *. intros b'.
    destruct (ColumnIxJson.blocks_ c !! pred (length (ColumnIxJson.blocks_ c)))
      as [b|] eqn:Hb.
    - case_bool_decide.
      + destruct H as [-> _]. rewrite back_lookup_snoc. intros [= <-]. simpl. lia.
      + destruct H as [-> _]. rewrite length_insert.
        rewrite list_lookup_insert_eq by (by eapply lookup_lt_Some).
        intros [= <-]. simpl. specialize (Hs b eq_refl). lia.
    - destruct H as [-> _]. rewrite back_lookup_snoc. intros [= <-]. simpl. lia. }
  destruct a as [str|str|s|str]; simpl.
  - apply HA.
  - unfold ColumnIxJson.Append_cstr. intros H.
    apply bind_Ok_inv in H as (n & _ & H). by eapply HA.
  - unfold ColumnIxJson.Append_move. simpl. by intros [= <- <-].
  - unfold ColumnIxJson.AppendNoManagedLifetime. by intros [= <- <-].
Qed.

(** ** Earlier rows under later appends *)

(** C6. A row that is present and reads [bs] keeps its view and reads the
    same bytes after any number of further calls of the four append
    variants, however many blocks these allocate. *)
Theorem appends_keep_earlier_rows (m : mem) (c : ColumnIxJson.t) (i : nat)
    (v : string_view) (bs : bytes) (calls : list AppendCall) (added : list bytes) :
  col_wf m c →
  ColumnIxJson.At c i = Ok v → stable m c v bs →
  Forall2 (call_appends m c) calls added →
  ∃ m' c',
    run_calls calls m c = Ok (m', c')
    ∧ ColumnIxJson.At c' i = Ok v
    ∧ At_bytes m' c' i = Ok bs
    ∧ ColumnIxJson.Size c' = ColumnIxJson.Size c + length calls.
Proof.
  intros Hwf Hat Hst Hcalls.
  destruct (run_calls_ok calls m c added Hwf Hcalls) as (m' & c' & vs & E & I & St & _ & F).
  exists m', c'. split; [done|].
  assert (ColumnIxJson.items_ c !! i = Some v) as Hi.
  { unfold ColumnIxJson.At in Hat. by destruct (ColumnIxJson.items_ c !! i) as [?|]; simplify_eq. }
  assert (ColumnIxJson.At c' i = Ok v) as Hat'.
  { unfold ColumnIxJson.At. rewrite I, lookup_app_l by (by eapply lookup_lt_Some).
    by rewrite Hi. }
  split_and!; [done | |].
  - unfold At_bytes. rewrite Hat'. simpl.
    destruct F as [_ F]. destruct (F v bs Hst) as [-> _]. done.
  - unfold ColumnIxJson.Size. rewrite I, length_app.
    apply Forall2_length in St, Hcalls. lia.
Qed.

Lemma appends_keep_earlier_rows_witness :
  ∃ m' c',
    run_calls (drop 1 sample_calls)
      (sample_memory ++ [Some (lit "a" ++ replicate 4095 x00)])
      (ColumnIxJson.Make [StringView (Ptr 4 0) 1] [Block.Make 1 4096 4] []) = Ok (m', c')
    ∧ ColumnIxJson.At c' 0 = Ok (StringView (Ptr 4 0) 1)
    ∧ At_bytes m' c' 0 = Ok (lit "a")
    ∧ ColumnIxJson.Size c' = 1 + length (drop 1 sample_calls).
Proof.
  apply (appends_keep_earlier_rows
           (sample_memory ++ [Some (lit "a" ++ replicate 4095 x00)])
           (ColumnIxJson.Make [StringView (Ptr 4 0) 1] [Block.Make 1 4096 4] [])
           0 (StringView (Ptr 4 0) 1) (lit "a")
           (drop 1 sample_calls) (drop 1 sample_rows)).
  - split; [apply Forall_singleton; solve_block_ok | constructor].
  - reflexivity.
  - solve_stable.
  - unfold sample_calls, sample_rows. cbn [drop]. solve_calls.
Defined.

(** ** Columns of another type *)

(** C8. Bulk [Append] of a column of another concrete type returns
    normally and changes nothing: the receiving column's rows, blocks and
    owned strings, every other object and the memory are as before. *)
Theorem Append_column_other_type_noop (fuel : nat) (this column : ColumnRef)
    (w : World) (type_code : nat) :
  objects w !! column = Some (OtherColumn type_code) →
  Append_column fuel this column w = Ok w.
Proof.
  intros H. unfold Append_column, As_ColumnIxJson. by rewrite H.
Qed.

Lemma Append_column_other_type_noop_witness :
  Append_column 0 1 2 sample_world = Ok sample_world.
Proof.
  apply (Append_column_other_type_noop 0 1 2 sample_world 7). reflexivity.
Defined.

(** C9. [Swap] with a column of the same concrete type exchanges the row
    index, the blocks and the owned strings of the two objects and touches
    nothing else; with a column of another type the [dynamic_cast] throws
    [std::bad_cast]. *)
Theorem Swap_exchanges_or_throws (this other : ColumnRef) (w : World)
    (a : ColumnIxJson.t) (o : Column) :
  objects w !! this = Some (IxJson a) →
  objects w !! other = Some o →
  match o with
  | IxJson b =>
    ∃ w', Swap this other w = Ok w'
      ∧ memory w' = memory w
      ∧ objects w' !! this = Some (IxJson b)
      ∧ objects w' !! other = Some (IxJson a)
      ∧ ∀ r, r ≠ this → r ≠ other → objects w' !! r = objects w !! r
  | OtherColumn _ => Swap this other w = Throw bad_cast
  end.
Proof.
  intros Ha Ho. unfold Swap, fields. rewrite Ha, Ho. simpl.
  destruct o as [b|code]; [|done].
  eexists. split; [done|]. simpl.
  pose proof (lookup_lt_Some _ _ _ Ha) as Lt.
  pose proof (lookup_lt_Some _ _ _ Ho) as Lo.
  split_and!; [done | | |].
  - destruct (decide (this = other)) as [->|Hne].
    + rewrite list_lookup_insert_eq by (by rewrite length_insert). congruence.
    + rewrite list_lookup_insert_ne by done. by rewrite list_lookup_insert_eq.
  - by rewrite list_lookup_insert_eq by (by rewrite length_insert).
  - intros r H1 H2. by rewrite !list_lookup_insert_ne.
Qed.

Lemma Swap_exchanges_or_throws_witness :
  (∃ w', Swap 0 1 sample_world = Ok w'
     ∧ memory w' = memory sample_world
     ∧ objects w' !! 0 = Some (IxJson (ColumnIxJson.Make [StringView (Ptr 0 0) 2]
                                         [Block.Make 2 4096 0] []))
     ∧ objects w' !! 1 = Some (IxJson ColumnIxJson.create)
     ∧ ∀ r, r ≠ 0 → r ≠ 1 → objects w' !! r = objects sample_world !! r)
  ∧ Swap 0 2 sample_world = Throw bad_cast.
Proof.
  split.
  - exact (Swap_exchanges_or_throws 0 1 sample_world _ _ eq_refl eq_refl).
  - exact (Swap_exchanges_or_throws 0 2 sample_world _ _ eq_refl eq_refl).
Defined.

(** ** Appending a column to itself *)

Lemma on_object_inv this f w w' :
  on_object this f w = Ok w' →
  ∃ c m' c',
    objects w !! this = Some (IxJson c)
    ∧ f (memory w) c = Ok (m', c')
    ∧ w' = MkWorld m' (<[this := IxJson c']> (objects w)).
Proof.
  unfold on_object, fields. intros H.
  destruct (objects w !! this) as [[c|?]|] eqn:E; try discriminate.
  simpl in H. apply bind_Ok_inv in H as ([m' c'] & Hf & H). injection H as <-.
  eauto 10.
Qed.

Lemma fields_Ok w r c : objects w !! r = Some (IxJson c) → fields w r = Ok c.
Proof. intros H. unfold fields. by rewrite H. Qed.

(** While the row counter is below the size of the column, one more round
    of the loop leaves it below the size again. *)
Lemma self_append_never_returns fuel : ∀ this i w c w',
  objects w !! this = Some (IxJson c) → i < ColumnIxJson.Size c →
  Append_column_rows fuel this this i w ≠ Ok w'.
Proof.
  induction fuel as [|fuel IH]; intros this i w c w' Hc Hi; [done|].
  cbn [Append_column_rows]. rewrite (fields_Ok _ _ _ Hc), Ok_bind.
  rewrite decide_True by done. intros H.
  apply bind_Ok_inv in H as (v & _ & H).
  apply bind_Ok_inv in H as (w1 & H1 & H).
  apply on_object_inv in H1 as (c0 & m1 & c1 & Hc0 & Hf & ->).
  rewrite Hc in Hc0. injection Hc0 as <-.
  apply AppendUnsafe_inv in Hf as (v' & I & _).
  eapply (IH this (S i) _ c1); [| |exact H].
  - simpl. apply list_lookup_insert_eq. by eapply lookup_lt_Some.
  - unfold ColumnIxJson.Size in *. rewrite I, length_app. simpl. lia.
Qed.

(** [Append(ColumnRef)] up to its loop: the reservation. *)
Lemma Append_column_prelude fuel this col w c source :
  objects w !! this = Some (IxJson c) →
  objects w !! col = Some (IxJson source) →
  let total_size := ComputeTotalSize sv_size (ColumnIxJson.items_ source) 0 SIZE_MAX in
  let grow := match ColumnIxJson.blocks_ c !! ColumnIxJson.back_index c with
              | Some b => bool_decide (Block.GetAvailable b < total_size)
              | None => true
              end in
  ∃ m1 c1,
    (if grow
     then ColumnIxJson.emplace_block (DEFAULT_BLOCK_SIZE `max` total_size) (memory w) c
     else (memory w, c)) = (m1, c1)
    ∧ Append_column fuel this col w
      = Append_column_rows fuel this col 0 (MkWorld m1 (<[this := IxJson c1]> (objects w))).
Proof.
  intros Hc Hs. simpl.
  unfold Append_column, As_ColumnIxJson, on_object. rewrite Hs. simpl.
  rewrite (fields_Ok _ _ _ Hs), Ok_bind, (fields_Ok _ _ _ Hc), Ok_bind.
  rewrite lacks_room_back, Ok_bind.
  match goal with |- context [if ?g then ?x else ?y] => destruct (if g then x else y) as [m1 c1] end.
  exists m1, c1. split; [done|]. done.
Qed.

(** C10, as the code has it.  Appending a non-empty column to itself never
    returns: the bound of the loop is read again on every round and has
    grown by then.  Appending an empty column to itself returns at once and
    adds no row; it leaves the world as it was when the column has a block,
    and otherwise allocates one empty block of the default size. *)
Theorem Append_column_self (this : ColumnRef) (w : World) (c : ColumnIxJson.t) :
  objects w !! this = Some (IxJson c) →
  (ColumnIxJson.items_ c ≠ [] →
   ∀ fuel w', Append_column fuel this this w ≠ Ok w')
  ∧ (ColumnIxJson.items_ c = [] →
     ∃ w' c',
       (∀ fuel, Append_column (S fuel) this this w = Ok w')
       ∧ objects w' !! this = Some (IxJson c')
       ∧ ColumnIxJson.items_ c' = []
       ∧ ColumnIxJson.append_data_ c' = ColumnIxJson.append_data_ c
       ∧ (ColumnIxJson.blocks_ c ≠ [] → w' = w)
       ∧ (ColumnIxJson.blocks_ c = [] →
          ColumnIxJson.blocks_ c' = [Block.Make 0 DEFAULT_BLOCK_SIZE (length (memory w))]
          ∧ memory w' = memory w ++ [Some (replicate DEFAULT_BLOCK_SIZE x00)])).
Proof.
  intros Hc. pose proof (lookup_lt_Some _ _ _ Hc) as Hlt. split.
  - intros Hne fuel w'.
    destruct (Append_column_prelude fuel this this w c c Hc Hc) as (m1 & c1 & Hgo & ->).
    apply (self_append_never_returns fuel this 0 _ c1).
    + simpl. by apply list_lookup_insert_eq.
    + assert (ColumnIxJson.items_ c1 = ColumnIxJson.items_ c) as I.
      { simpl in Hgo. destruct (match _ with Some _ => _ | None => _ end).
        - rewrite emplace_block_eq in Hgo. by injection Hgo as <- <-.
        - by injection Hgo as <- <-. }
      unfold ColumnIxJson.Size. rewrite I.
      destruct (ColumnIxJson.items_ c); [done | simpl; lia].
  - intros Hnil.
    assert (ComputeTotalSize sv_size (ColumnIxJson.items_ c) 0 SIZE_MAX = 0) as Htot
      by (by rewrite Hnil).
    assert (∀ fuel, ∃ m1 c1,
      (if match ColumnIxJson.blocks_ c !! ColumnIxJson.back_index c with
          | Some b => bool_decide (Block.GetAvailable b < 0)
          | None => true
          end
       then ColumnIxJson.emplace_block (DEFAULT_BLOCK_SIZE `max` 0) (memory w) c
       else (memory w, c)) = (m1, c1)
      ∧ Append_column (S fuel) this this w
        = Ok (MkWorld m1 (<[this := IxJson c1]> (objects w)))) as Hrun.
    { intros fuel.
      destruct (Append_column_prelude (S fuel) this this w c c Hc Hc) as (m1 & c1 & Hgo & ->).
      rewrite Htot in Hgo. exists m1, c1. split; [done|].
      assert (ColumnIxJson.items_ c1 = []) as I.
      { destruct (match _ with Some _ => _ | None => _ end).
        - rewrite emplace_block_eq in Hgo. by injection Hgo as <- <-.
        - by injection Hgo as <- <-. }
      cbn [Append_column_rows]. unfold fields. simpl.
      rewrite list_lookup_insert_eq by done. simpl.
      unfold ColumnIxJson.Size. rewrite I. done. }
    destruct (Hrun 0) as (m1 & c1 & Hgo & _).
    exists (MkWorld m1 (<[this := IxJson c1]> (objects w))), c1.
    split.
    { intros fuel. destruct (Hrun fuel) as (m1' & c1' & Hgo' & ->).
      rewrite Hgo in Hgo'. by injection Hgo' as <- <-. }
    simpl. rewrite list_lookup_insert_eq by done.
    destruct (ColumnIxJson.blocks_ c !! ColumnIxJson.back_index c) as [b|] eqn:Hb.
    + rewrite bool_decide_false in Hgo by lia. injection Hgo as <- <-.
      split_and!; [done | done | done | |].
      * intros _. destruct w as [m objs]. simpl in *. f_equal. by apply list_insert_id.
      * intros E. apply back_index_None in E. congruence.
    + rewrite emplace_block_eq in Hgo. injection Hgo as <- <-. simpl.
      apply back_index_None in Hb.
      split_and!; [done | done | done | done |].
      intros _. by rewrite Hb, Nat.max_l by lia.
Qed.

Lemma Append_column_self_witness :
  (∀ fuel w', Append_column fuel 1 1 sample_world ≠ Ok w')
  ∧ (∃ w', ∀ fuel, Append_column (S fuel) 0 0 sample_world = Ok w').
Proof.
  split.
  - apply (proj1 (Append_column_self 1 sample_world _ eq_refl)). discriminate.
  - destruct (proj2 (Append_column_self 0 sample_world _ eq_refl) eq_refl)
      as (w' & c' & H & _).
    exists w'. exact H.
Defined.

(** C10 fails as stated for the empty column: appending a freshly
    constructed column to itself returns, with no row added, but it is not
    a no-op: the column has acquired a block and the memory an allocation. *)
Lemma Append_column_self_empty_allocates :
  ∃ w' c',
    Append_column 1 0 0 fresh_world = Ok w'
    ∧ objects w' !! 0 = Some (IxJson c')
    ∧ ColumnIxJson.Size c' = 0
    ∧ ColumnIxJson.blocks_ c' = [Block.Make 0 4096 0]
    ∧ length (memory w') = 1
    ∧ w' ≠ fresh_world.
Proof.
  eexists _, _. split; [vm_compute; reflexivity|].
  split; [reflexivity|]. split; [reflexivity|]. split; [reflexivity|].
  split; [reflexivity|]. intros H. apply (f_equal (λ w, length (memory w))) in H.
  discriminate.
Qed.

(** ** Appending another column *)

Lemma foldl_add_size_t {A} (f : A → nat) (l : list A) : ∀ acc,
  fits_size_t (acc + sum_list_with f l) →
  foldl (λ result s, add_size_t result (f s)) acc l = acc + sum_list_with f l.
Proof.
  induction l as [|x l IH]; intros acc Hf; simpl in *; [lia|].
  rewrite add_size_t_small by (eapply fits_size_t_le; [|exact Hf]; lia).
  rewrite IH; [lia|]. eapply fits_size_t_le; [|exact Hf]. lia.
Qed.

(** Without wrap-around [ComputeTotalSize] of a whole vector is the sum of
    the sizes. *)
Lemma ComputeTotalSize_all {A} (f : A → nat) (l : list A) :
  fits_size_t (length l) → fits_size_t (sum_list_with f l) →
  ComputeTotalSize f l 0 SIZE_MAX = sum_list_with f l.
Proof.
  intros Hl Hs. unfold ComputeTotalSize. case_decide as Hn.
  - rewrite Nat.sub_0_r, N.min_r.
    + rewrite Nat2N.id, drop_0, firstn_all. by rewrite foldl_add_size_t.
    + unfold fits_size_t, SIZE_MAX in *. lia.
  - destruct l; [done | simpl in Hn; lia].
Qed.

Lemma frame_push m c m' c' v :
  frame m c m' c' → frame m c m' (ColumnIxJson.push_item v c').
Proof.
  intros [G F]. split; [done|]. intros u x H. destruct (F u x H). by split.
Qed.

Lemma sum_sizes_stable m c vs bs :
  Forall2 (stable m c) vs bs → sum_list_with sv_size vs = sum_list_with length bs.
Proof.
  induction 1 as [|v b vs bs [Hr _] _ IH]; [done|]. simpl.
  rewrite IH. by rewrite (load_length _ _ _ _ Hr).
Qed.

(** The loop of [Append(ColumnRef)] for two different objects, from row
    [length pre] of the source on, the current block of [this] having room
    for the rows that remain. *)
Lemma Append_column_rows_ok (this col : ColumnRef) (B : ColumnIxJson.t) :
  this ≠ col →
  ∀ rest pre added fuel w A b,
    ColumnIxJson.items_ B = pre ++ rest →
    objects w !! col = Some (IxJson B) →
    objects w !! this = Some (IxJson A) →
    col_wf (memory w) A →
    ColumnIxJson.blocks_ A !! ColumnIxJson.back_index A = Some b →
    sum_list_with sv_size rest ≤ Block.capacity b - Block.size b →
    Forall2 (stable (memory w) A) rest added →
    length rest < fuel →
    ∃ w' A' vs,
      Append_column_rows fuel this col (length pre) w = Ok w'
      ∧ objects w' !! this = Some (IxJson A')
      ∧ (∀ r, r ≠ this → objects w' !! r = objects w !! r)
      ∧ ColumnIxJson.items_ A' = ColumnIxJson.items_ A ++ vs
      ∧ ColumnIxJson.append_data_ A' = ColumnIxJson.append_data_ A
      ∧ Forall2 (stable (memory w') A') vs added
      ∧ col_wf (memory w') A'
      ∧ frame (memory w) A (memory w') A'.
Proof.
  intros Hne. induction rest as [|v rest IH];
    intros pre added fuel w A b HB Hcol Hthis Hwf Hback Hroom Hst Hfuel.
  - apply Forall2_nil_inv_l in Hst as ->.
    destruct fuel as [|fuel]; [simpl in Hfuel; lia|].
    exists w, A, []. cbn [Append_column_rows].
    rewrite (fields_Ok _ _ _ Hcol), Ok_bind.
    rewrite decide_False
      by (unfold ColumnIxJson.Size; rewrite HB, length_app; simpl; lia).
    rewrite app_nil_r.
    split_and!; [done | done | done | done | done | constructor | done | apply frame_refl].
  - apply Forall2_cons_inv_l in Hst as (bs & added' & [Hr Hm] & Hst & ->).
    destruct fuel as [|fuel]; [simpl in Hfuel; lia|].
    simpl in Hroom, Hfuel.
    destruct (back_AppendUnsafe_ok (memory w) A b v bs Hwf Hback Hr Hm) as (m1 & E1 & W1 & S1 & F1);
      [lia|].
    simpl in E1.
    set (b1 := Block.Make (Block.size b + sv_size v) (Block.capacity b) (Block.data_ b)) in *.
    set (v1 := StringView (Ptr (Block.data_ b) (Block.size b)) (sv_size v)) in *.
    set (A1 := ColumnIxJson.push_item v1
                 (ColumnIxJson.set_block (ColumnIxJson.back_index A) b1 A)).
    set (w1 := MkWorld m1 (<[this := IxJson A1]> (objects w))).
    pose proof (lookup_lt_Some _ _ _ Hthis) as Hlt.
    pose proof (lookup_lt_Some _ _ _ Hback) as Hblt.
    assert (Append_column_rows (S fuel) this col (length pre) w
            = Append_column_rows fuel this col (length (pre ++ [v])) w1) as Estep.
    { cbn [Append_column_rows]. rewrite (fields_Ok _ _ _ Hcol), Ok_bind.
      rewrite decide_True
        by (unfold ColumnIxJson.Size; rewrite HB, length_app; simpl; lia).
      unfold ColumnIxJson.subscript. rewrite HB, list_lookup_middle by done.
      simpl. unfold on_object. rewrite (fields_Ok _ _ _ Hthis), Ok_bind.
      unfold ColumnIxJson.AppendUnsafe. rewrite E1. simpl.
      rewrite length_app. simpl. by rewrite Nat.add_1_r. }
    destruct (IH (pre ++ [v]) added' fuel w1 A1 b1) as
      (w' & A' & vs & E & Ht & Ho & I & Ad & St & W & F).
    + by rewrite <- app_assoc.
    + simpl. by rewrite list_lookup_insert_ne.
    + simpl. by apply list_lookup_insert_eq.
    + simpl. split; apply W1.
    + unfold ColumnIxJson.back_index. simpl. rewrite length_insert.
      by apply list_lookup_insert_eq.
    + simpl. lia.
    + simpl. eapply Forall2_impl; [exact Hst|]. intros u x Hu.
      destruct F1 as [_ F1]. destruct (F1 u x Hu). by split.
    + lia.
    + exists w', A', (v1 :: vs). rewrite Estep, E.
      split_and!; [done | done | | | done | | done |].
      * intros r Hr'. rewrite (Ho r Hr'). simpl. by rewrite list_lookup_insert_ne.
      * rewrite I. simpl. by rewrite <- app_assoc.
      * constructor; [|done]. destruct F as [_ F]. apply F. split; apply S1.
      * eapply frame_trans; [|exact F]. apply frame_push. exact F1.
Qed.

(** More fuel does not change a result. *)
Lemma Append_column_rows_fuel fuel : ∀ fuel' this col i w w',
  fuel ≤ fuel' →
  Append_column_rows fuel this col i w = Ok w' →
  Append_column_rows fuel' this col i w = Ok w'.
Proof.
  induction fuel as [|fuel IH]; intros fuel' this col i w w' Hle H; [done|].
  destruct fuel' as [|fuel']; [lia|]. cbn [Append_column_rows] in *.
  destruct (fields w col) as [source| | |]; try done.
  rewrite Ok_bind in *. case_decide; [|done].
  destruct (ColumnIxJson.subscript source i) as [v| | |]; try done.
  rewrite Ok_bind in *.
  destruct (on_object this (ColumnIxJson.AppendUnsafe v) w) as [w1| | |]; try done.
  rewrite Ok_bind in *. apply (IH fuel'); [lia | done].
Qed.

(** [Append(ColumnRef)] between two different string columns. *)
Lemma Append_column_ok (this column : ColumnRef) (w : World)
    (A B : ColumnIxJson.t) (rows_a rows_b : list bytes) :
  this ≠ column →
  objects w !! this = Some (IxJson A) →
  objects w !! column = Some (IxJson B) →
  col_wf (memory w) A →
  Forall2 (stable (memory w) A) (ColumnIxJson.items_ A) rows_a →
  Forall2 (stable (memory w) A) (ColumnIxJson.items_ B) rows_b →
  fits_size_t (length rows_b) →
  fits_size_t (sum_list_with length rows_b) →
  ∃ w' A',
    (∀ fuel, length rows_b < fuel → Append_column fuel this column w = Ok w')
    ∧ objects w' !! this = Some (IxJson A')
    ∧ objects w' !! column = Some (IxJson B)
    ∧ rows_of (memory w') A' = Some (rows_a ++ rows_b)
    ∧ rows_of (memory w') B = Some rows_b
    ∧ ColumnIxJson.Size A' = ColumnIxJson.Size A + ColumnIxJson.Size B
    ∧ ∀ r, r ≠ this → objects w' !! r = objects w !! r.
Proof.
  intros Hne Hthis Hcol Hwf Ha Hb Hlen Hsum.
  pose proof (lookup_lt_Some _ _ _ Hthis) as Hlt.
  pose proof (Forall2_length _ _ _ Hb) as HlenB.
  pose proof (sum_sizes_stable _ _ _ _ Hb) as HsumB.
  assert (ComputeTotalSize sv_size (ColumnIxJson.items_ B) 0 SIZE_MAX
          = sum_list_with sv_size (ColumnIxJson.items_ B)) as Htot.
  { apply ComputeTotalSize_all; [by rewrite HlenB | by rewrite HsumB]. }
  destruct (Append_column_prelude (S (length rows_b)) this column w A B Hthis Hcol)
    as (m1 & c1 & Hgo & Erun).
  simpl in Hgo. rewrite Htot in Hgo.
  destruct (make_room_ok _ _ _ _ _ _ Hwf (lacks_room_back A _) Hgo)
    as (W1 & F1 & _ & I1 & A1 & b1 & B1 & R1).
  set (w1 := MkWorld m1 (<[this := IxJson c1]> (objects w))) in *.
  destruct (Append_column_rows_ok this column B Hne (ColumnIxJson.items_ B) [] rows_b
              (S (length rows_b)) w1 c1 b1) as (w' & A' & vs & E & Ht & Ho & I & _ & St & W & F);
    [done | by simpl; rewrite list_lookup_insert_ne | by simpl; apply list_lookup_insert_eq
    | done | done | done | | lia |].
  { simpl. eapply Forall2_impl; [exact Hb|]. intros u x Hu.
    destruct F1 as [_ F1]. by apply F1. }
  change (length (@nil string_view)) with 0 in E.
  assert (Forall2 (stable (memory w') A') (ColumnIxJson.items_ A ++ vs) (rows_a ++ rows_b)) as HA'.
  { apply Forall2_app; [|done]. eapply Forall2_impl; [exact Ha|]. intros u x Hu.
    destruct F as [_ F]. apply F. destruct F1 as [_ F1]. by apply F1. }
  exists w', A'. split_and!.
  - intros fuel Hfuel.
    destruct (Append_column_prelude fuel this column w A B Hthis Hcol)
      as (m1' & c1' & Hgo' & ->).
    simpl in Hgo'. rewrite Htot, Hgo in Hgo'. injection Hgo' as <- <-.
    eapply Append_column_rows_fuel; [|exact E]. lia.
  - done.
  - rewrite (Ho column) by done. simpl. by rewrite list_lookup_insert_ne.
  - apply stable_rows_of. by rewrite I, I1.
  - apply rows_of_Some. eapply Forall2_impl; [exact Hb|]. intros u x Hu.
    destruct F as [_ F]. destruct F1 as [_ F1]. by destruct (F u x (F1 u x Hu)).
  - unfold ColumnIxJson.Size. rewrite I, I1, length_app.
    apply Forall2_length in St. lia.
  - intros r Hr. rewrite (Ho r Hr). simpl. by rewrite list_lookup_insert_ne.
Qed.

(** C7. For two different objects [this] and [column], both string
    columns, [this->Append(column)] returns and leaves [this] with its own
    rows followed by the rows of [column], in order and byte for byte, and
    [column], like every other object, as it was, its rows reading the same
    bytes.  The rows of the source are counted and summed in [size_t]. *)
Theorem Append_column_concatenates (this column : ColumnRef) (w : World)
    (A B : ColumnIxJson.t) (rows_a rows_b : list bytes) :
  this ≠ column →
  objects w !! this = Some (IxJson A) →
  objects w !! column = Some (IxJson B) →
  col_wf (memory w) A →
  Forall2 (stable (memory w) A) (ColumnIxJson.items_ A) rows_a →
  Forall2 (stable (memory w) A) (ColumnIxJson.items_ B) rows_b →
  fits_size_t (length rows_b) →
  fits_size_t (sum_list_with length rows_b) →
  ∃ w' A',
    (∀ fuel, length rows_b < fuel → Append_column fuel this column w = Ok w')
    ∧ objects w' !! this = Some (IxJson A')
    ∧ objects w' !! column = Some (IxJson B)
    ∧ rows_of (memory w') A' = Some (rows_a ++ rows_b)
    ∧ rows_of (memory w') B = Some rows_b
    ∧ ∀ r, r ≠ this → objects w' !! r = objects w !! r.
Proof.
  intros Hne Hthis Hcol Hwf Ha Hb Hlen Hsum.
  destruct (Append_column_ok this column w A B rows_a rows_b
              Hne Hthis Hcol Hwf Ha Hb Hlen Hsum)
    as (w' & A' & H1 & H2 & H3 & H4 & H5 & _ & H7).
  exists w', A'. by split_and!.
Qed.

Lemma Append_column_concatenates_witness :
  ∃ w' A',
    (∀ fuel, 2 < fuel → Append_column fuel 1 3 sample_world = Ok w')
    ∧ objects w' !! 1 = Some (IxJson A')
    ∧ objects w' !! 3 = objects sample_world !! 3
    ∧ rows_of (memory w') A' = Some ([lit "ab"] ++ [lit "xyz"; []])
    ∧ rows_of (memory w') (ColumnIxJson.Make [StringView (Ptr 1 0) 3; StringView (Ptr 1 3) 0]
                             [Block.Make 3 4096 1] [])
      = Some [lit "xyz"; []].
Proof.
  destruct (Append_column_concatenates 1 3 sample_world
              (ColumnIxJson.Make [StringView (Ptr 0 0) 2] [Block.Make 2 4096 0] [])
              (ColumnIxJson.Make [StringView (Ptr 1 0) 3; StringView (Ptr 1 3) 0]
                 [Block.Make 3 4096 1] [])
              [lit "ab"] [lit "xyz"; []])
    as (w' & A' & Hrun & Ht & Hc & Ra & Rb & _).
  - lia.
  - reflexivity.
  - reflexivity.
  - split; [apply Forall_singleton; solve_block_ok | constructor].
  - constructor; [solve_stable | constructor].
  - constructor; [solve_stable | constructor; [solve_stable | constructor]].
  - vm_compute. reflexivity.
  - vm_compute. reflexivity.
  - exists w', A'. split_and!; [exact Hrun | exact Ht | exact Hc | exact Ra | exact Rb].
Defined.

(** ** The row count *)

(** Whenever the loop of [Append(ColumnRef)] between two different objects
    returns, it has added the rows of the source from row [i] on. *)
Lemma Append_column_rows_count (this col : ColumnRef) (B : ColumnIxJson.t) :
  this ≠ col →
  ∀ fuel i w w' A,
    objects w !! this = Some (IxJson A) →
    objects w !! col = Some (IxJson B) →
    i ≤ ColumnIxJson.Size B →
    Append_column_rows fuel this col i w = Ok w' →
    ∃ A', objects w' !! this = Some (IxJson A')
          ∧ ColumnIxJson.Size A' + i = ColumnIxJson.Size A + ColumnIxJson.Size B.
Proof.
  intros Hne. induction fuel as [|fuel IH]; intros i w w' A Hthis Hcol Hi H; [done|].
  cbn [Append_column_rows] in H. rewrite (fields_Ok _ _ _ Hcol), Ok_bind in H.
  case_decide as Hlt.
  - apply bind_Ok_inv in H as (v & _ & H).
    apply bind_Ok_inv in H as (w1 & H1 & H).
    apply on_object_inv in H1 as (A0 & m1 & c1 & HA0 & Hf & ->).
    rewrite Hthis in HA0. injection HA0 as <-.
    apply AppendUnsafe_inv in Hf as (v' & I & _).
    destruct (IH (S i) (MkWorld m1 (<[this:=IxJson c1]> (objects w))) w' c1)
      as (A' & HA' & Hsz); [| | lia | exact H |].
    + simpl. apply list_lookup_insert_eq. by eapply lookup_lt_Some.
    + simpl. by rewrite list_lookup_insert_ne.
    + exists A'. split; [done|]. unfold ColumnIxJson.Size in *.
      rewrite I, length_app in Hsz. simpl in Hsz. lia.
  - injection H as <-. exists A. split; [done | lia].
Qed.

Lemma make_room_items (g : bool) cap m c m1 c1 :
  (if g then ColumnIxJson.emplace_block cap m c else (m, c)) = (m1, c1) →
  ColumnIxJson.items_ c1 = ColumnIxJson.items_ c.
Proof.
  destruct g.
  - rewrite emplace_block_eq. by intros [= <- <-].
  - by intros [= <- <-].
Qed.

(** Whenever [Append(ColumnRef)] returns, it has added as many rows as the
    source had; this covers a column appended to itself, where it returns
    only if the column is empty. *)
Lemma Append_column_count fuel this col w w' A B :
  objects w !! this = Some (IxJson A) →
  objects w !! col = Some (IxJson B) →
  Append_column fuel this col w = Ok w' →
  ∃ A', objects w' !! this = Some (IxJson A')
        ∧ ColumnIxJson.Size A' = ColumnIxJson.Size A + ColumnIxJson.Size B.
Proof.
  intros Hthis Hcol H.
  pose proof (lookup_lt_Some _ _ _ Hthis) as Hlt.
  destruct (Append_column_prelude fuel this col w A B Hthis Hcol) as (m1 & c1 & Hgo & E).
  rewrite E in H. clear E. apply make_room_items in Hgo.
  destruct (decide (this = col)) as [<-|Hne].
  - rewrite Hthis in Hcol. injection Hcol as <-.
    destruct (decide (0 < ColumnIxJson.Size c1)) as [Hpos|Hzero].
    + exfalso. eapply (self_append_never_returns fuel this 0 _ c1); [|exact Hpos|exact H].
      simpl. by apply list_lookup_insert_eq.
    + destruct fuel as [|fuel]; [done|]. cbn [Append_column_rows] in H.
      unfold fields in H. simpl in H. rewrite list_lookup_insert_eq in H by done.
      simpl in H. rewrite decide_False in H by done. injection H as <-.
      exists c1. simpl. rewrite list_lookup_insert_eq by done. split; [done|].
      unfold ColumnIxJson.Size in *. rewrite Hgo in *. lia.
  - destruct (Append_column_rows_count this col B Hne fuel 0
                (MkWorld m1 (<[this:=IxJson c1]> (objects w))) w' c1)
      as (A' & HA' & Hsz); [| | lia | exact H |].
    + simpl. by apply list_lookup_insert_eq.
    + simpl. by rewrite list_lookup_insert_ne.
    + exists A'. split; [done|]. unfold ColumnIxJson.Size in *. rewrite Hgo in Hsz. lia.
Qed.

(** C5. Each of the four single-value appends returns and leaves [Size()]
    one larger; appending a string column of [m] rows leaves [Size()] larger
    by [m] whenever it returns, which it does for a column other than the
    receiver; after [Clear()], [Size()] is zero. *)
Theorem row_count_invariant :
  (∀ m c a bs,
     col_wf m c → call_appends m c a bs →
     ∃ m' c', run_call a m c = Ok (m', c')
              ∧ ColumnIxJson.Size c' = ColumnIxJson.Size c + 1)
  ∧ (∀ a m c m' c',
       run_call a m c = Ok (m', c') →
       ColumnIxJson.Size c' = ColumnIxJson.Size c + 1)
  ∧ (∀ fuel this col w w' A B,
       objects w !! this = Some (IxJson A) →
       objects w !! col = Some (IxJson B) →
       Append_column fuel this col w = Ok w' →
       ∃ A', objects w' !! this = Some (IxJson A')
             ∧ ColumnIxJson.Size A' = ColumnIxJson.Size A + ColumnIxJson.Size B)
  ∧ (∀ this col w A B rows_a rows_b,
       this ≠ col →
       objects w !! this = Some (IxJson A) →
       objects w !! col = Some (IxJson B) →
       col_wf (memory w) A →
       Forall2 (stable (memory w) A) (ColumnIxJson.items_ A) rows_a →
       Forall2 (stable (memory w) A) (ColumnIxJson.items_ B) rows_b →
       fits_size_t (length rows_b) →
       fits_size_t (sum_list_with length rows_b) →
       ∃ w' A',
         Append_column (S (ColumnIxJson.Size B)) this col w = Ok w'
         ∧ objects w' !! this = Some (IxJson A')
         ∧ ColumnIxJson.Size A' = ColumnIxJson.Size A + ColumnIxJson.Size B)
  ∧ (∀ m c, ColumnIxJson.Size (ColumnIxJson.Clear m c).2 = 0).
Proof.
  split_and!.
  - intros m c a bs Hwf Ha.
    destruct (run_call_ok m c a bs Hwf Ha) as (m' & c' & v' & E & I & _).
    exists m', c'. split; [done|]. unfold ColumnIxJson.Size. rewrite I, length_app. done.
  - intros a m c m' c' E. apply run_call_inv in E as (v' & I).
    unfold ColumnIxJson.Size. rewrite I, length_app. done.
  - intros fuel this col w w' A B. apply Append_column_count.
  - intros this col w A B rows_a rows_b Hne Hthis Hcol Hwf Ha Hb Hlen Hsum.
    destruct (Append_column_ok this col w A B rows_a rows_b
                Hne Hthis Hcol Hwf Ha Hb Hlen Hsum)
      as (w' & A' & H1 & H2 & _ & _ & _ & H6 & _).
    exists w', A'. split_and!; [|done|done].
    apply H1. unfold ColumnIxJson.Size. rewrite (Forall2_length _ _ _ Hb). lia.
  - done.
Qed.

Lemma row_count_invariant_witness :
  (∃ m' c', run_call (CallAppendCStr (Ptr 2 0)) sample_memory ColumnIxJson.create = Ok (m', c')
            ∧ ColumnIxJson.Size c' = ColumnIxJson.Size ColumnIxJson.create + 1)
  ∧ (∃ w' A', Append_column 3 1 3 sample_world = Ok w'
              ∧ objects w' !! 1 = Some (IxJson A')
              ∧ ColumnIxJson.Size A' = 1 + 2).
Proof.
  destruct row_count_invariant as (Hcall & _ & _ & Hbulk & _). split.
  - apply (Hcall sample_memory ColumnIxJson.create (CallAppendCStr (Ptr 2 0))
             (lit "json:{x:1}")).
    + split; constructor.
    + solve_call.
  - apply (Hbulk 1 3 sample_world
             (ColumnIxJson.Make [StringView (Ptr 0 0) 2] [Block.Make 2 4096 0] [])
             (ColumnIxJson.Make [StringView (Ptr 1 0) 3; StringView (Ptr 1 3) 0]
                [Block.Make 3 4096 1] [])
             [lit "ab"] [lit "xyz"; []]).
    + lia.
    + reflexivity.
    + reflexivity.
    + split; [apply Forall_singleton; solve_block_ok | constructor].
    + constructor; [solve_stable | constructor].
    + constructor; [solve_stable | constructor; [solve_stable | constructor]].
    + vm_compute. reflexivity.
    + vm_compute. reflexivity.
Defined.

(** ** [Slice] *)

(** The loop of [Slice]: the source rows lie in allocations older than
    [base0], the result column and its rows in allocations from [base0] on. *)
Lemma Slice_rows_ok (items : list string_view) (base0 : nat) :
  ∀ count i m r acc sel,
    col_wf m r → base0 ≤ length m →
    Forall (λ b, base0 ≤ Block.data_ b) (ColumnIxJson.blocks_ r) →
    Forall (λ v, base0 ≤ p_base (sv_data v)) (ColumnIxJson.items_ r) →
    Forall2 (stable m r) (ColumnIxJson.items_ r) acc →
    i + count ≤ length items →
    Forall2 (λ v bs, sv_read m v = Some bs ∧ p_base (sv_data v) < base0)
            (take count (drop i items)) sel →
    ∃ m' r',
      ColumnIxJson.Slice_rows count i items m r = Ok (m', r')
      ∧ col_wf m' r'
      ∧ Forall (λ b, base0 ≤ Block.data_ b) (ColumnIxJson.blocks_ r')
      ∧ Forall (λ v, base0 ≤ p_base (sv_data v)) (ColumnIxJson.items_ r')
      ∧ Forall2 (stable m' r') (ColumnIxJson.items_ r') (acc ++ sel)
      ∧ ColumnIxJson.append_data_ r' = ColumnIxJson.append_data_ r
      ∧ ∀ v bs, sv_read m v = Some bs → p_base (sv_data v) < base0 →
                sv_read m' v = Some bs.
Proof.
  induction count as [|count IH]; intros i m r acc sel Hwf Hbase Hblocks Hitems Hacc Hrange Hsel.
  - simpl in Hsel. apply Forall2_nil_inv_l in Hsel as ->.
    exists m, r. rewrite app_nil_r. by split_and!.
  - destruct (lookup_lt_is_Some_2 items i) as [v Hv]; [lia|].
    rewrite (drop_S _ _ _ Hv) in Hsel. cbn [take] in Hsel.
    apply Forall2_cons_inv_l in Hsel as (bs & sel' & [Hr Hold] & Hsel & ->).
    assert (below_mark r v) as Hbelow.
    { unfold below_mark.
      destruct (ColumnIxJson.blocks_ r !! ColumnIxJson.back_index r) as [b|] eqn:Hb; [|done].
      intros Eb. pose proof (Forall_lookup_1 _ _ _ _ Hblocks Hb) as Hge. simpl in Hge. lia. }
    destruct (Append_ok m r v bs Hwf Hr Hbelow)
      as (m1 & r1 & v1 & E1 & I1 & A1 & W1 & S1 & F1).
    destruct (Append_inv _ _ _ _ _ E1) as (v1' & I1' & _ & Hin & Haddr).
    rewrite I1 in I1'. apply app_inj_tail in I1' as [_ <-].
    assert (∀ a, a ∈ Block.data_ <$> ColumnIxJson.blocks_ r1 → base0 ≤ a) as Hb1.
    { rewrite Forall_forall in Hblocks.
      assert (∀ a, a ∈ Block.data_ <$> ColumnIxJson.blocks_ r → base0 ≤ a) as Hb0.
      { intros a Ha. apply list_elem_of_fmap in Ha as (b & -> & Hb). by apply Hblocks. }
      intros a Ha. destruct Haddr as [E|E]; rewrite E in Ha; [by apply Hb0|].
      apply elem_of_app in Ha as [Ha|Ha]; [by apply Hb0|].
      apply list_elem_of_singleton in Ha as ->. done. }
    assert (∀ u x, sv_read m u = Some x → p_base (sv_data u) < base0 → stable m r u x) as Hst.
    { intros u x Hu Hlt. split; [done|]. unfold below_mark.
      destruct (ColumnIxJson.blocks_ r !! ColumnIxJson.back_index r) as [b|] eqn:Hb; [|done].
      intros Eb. pose proof (Forall_lookup_1 _ _ _ _ Hblocks Hb) as Hge. simpl in Hge. lia. }
    assert (∀ u x, sv_read m u = Some x → p_base (sv_data u) < base0 →
                   sv_read m1 u = Some x) as Hkeep.
    { intros u x Hu Hlt. destruct F1 as [_ F1]. by destruct (F1 u x (Hst u x Hu Hlt)). }
    destruct (IH (S i) m1 r1 (acc ++ [bs]) sel') as (m2 & r2 & E2 & W2 & B2 & T2 & S2 & A2 & K2).
    + done.
    + destruct F1 as [[G _] _]. lia.
    + apply Forall_forall. intros b Hb. apply Hb1, list_elem_of_fmap. eauto.
    + rewrite I1. apply Forall_app. split; [done|]. apply Forall_singleton.
      by apply Hb1.
    + rewrite I1. apply Forall2_app; [|by constructor].
      eapply Forall2_impl; [exact Hacc|]. intros u x Hu. destruct F1 as [_ F1]. by apply F1.
    + lia.
    + eapply Forall2_impl; [exact Hsel|]. intros u x [Hu Hlt]. split; [|done].
      by apply Hkeep.
    + exists m2, r2. cbn [ColumnIxJson.Slice_rows]. rewrite Hv. simpl.
      rewrite E1. simpl. rewrite <- app_assoc in S2.
      split_and!; [done | done | done | done | done | congruence |].
      intros u x Hu Hlt. apply K2; [|done]. by apply Hkeep.
Qed.

Lemma load_free_all m l p k :
  p_base p ∉ l → load (free_all l m) p k = load m p k.
Proof.
  intros H. unfold load. rewrite cell_free_all. by rewrite decide_False.
Qed.

Lemma Forall2_sv_read_free_all m l (vs : list string_view) (rs : list bytes) :
  Forall (λ v, p_base (sv_data v) ∉ l) vs →
  Forall2 (λ v bs, sv_read m v = Some bs) vs rs →
  Forall2 (λ v bs, sv_read (free_all l m) v = Some bs) vs rs.
Proof.
  intros HF H. induction H as [|v bs vs rs Hv _ IH]; [constructor|].
  apply Forall_cons_1 in HF as [Hn HF]. constructor; [|by apply IH].
  unfold sv_read. by rewrite load_free_all.
Qed.

Lemma take_min_length {A} (l : list A) n : take (n `min` length l) l = take n l.
Proof.
  destruct (decide (n ≤ length l)).
  - by rewrite Nat.min_l.
  - rewrite Nat.min_r by lia. by rewrite !take_ge by lia.
Qed.

(** C3. [Slice(begin, len)] of a column whose rows read [rs] returns a new
    column whose rows are rows [begin] up to [min(begin+len, n)] of the
    source, in order; it is the empty column when [begin] is not below [n];
    the source still reads [rs]; and the rows of the slice read the same
    bytes after the source column has been cleared. *)
Theorem Slice_correct (m : mem) (c : ColumnIxJson.t) (begin len : nat) (rs : list bytes) :
  col_wf m c → rows_of m c = Some rs →
  ∃ m' r,
    ColumnIxJson.Slice begin len m c = Ok (m', r)
    ∧ rows_of m' r = Some (take len (drop begin rs))
    ∧ ColumnIxJson.Size r = (begin + len) `min` length rs - begin
    ∧ (length rs ≤ begin → r = ColumnIxJson.create)
    ∧ rows_of m' c = Some rs
    ∧ rows_of (ColumnIxJson.Clear m' c).1 r = Some (take len (drop begin rs)).
Proof.
  intros Hwf Hrows. pose proof (rows_of_Size _ _ _ Hrows) as Hn.
  unfold ColumnIxJson.Size in Hn. apply rows_of_Some in Hrows.
  assert (∀ a, a ∈ Block.data_ <$> ColumnIxJson.blocks_ c → a < length m) as Hold_b.
  { intros a Ha. apply list_elem_of_fmap in Ha as (b & -> & Hb).
    destruct Hwf as [Hwf _]. rewrite Forall_forall in Hwf. specialize (Hwf b Hb).
    unfold block_ok in Hwf. destruct (cell m (Block.data_ b)) eqn:Hc; [|done].
    by eapply cell_lt. }
  assert (∀ a, a ∈ ColumnIxJson.append_data_ c → a < length m) as Hold_a.
  { intros a Ha. destruct Hwf as [_ Hwf]. rewrite Forall_forall in Hwf. by apply Hwf. }
  assert (∀ m' r x,
    Forall (λ v, length m ≤ p_base (sv_data v)) (ColumnIxJson.items_ r) →
    rows_of m' r = Some x →
    rows_of (ColumnIxJson.Clear m' c).1 r = Some x) as Hclear.
  { intros m' r x Hr. rewrite !rows_of_Some. intros Hx.
    unfold ColumnIxJson.Clear, ColumnIxJson.release_append_data,
      ColumnIxJson.release_blocks. simpl.
    apply Forall2_sv_read_free_all.
    { eapply Forall_impl; [exact Hr|]. intros v Hv Hin. apply Hold_a in Hin. simpl in Hv. lia. }
    apply Forall2_sv_read_free_all; [|done].
    eapply Forall_impl; [exact Hr|]. intros v Hv Hin. apply Hold_b in Hin. simpl in Hv. lia. }
  unfold ColumnIxJson.Slice. rewrite Hn. case_decide as Hb.
  - destruct (ColumnIxJson.emplace_block _ m ColumnIxJson.create) as [m1 r1] eqn:Hgo.
    assert (col_wf m ColumnIxJson.create) as Hwf0 by (split; constructor).
    destruct (emplace_block_ok _ _ _ _ _ Hgo Hwf0) as (W1 & _ & _ & I1 & A1).
    rewrite emplace_block_eq in Hgo. injection Hgo as <- <-.
    set (n := len `min` (length rs - begin)).
    destruct (Slice_rows_ok (ColumnIxJson.items_ c) (length m) n begin
                (m ++ [Some (replicate
                   (ComputeTotalSize sv_size (ColumnIxJson.items_ c) begin (N.of_nat n)) x00)])
                (ColumnIxJson.Make []
                   [Block.Make 0
                      (ComputeTotalSize sv_size (ColumnIxJson.items_ c) begin (N.of_nat n))
                      (length m)] [])
                [] (take n (drop begin rs)))
      as (m2 & r2 & E & W2 & _ & T2 & S2 & _ & K2).
    + exact W1.
    + rewrite length_app. lia.
    + apply Forall_singleton. simpl. lia.
    + constructor.
    + constructor.
    + unfold n. lia.
    + apply Forall2_take, Forall2_drop.
      eapply Forall2_impl; [exact Hrows|]. intros v bs Hv. split.
      * by apply load_alloc.
      * exact (load_lt _ _ _ _ Hv).
    + simpl in S2. exists m2, r2.
      assert (take n (drop begin rs) = take len (drop begin rs)) as Etake.
      { unfold n. rewrite <- (length_drop rs begin). apply take_min_length. }
      rewrite Etake in S2. pose proof (stable_rows_of _ _ _ S2) as R2.
      split_and!; [done | done | | intros ?; lia | |].
      * rewrite (rows_of_Size _ _ _ R2), length_take, length_drop. lia.
      * apply rows_of_Some. eapply Forall2_impl; [exact Hrows|]. intros v bs Hv.
        apply K2; [by apply load_alloc | exact (load_lt _ _ _ _ Hv)].
      * by apply Hclear.
  - exists m, ColumnIxJson.create.
    assert (take len (drop begin rs) = []) as -> by (rewrite drop_ge by lia; by destruct len).
    split_and!; [done | done | | done | by apply rows_of_Some |].
    { unfold ColumnIxJson.Size. simpl. lia. }
    apply Hclear; [constructor | done].
Qed.

Lemma Slice_correct_witness :
  ∃ m' r,
    ColumnIxJson.Slice 1 2 xyzw_memory xyzw_column = Ok (m', r)
    ∧ rows_of m' r = Some (take 2 (drop 1 [lit "x"; lit "y"; lit "z"; lit "w"]))
    ∧ ColumnIxJson.Size r = (1 + 2) `min` 4 - 1
    ∧ (4 ≤ 1 → r = ColumnIxJson.create)
    ∧ rows_of m' xyzw_column = Some [lit "x"; lit "y"; lit "z"; lit "w"]
    ∧ rows_of (ColumnIxJson.Clear m' xyzw_column).1 r
      = Some (take 2 (drop 1 [lit "x"; lit "y"; lit "z"; lit "w"])).
Proof.
  apply (Slice_correct xyzw_memory xyzw_column 1 2 [lit "x"; lit "y"; lit "z"; lit "w"]).
  - split; [apply Forall_singleton; solve_block_ok | constructor].
  - vm_compute. reflexivity.
Defined.

(** ** Every stream *)

(** [LoadBody] returns for every stream and row count, and the column then
    holds the complete rows at the head of the stream: all [n] of them on
    success, those before the failing read otherwise. *)
Lemma LoadBody_outcome (m : mem) (c : ColumnIxJson.t) (input : list byte) (n : nat) :
  Forall (λ a, a < length m) (ColumnIxJson.append_data_ c) →
  ∃ ok rest m' c' rs tail,
    input = wire_body rs ++ tail
    ∧ ColumnIxJson.LoadBody input n m c = Ok (ok, rest, m', c')
    ∧ rows_of m' c' = Some rs
    ∧ if ok : bool then length rs = n ∧ rest = tail
      else length rs < n ∧ row_fails tail.
Proof.
  intros Ha. destruct (stream_rows n input) as (rs & tail & -> & Hf & [<-|(k & -> & Hk)]).
  - destruct (LoadBody_complete m c rs tail Ha Hf) as (m' & c' & E & R & _).
    exists true, tail, m', c', rs, tail. by split_and!.
  - destruct (LoadBody_truncated m c rs tail k Ha Hf Hk) as (m' & c' & E & R & _ & _).
    exists false, [], m', c', rs, tail. split_and!; [done | done | done | lia | done].
Qed.

(** ** The scenarios of the specification *)

(** Three single appends: three rows, the second empty, the third intact. *)
Example scenario_three_appends :
  let data := [lit "a"; []; json_string] in
  run_calls (CallAppend <$> caller_views data) (caller_memory data) ColumnIxJson.create
  ≫= (λ '(m, c), mret (ColumnIxJson.Size c, At_bytes m c 1, At_bytes m c 2))
  = Ok (3, Ok [], Ok json_string).
Proof. vm_compute. reflexivity. Qed.

(** A column built from moved strings, saved and loaded with two rows. *)
Example scenario_moved_strings_roundtrip :
  ('(m, c) ← ColumnIxJson.create_move [lit "alpha"; lit "beta"] [];
   wire ← ColumnIxJson.SaveBody [] m c;
   '(ok, rest, m', c') ← ColumnIxJson.LoadBody wire 2 [] ColumnIxJson.create;
   mret (ok, rest, rows_of m' c'))
  = Ok (true, @nil byte, Some [lit "alpha"; lit "beta"]).
Proof. vm_compute. reflexivity. Qed.

(** A column built from copied strings has one block of their total size. *)
Example scenario_copied_strings :
  let data := [lit "alpha"; lit "beta"] in
  ColumnIxJson.create_copy (caller_views data) (caller_memory data)
  ≫= (λ '(m, c), mret (rows_of m c, ColumnIxJson.blocks_ c))
  = Ok (Some [lit "alpha"; lit "beta"], [Block.Make 9 9 2]).
Proof. vm_compute. reflexivity. Qed.

(** A string of 5000 bytes followed by one of 10 bytes: both are intact, the
    first in a block of its own size, the second in a new block. *)
Example scenario_oversized_then_small :
  let data := [long_string; lit "0123456789"] in
  run_calls (CallAppend <$> caller_views data) (caller_memory data) ColumnIxJson.create
  ≫= (λ '(m, c), mret (rows_of m c, ColumnIxJson.blocks_ c))
  = Ok (Some [long_string; lit "0123456789"],
        [Block.Make 5000 5000 2; Block.Make 10 4096 3]).
Proof. vm_compute. reflexivity. Qed.

(** Appending to itself the column with the one row "ab": forty rounds of
    the loop have room in the block and none of them ends the loop. *)
Example self_append_keeps_running :
  Append_column 40 1 1 sample_world = OutOfFuel.
Proof. vm_compute. reflexivity. Qed.

(** Once the block is full the next round writes past its end. *)
Example self_append_overruns_block :
  Append_column 4096 1 1 sample_world = UB.
Proof. vm_compute. reflexivity. Qed.

(** ** The slack of the current block after a load *)

Lemma LoadBody_rows_slack rows : ∀ input block m c input' m' c',
  block_ptr_ok c block → slack_bounded c →
  ColumnIxJson.LoadBody_rows rows input block m c = Ok (true, input', m', c') →
  slack_bounded c'.
Proof.
  induction rows as [|rows IH]; intros input block m c input' m' c' Hp Hs H.
  - by injection H as <- <- <-.
  - rewrite LoadBody_rows_S in H.
    destruct (ReadUInt64 input) as [[len|] input1]; [|discriminate].
    rewrite (lacks_room_ptr _ _ _ Hp), lacks_room_back, Ok_bind in H.
    set (n := N.to_nat len) in *.
    assert (∃ block1 m1 c1 b1,
      (block1 = Some (ColumnIxJson.back_index c1)
       ∧ ColumnIxJson.blocks_ c1 !! ColumnIxJson.back_index c1 = Some b1
       ∧ Block.capacity b1 - Block.size b1 ≤ DEFAULT_BLOCK_SIZE `max` n)
      ∧ (i ← or_UB block1;
         b ← or_UB (ColumnIxJson.blocks_ c1 !! i);
         '(ok, input2, m2) ← ReadBytes input1 (Block.GetCurrentWritePos b) n m1;
         if ok : bool then
           let '(v, b') := Block.ConsumeTailAsStringViewUnsafe n b in
           ColumnIxJson.LoadBody_rows rows input2 block1 m2
             (ColumnIxJson.push_item v (ColumnIxJson.set_block i b' c1))
         else mret (false, input2, m2, c1)) = Ok (true, input', m', c'))
      as (block1 & m1 & c1 & b1 & (-> & Hb1 & Hslack) & H1).
    { destruct (ColumnIxJson.blocks_ c !! ColumnIxJson.back_index c) as [b|] eqn:Hb.
      - case_bool_decide as Hav.
        + rewrite emplace_block_eq in H. eexists _, _, _, _. split; [|exact H].
          split_and!; [|apply back_snoc|simpl; lia].
          unfold ColumnIxJson.back_index. simpl. rewrite length_app. simpl. f_equal. lia.
        + exists block, m, c, b. split; [|exact H].
          split_and!; [|done|].
          * apply Hp. intros E. by rewrite E in Hb.
          * specialize (Hs b Hb). lia.
      - rewrite emplace_block_eq in H. eexists _, _, _, _. split; [|exact H].
        split_and!; [|apply back_snoc|simpl; lia].
        unfold ColumnIxJson.back_index. simpl. rewrite length_app. simpl. f_equal. lia. }
    simpl in H1. rewrite Hb1 in H1. simpl in H1.
    apply bind_Ok_inv in H1 as ([[ok input2] m2] & _ & H1).
    destruct ok; [|discriminate]. simpl in H1.
    pose proof (lookup_lt_Some _ _ _ Hb1) as Hlt.
    eapply IH; [| |exact H1].
    + intros _. unfold ColumnIxJson.back_index. simpl. by rewrite length_insert.
    + unfold slack_bounded, ColumnIxJson.back_index. simpl. rewrite length_insert.
      fold (ColumnIxJson.back_index c1). rewrite list_lookup_insert_eq by done.
      intros b' [= <-]. simpl. lia.
Qed.

(** After a successful load the current block has at most the default block
    size left. *)
Lemma LoadBody_slack input rows m c input' m' c' :
  ColumnIxJson.LoadBody input rows m c = Ok (true, input', m', c') →
  slack_bounded c'.
Proof.
  rewrite LoadBody_eq. apply LoadBody_rows_slack.
  - by intros ?.
  - by intros b ?.
Qed.

(** * Further properties of the code *)

(** ** [ComputeTotalSize] in general *)

Lemma wrap_size_t_0 : wrap_size_t 0 = 0.
Proof. reflexivity. Qed.

Lemma foldl_add_size_t_wrap {A} (f : A → nat) (l : list A) : ∀ a : N,
  foldl (λ result s, add_size_t result (f s)) (wrap_size_t a) l
  = wrap_size_t (a + N.of_nat (sum_list_with f l)).
Proof.
  induction l as [|x l IH]; intros a.
  - simpl. by rewrite N.add_0_r.
  - cbn [foldl sum_list_with].
    assert (add_size_t (wrap_size_t a) (f x) = wrap_size_t (a + N.of_nat (f x))) as ->.
    { unfold add_size_t, wrap_size_t. rewrite N2Nat.id.
      by rewrite N.Div0.add_mod_idemp_l. }
    rewrite IH. f_equal. lia.
Qed.

Lemma ComputeTotalSize_mod {A} (f : A → nat) (l : list A) (begin : nat) (len : N) :
  ComputeTotalSize f l begin len
  = wrap_size_t (N.of_nat (sum_list_with f (take (N.to_nat len) (drop begin l)))).
Proof.
  unfold ComputeTotalSize. case_decide as Hb.
  - rewrite N2Nat.inj_min, Nat2N.id, <- (length_drop l begin), take_min_length.
    rewrite <- wrap_size_t_0 at 1. by rewrite foldl_add_size_t_wrap.
  - rewrite drop_ge by lia. by rewrite take_nil.
Qed.

(** X1. [ComputeTotalSize(strings, begin, len)] is the sum, modulo [2^64],
    of the sizes of the elements [begin] up to [min(begin+len, n)]; it
    is zero when [begin] is not below [n], and the plain sum whenever that
    sum is a [size_t]. *)
Theorem ComputeTotalSize_range {A} (f : A → nat) (l : list A) (begin : nat) (len : N) :
  let selected := take (N.to_nat len) (drop begin l) in
  ComputeTotalSize f l begin len = wrap_size_t (N.of_nat (sum_list_with f selected))
  ∧ fits_size_t (ComputeTotalSize f l begin len)
  ∧ (length l ≤ begin → ComputeTotalSize f l begin len = 0)
  ∧ (fits_size_t (sum_list_with f selected) →
     ComputeTotalSize f l begin len = sum_list_with f selected).
Proof.
  simpl. rewrite ComputeTotalSize_mod. split_and!.
  - done.
  - unfold fits_size_t, wrap_size_t. rewrite N2Nat.id.
    apply N.mod_lt. unfold SIZE_MODULUS. lia.
  - intros H. rewrite drop_ge by lia. by rewrite take_nil.
  - apply wrap_size_t_small.
Qed.

Lemma ComputeTotalSize_range_witness :
  fits_size_t (sum_list_with length (take (N.to_nat 2) (drop 1 [lit "x"; lit "yy"; lit "zzz"; lit "w"])))
  ∧ ComputeTotalSize length [lit "x"; lit "yy"; lit "zzz"; lit "w"] 1 2 = 5.
Proof.
  split; [vm_compute; reflexivity|].
  apply (ComputeTotalSize_range length [lit "x"; lit "yy"; lit "zzz"; lit "w"] 1 2).
  vm_compute. reflexivity.
Defined.

(** ** The unchecked write of a block *)

(** X2. [Block::AppendUnsafe] on a well-formed block, with a readable
    source.  When the string is no longer than [GetAvailable()] and does not
    overlap the bytes it is copied to, the call returns a view at the old
    write position that reads the string, [size] has advanced by its length,
    [GetAvailable()] has shrunk by it and the block is still well formed.
    When the string is longer the [memcpy] runs past the array, and when the
    string overlaps the bytes it is copied to the [memcpy] is between
    overlapping ranges; both are undefined. *)
Theorem Block_AppendUnsafe_room (m : mem) (b : Block.t) (str : string_view) (bs : bytes) :
  block_ok m b → sv_read m str = Some bs →
  (sv_size str ≤ Block.GetAvailable b →
   ranges_overlap (Block.GetCurrentWritePos b) (sv_data str) (sv_size str) = false →
   ∃ m' b',
     Block.AppendUnsafe str m b
       = Ok (StringView (Block.GetCurrentWritePos b) (sv_size str), m', b')
     ∧ sv_read m' (StringView (Block.GetCurrentWritePos b) (sv_size str)) = Some bs
     ∧ Block.size b' = Block.size b + sv_size str
     ∧ Block.capacity b' = Block.capacity b
     ∧ Block.data_ b' = Block.data_ b
     ∧ Block.GetAvailable b' = Block.GetAvailable b - sv_size str
     ∧ block_ok m' b')
  ∧ (Block.GetAvailable b < sv_size str → Block.AppendUnsafe str m b = UB)
  ∧ (ranges_overlap (Block.GetCurrentWritePos b) (sv_data str) (sv_size str) = true →
     Block.AppendUnsafe str m b = UB).
Proof.
  intros Hok Hr. rewrite (block_ok_available _ _ Hok).
  pose proof (load_length _ _ _ _ Hr) as Hl.
  pose proof Hok as Hok'. unfold block_ok in Hok'.
  destruct (cell m (Block.data_ b)) as [buf|] eqn:Hc; [|done].
  destruct Hok' as [Hcap Hsz]. unfold sv_read in Hr. split_and!.
  - intros Hroom Hapart.
    destruct (store_fits m (Ptr (Block.data_ b) (Block.size b)) bs buf) as [m' Hs];
      [done | simpl; lia |].
    exists m', (Block.Make (Block.size b + sv_size str) (Block.capacity b) (Block.data_ b)).
    assert (block_ok m' (Block.Make (Block.size b + sv_size str) (Block.capacity b)
                           (Block.data_ b))) as Hok2.
    { unfold block_ok. simpl. destruct (store_grows _ _ _ _ Hs) as [_ G].
      destruct (G _ _ Hc) as (buf' & -> & L). split; lia. }
    split_and!; try done.
    + unfold Block.AppendUnsafe, memcpy. rewrite Hr. simpl.
      unfold Block.GetCurrentWritePos in Hapart. by rewrite Hapart, Hs.
    + unfold sv_read, Block.GetCurrentWritePos. simpl. rewrite <- Hl.
      by eapply load_store_same.
    + rewrite (block_ok_available _ _ Hok2). simpl. lia.
  - intros Hbig. unfold Block.AppendUnsafe, memcpy. rewrite Hr. simpl.
    destruct (ranges_overlap _ _ _); [done|].
    unfold store. simpl. rewrite Hc. simpl. by rewrite decide_False by lia.
  - intros Hover. unfold Block.AppendUnsafe, memcpy. rewrite Hr. simpl.
    unfold Block.GetCurrentWritePos in Hover. by rewrite Hover.
Qed.

Lemma Block_AppendUnsafe_room_witness :
  (∃ m' b',
     Block.AppendUnsafe (StringView (Ptr 0 0) 4) xyzw_memory (Block.Make 4 4096 0)
       = Ok (StringView (Ptr 0 4) 4, m', b')
     ∧ sv_read m' (StringView (Ptr 0 4) 4) = Some (lit "xyzw")
     ∧ Block.size b' = 8)
  ∧ Block.AppendUnsafe (StringView (Ptr 0 0) 4) xyzw_memory (Block.Make 4094 4096 0) = UB
  ∧ Block.AppendUnsafe (StringView (Ptr 0 2) 4) xyzw_memory (Block.Make 4 4096 0) = UB.
Proof.
  split_and!.
  - destruct (proj1 (Block_AppendUnsafe_room xyzw_memory (Block.Make 4 4096 0)
                       (StringView (Ptr 0 0) 4) (lit "xyzw")
                       ltac:(solve_block_ok) ltac:(vm_compute; reflexivity)))
      as (m' & b' & E & R & S1 & _).
    + vm_compute. lia.
    + vm_compute. reflexivity.
    + exists m', b'. split_and!; [exact E | exact R | exact S1].
  - apply (proj1 (proj2 (Block_AppendUnsafe_room xyzw_memory (Block.Make 4094 4096 0)
                           (StringView (Ptr 0 0) 4) (lit "xyzw")
                           ltac:(solve_block_ok) ltac:(vm_compute; reflexivity)))).
    vm_compute. lia.
  - apply (proj2 (proj2 (Block_AppendUnsafe_room xyzw_memory (Block.Make 4 4096 0)
                           (StringView (Ptr 0 2) 4) (lit "zw" ++ [x00; x00])
                           ltac:(solve_block_ok) ltac:(vm_compute; reflexivity)))).
    vm_compute. reflexivity.
Defined.

(** ** The constructors from a vector of strings *)

(** A run of unchecked appends into a current block that has room for all
    of them fills that block and touches no other. *)
Lemma AppendUnsafe_each_ok data : ∀ m c b added,
  col_wf m c →
  ColumnIxJson.blocks_ c !! ColumnIxJson.back_index c = Some b →
  sum_list_with sv_size data ≤ Block.capacity b - Block.size b →
  Forall2 (stable m c) data added →
  ∃ m' c' vs,
    ColumnIxJson.AppendUnsafe_each data m c = Ok (m', c')
    ∧ col_wf m' c'
    ∧ ColumnIxJson.items_ c' = ColumnIxJson.items_ c ++ vs
    ∧ Forall2 (stable m' c') vs added
    ∧ frame m c m' c'
    ∧ length m' = length m
    ∧ ColumnIxJson.blocks_ c'
      = <[ColumnIxJson.back_index c :=
            Block.Make (Block.size b + sum_list_with sv_size data)
                       (Block.capacity b) (Block.data_ b)]> (ColumnIxJson.blocks_ c)
    ∧ ColumnIxJson.append_data_ c' = ColumnIxJson.append_data_ c.
Proof.
  induction data as [|v data IH]; intros m c b added Hwf Hback Hroom Hst.
  - apply Forall2_nil_inv_l in Hst as ->. exists m, c, [].
    rewrite app_nil_r. simpl. rewrite Nat.add_0_r.
    split_and!; [done | done | done | constructor | apply frame_refl | done | | done].
    symmetry. apply list_insert_id. rewrite Hback. by destruct b.
  - apply Forall2_cons_inv_l in Hst as (bs & added' & [Hr Hm] & Hst & ->).
    simpl in Hroom.
    destruct (back_AppendUnsafe_ok m c b v bs Hwf Hback Hr Hm) as (m1 & E1 & W1 & S1 & F1);
      [lia|].
    simpl in E1.
    set (b1 := Block.Make (Block.size b + sv_size v) (Block.capacity b) (Block.data_ b)) in *.
    set (v1 := StringView (Ptr (Block.data_ b) (Block.size b)) (sv_size v)) in *.
    set (c1 := ColumnIxJson.push_item v1
                 (ColumnIxJson.set_block (ColumnIxJson.back_index c) b1 c)).
    pose proof (lookup_lt_Some _ _ _ Hback) as Hlt.
    assert (ColumnIxJson.back_index c1 = ColumnIxJson.back_index c) as Hbi.
    { unfold ColumnIxJson.back_index. simpl. by rewrite length_insert. }
    destruct (IH m1 c1 b1 added') as (m2 & c2 & vs & E2 & W2 & I2 & S2 & F2 & L2 & B2 & A2).
    + split; apply W1.
    + rewrite Hbi. simpl. by apply list_lookup_insert_eq.
    + simpl. lia.
    + eapply Forall2_impl; [exact Hst|]. intros u x Hu.
      destruct F1 as [_ F1]. destruct (F1 u x Hu). by split.
    + exists m2, c2, (v1 :: vs). cbn [ColumnIxJson.AppendUnsafe_each].
      unfold ColumnIxJson.AppendUnsafe. rewrite E1. simpl.
      fold c1. rewrite E2.
      split_and!; [done | done | | | | | | done].
      * rewrite I2. simpl. by rewrite <- app_assoc.
      * constructor; [|done]. destruct F2 as [_ F2]. apply F2. split; apply S1.
      * eapply frame_trans; [|exact F2]. apply frame_push. exact F1.
      * rewrite L2. destruct F1 as [[_ _] _].
        apply back_AppendUnsafe_inv in E1 as (? & ? & _ & _ & Hs & _).
        by eapply store_length.
      * rewrite B2, Hbi. simpl. rewrite list_insert_insert_eq.
        do 2 f_equal. lia.
Qed.

(** X3. The constructor from [const std::vector<std::string>&], for
    readable strings whose count and total size are [size_t] values: the
    column has the strings as its rows, in order, copied into one block that
    is exactly as large as all of them together and is full, and it owns no
    string. *)
Theorem create_copy_ok (m : mem) (data : list string_view) (rs : list bytes) :
  Forall2 (λ v bs, sv_read m v = Some bs) data rs →
  fits_size_t (length rs) →
  fits_size_t (sum_list_with length rs) →
  ∃ m' c,
    ColumnIxJson.create_copy data m = Ok (m', c)
    ∧ rows_of m' c = Some rs
    ∧ ColumnIxJson.blocks_ c
      = [Block.Make (sum_list_with length rs) (sum_list_with length rs) (length m)]
    ∧ ColumnIxJson.append_data_ c = []
    ∧ length m' = S (length m)
    ∧ col_wf m' c.
Proof.
  intros Hd Hlen Hsum.
  assert (sum_list_with sv_size data = sum_list_with length rs) as Hsz.
  { clear Hlen Hsum. induction Hd as [|v bs data rs Hv _ IH]; [done|]. simpl.
    by rewrite IH, (load_length _ _ _ _ Hv). }
  unfold ColumnIxJson.create_copy.
  rewrite ComputeTotalSize_all
    by (rewrite ?(Forall2_length _ _ _ Hd), ?Hsz; done).
  rewrite emplace_block_eq, Hsz. simpl.
  set (T := sum_list_with length rs) in *.
  set (m1 := m ++ [Some (replicate T x00)]).
  set (c1 := ColumnIxJson.Make [] [Block.Make 0 T (length m)] []).
  assert (col_wf m1 c1) as W1.
  { split; [|constructor]. apply Forall_singleton. unfold block_ok. simpl.
    unfold m1. rewrite cell_app_new. split; [apply length_replicate | lia]. }
  destruct (AppendUnsafe_each_ok data m1 c1 (Block.Make 0 T (length m)) rs W1)
    as (m2 & c2 & vs & E & W2 & I2 & S2 & _ & L2 & B2 & A2).
  - done.
  - simpl. lia.
  - eapply Forall2_impl; [exact Hd|]. intros v bs Hv. split.
    + unfold m1. by apply load_alloc.
    + unfold below_mark. simpl. intros Eq. apply load_lt in Hv. lia.
  - exists m2, c2. split; [done|]. simpl in I2, B2.
    split_and!; [| | done | | done].
    + apply stable_rows_of. by rewrite I2.
    + rewrite B2. simpl. by rewrite Hsz.
    + rewrite L2. unfold m1. rewrite length_app. simpl. lia.
Qed.

Lemma create_copy_ok_witness :
  ∃ m' c,
    ColumnIxJson.create_copy (caller_views [lit "alpha"; []; lit "beta"])
      (caller_memory [lit "alpha"; []; lit "beta"]) = Ok (m', c)
    ∧ rows_of m' c = Some [lit "alpha"; []; lit "beta"]
    ∧ ColumnIxJson.blocks_ c = [Block.Make 9 9 3].
Proof.
  destruct (create_copy_ok (caller_memory [lit "alpha"; []; lit "beta"])
              (caller_views [lit "alpha"; []; lit "beta"])
              [lit "alpha"; []; lit "beta"]) as (m' & c & E & R & B & _).
  - repeat constructor.
  - vm_compute. reflexivity.
  - vm_compute. reflexivity.
  - exists m', c. split_and!; [exact E | exact R | exact B].
Defined.

Lemma create_move_from_eq data : ∀ m c,
  ColumnIxJson.create_move_from data m c = run_calls (CallAppendMove <$> data) m c.
Proof.
  induction data as [|d data IH]; intros m c; [done|].
  cbn [ColumnIxJson.create_move_from fmap list_fmap run_calls run_call].
  destruct (ColumnIxJson.Append_move d m c) as [[m1 c1]| | |]; try done.
  simpl. apply IH.
Qed.

Lemma create_move_from_shape data : ∀ m c m' c',
  ColumnIxJson.create_move_from data m c = Ok (m', c') →
  m' = m ++ (Some <$> data)
  ∧ ColumnIxJson.blocks_ c' = ColumnIxJson.blocks_ c
  ∧ ColumnIxJson.append_data_ c'
    = ColumnIxJson.append_data_ c ++ seq (length m) (length data).
Proof.
  induction data as [|d data IH]; intros m c m' c' H.
  - injection H as <- <-. simpl. by rewrite !app_nil_r.
  - cbn [ColumnIxJson.create_move_from] in H. unfold ColumnIxJson.Append_move in H.
    simpl in H. apply IH in H as (-> & -> & ->). simpl.
    rewrite length_app. simpl. rewrite Nat.add_1_r.
    by rewrite <- !app_assoc.
Qed.

(** X4. The constructor from [std::vector<std::string>&&] always returns:
    the column has the strings as its rows, in order; every string has
    become one new allocation owned by the column, in the order of the
    vector, and no block is allocated. *)
Theorem create_move_ok (m : mem) (data : list bytes) :
  ∃ m' c,
    ColumnIxJson.create_move data m = Ok (m', c)
    ∧ rows_of m' c = Some data
    ∧ m' = m ++ (Some <$> data)
    ∧ ColumnIxJson.blocks_ c = []
    ∧ ColumnIxJson.append_data_ c = seq (length m) (length data)
    ∧ col_wf m' c.
Proof.
  unfold ColumnIxJson.create_move.
  assert (col_wf m ColumnIxJson.create) as Hwf by (split; constructor).
  destruct (run_calls_ok (CallAppendMove <$> data) m ColumnIxJson.create data Hwf)
    as (m' & c & vs & E & I & St & W & _).
  { apply Forall2_fmap_l, Forall2_same_length_lookup_2; [done|].
    intros i x y Hx Hy. simpl. congruence. }
  rewrite <- create_move_from_eq in E.
  destruct (create_move_from_shape _ _ _ _ _ E) as (Hm & Hb & Ha).
  exists m', c. split_and!; [done | | done | done | done | done].
  apply stable_rows_of. by rewrite I.
Qed.

(** ** [Clear] *)

(** X5. [Clear()] leaves the column as a freshly constructed one and
    releases exactly the allocations the column owned, the arrays of its
    blocks and its strings: a view into one of them can no longer be read,
    every other view, such as a borrowed row in a buffer of the caller,
    reads what it read before.  Clearing again changes nothing. *)
Theorem Clear_releases_owned (m : mem) (c : ColumnIxJson.t) (v : string_view) :
  let owned := (Block.data_ <$> ColumnIxJson.blocks_ c) ++ ColumnIxJson.append_data_ c in
  (ColumnIxJson.Clear m c).2 = ColumnIxJson.create
  ∧ length (ColumnIxJson.Clear m c).1 = length m
  ∧ sv_read (ColumnIxJson.Clear m c).1 v
    = (if decide (p_base (sv_data v) ∈ owned) then None else sv_read m v)
  ∧ ColumnIxJson.Clear (ColumnIxJson.Clear m c).1 (ColumnIxJson.Clear m c).2
    = ColumnIxJson.Clear m c.
Proof.
  simpl. split_and!; [done | | | done].
  - unfold ColumnIxJson.Clear, ColumnIxJson.release_append_data,
      ColumnIxJson.release_blocks. simpl. by rewrite !length_free_all.
  - unfold ColumnIxJson.Clear, ColumnIxJson.release_append_data,
      ColumnIxJson.release_blocks, sv_read, load. simpl.
    rewrite !cell_free_all.
    destruct (decide (p_base (sv_data v) ∈ ColumnIxJson.append_data_ c)) as [Ha|Ha].
    + rewrite decide_True by (apply elem_of_app; by right). done.
    + destruct (decide (p_base (sv_data v) ∈ Block.data_ <$> ColumnIxJson.blocks_ c))
        as [Hb|Hb].
      * rewrite decide_True by (apply elem_of_app; by left). done.
      * rewrite decide_False; [done|]. by intros [?|?]%elem_of_app.
Qed.

(** ** [Swap] twice *)

Lemma Swap_Ok this other w a b :
  objects w !! this = Some (IxJson a) →
  objects w !! other = Some (IxJson b) →
  Swap this other w
  = Ok (MkWorld (memory w) (<[other := IxJson a]> (<[this := IxJson b]> (objects w)))).
Proof. intros Ha Hb. unfold Swap, fields. by rewrite Ha, Hb. Qed.

(** X6. [Swap] between two string columns is its own inverse, swapping
    twice gives back the world as it was, and it does not matter which of
    the two objects the call is made on. *)
Theorem Swap_involutive (this other : ColumnRef) (w : World) (a b : ColumnIxJson.t) :
  objects w !! this = Some (IxJson a) →
  objects w !! other = Some (IxJson b) →
  (Swap this other w ≫= Swap this other) = Ok w
  ∧ Swap other this w = Swap this other w.
Proof.
  intros Ha Hb.
  pose proof (lookup_lt_Some _ _ _ Ha) as Lt.
  pose proof (lookup_lt_Some _ _ _ Hb) as Lo.
  rewrite (Swap_Ok _ _ _ _ _ Ha Hb), (Swap_Ok _ _ _ _ _ Hb Ha), Ok_bind.
  destruct (decide (this = other)) as [->|Hne].
  - rewrite Ha in Hb. injection Hb as <-. split; [|done].
    erewrite Swap_Ok.
    + destruct w as [m objs]. simpl in *. do 2 f_equal.
      rewrite !list_insert_insert_eq. by apply list_insert_id.
    + simpl. apply list_lookup_insert_eq. by rewrite length_insert.
    + simpl. apply list_lookup_insert_eq. by rewrite length_insert.
  - split.
    + erewrite Swap_Ok.
      * destruct w as [m objs]. simpl in *. do 2 f_equal.
        apply list_eq. intros i.
        destruct (decide (i = other)) as [->|Hio].
        { rewrite list_lookup_insert_eq by (by rewrite !length_insert). done. }
        rewrite list_lookup_insert_ne by done.
        destruct (decide (i = this)) as [->|Hit].
        { rewrite list_lookup_insert_eq by (by rewrite !length_insert). done. }
        by rewrite !list_lookup_insert_ne.
      * simpl. rewrite list_lookup_insert_ne by done.
        by apply list_lookup_insert_eq.
      * simpl. apply list_lookup_insert_eq. by rewrite length_insert.
    + do 2 f_equal. apply list_eq. intros i.
      destruct (decide (i = other)) as [->|Hio].
      { rewrite list_lookup_insert_ne by done.
        by rewrite !list_lookup_insert_eq by (by rewrite ?length_insert). }
      destruct (decide (i = this)) as [->|Hit].
      { rewrite list_lookup_insert_eq by (by rewrite length_insert).
        rewrite list_lookup_insert_ne by done. by rewrite list_lookup_insert_eq. }
      by rewrite !list_lookup_insert_ne.
Qed.

Lemma Swap_involutive_witness :
  (Swap 1 3 sample_world ≫= Swap 1 3) = Ok sample_world
  ∧ Swap 3 1 sample_world = Swap 1 3 sample_world.
Proof.
  exact (Swap_involutive 1 3 sample_world _ _ eq_refl eq_refl).
Defined.

(** ** [SaveBody] in general *)

Lemma SaveBody_items_eq m items : ∀ output,
  ColumnIxJson.SaveBody_items items output m
  = match mapM (sv_read m) items with
    | Some rs => Ok (output ++ wire_body rs)
    | None => UB
    end.
Proof.
  induction items as [|v items IH]; intros output.
  - simpl. by rewrite app_nil_r.
  - cbn [ColumnIxJson.SaveBody_items mapM]. unfold WriteObject.
    destruct (sv_read m v) as [bs|] eqn:Hv; [|done]. simpl.
    rewrite IH. destruct (mapM (sv_read m) items) as [rs|]; [|done]. simpl.
    unfold wire_body. cbn [fmap list_fmap concat]. unfold wire_row at 2.
    rewrite (load_length _ _ _ _ Hv). by rewrite <- !app_assoc.
Qed.

(** X7. [SaveBody] appends to the stream, for every row in order, the
    length prefix and the bytes of the row, and nothing else; it leaves what
    the stream held before in place.  It is undefined exactly when some row
    of the column can no longer be read, and it never throws. *)
Theorem SaveBody_appends_rows (output : list byte) (m : mem) (c : ColumnIxJson.t) :
  ColumnIxJson.SaveBody output m c
  = match rows_of m c with
    | Some rs => Ok (output ++ wire_body rs)
    | None => UB
    end.
Proof. apply SaveBody_items_eq. Qed.

Lemma length_wire_body rs :
  length (wire_body rs) = 8 * length rs + sum_list_with length rs.
Proof.
  induction rs as [|s rs IH]; [done|].
  change (wire_body (s :: rs)) with (wire_row s ++ wire_body rs).
  unfold wire_row. rewrite !length_app, length_le_encode, IH. simpl. lia.
Qed.

(** X8. Whenever [SaveBody] returns, it has written eight bytes for every
    row plus the sizes of all rows: there is no header, padding or
    terminator. *)
Theorem SaveBody_length (output output' : list byte) (m : mem) (c : ColumnIxJson.t) :
  ColumnIxJson.SaveBody output m c = Ok output' →
  length output' = length output + 8 * ColumnIxJson.Size c
                   + sum_list_with sv_size (ColumnIxJson.items_ c).
Proof.
  unfold ColumnIxJson.SaveBody. rewrite SaveBody_items_eq. fold (rows_of m c).
  destruct (rows_of m c) as [rs|] eqn:Hr; [|done]. intros [= <-].
  rewrite length_app, length_wire_body, (rows_of_Size _ _ _ Hr).
  apply rows_of_Some in Hr.
  assert (sum_list_with sv_size (ColumnIxJson.items_ c) = sum_list_with length rs) as ->.
  { induction Hr as [|v bs vs rs Hv _ IH]; [done|]. simpl.
    by rewrite IH, (load_length _ _ _ _ Hv). }
  lia.
Qed.

Lemma SaveBody_length_witness :
  length (wire_body [lit "x"; lit "y"; lit "z"; lit "w"]) = 0 + 8 * 4 + 4.
Proof.
  apply (SaveBody_length [] _ xyzw_memory xyzw_column). vm_compute. reflexivity.
Defined.

(** ** [LoadBody] in general *)

(** Where the allocator serves every block that is asked for, the loop runs
    as it does where nothing is refused; where it does not, the loop ends in
    [std::bad_alloc]. *)
Lemma LoadBody_rows_on_cases impl rows : ∀ input block m c,
  (Forall (grants_block impl) (announced rows input) →
   ColumnIxJson.LoadBody_rows_on impl rows input block m c
   = ColumnIxJson.LoadBody_rows rows input block m c)
  ∧ (ColumnIxJson.LoadBody_rows_on impl rows input block m c
     = ColumnIxJson.LoadBody_rows rows input block m c
     ∨ ColumnIxJson.LoadBody_rows_on impl rows input block m c = Throw bad_alloc).
Proof.
  induction rows as [|rows IH]; intros input block m c; [by split; [|left]|].
  unfold ColumnIxJson.LoadBody_rows in *.
  cbn [ColumnIxJson.LoadBody_rows_on announced].
  destruct (ReadUInt64 input) as [[len|] input1]; [|by split; [|left]].
  cbv zeta. set (n := N.to_nat len).
  destruct (ColumnIxJson.lacks_room c block n) as [grow| | |]; [|by split; [|left]..].
  rewrite !Ok_bind.
  assert (∀ block1 m1 c1,
    let k impl' :=
      i ← or_UB block1;
      b ← or_UB (ColumnIxJson.blocks_ c1 !! i);
      '(ok, input2, m2) ← ReadBytes input1 (Block.GetCurrentWritePos b) n m1;
      if ok : bool then
        let '(v, b') := Block.ConsumeTailAsStringViewUnsafe n b in
        ColumnIxJson.LoadBody_rows_on impl' rows input2 block1 m2
          (ColumnIxJson.push_item v (ColumnIxJson.set_block i b' c1))
      else mret (false, input2, m2, c1) in
    (Forall (grants_block impl)
       (if decide (n ≤ length input1) then announced rows (drop n input1) else []) →
     k impl = k generous)
    ∧ (k impl = k generous ∨ k impl = Throw bad_alloc)) as Hk.
  { intros block1 m1 c1. simpl.
    destruct block1 as [i|]; [|by split; [|left]]. simpl.
    destruct (ColumnIxJson.blocks_ c1 !! i) as [b|]; [|by split; [|left]]. simpl.
    unfold ReadBytes. case_decide as Hle.
    - destruct (store m1 (Block.GetCurrentWritePos b) (take n input1)) as [m2|];
        [|by split; [|left]].
      simpl. apply IH.
    - destruct (store m1 (Block.GetCurrentWritePos b) input1) as [m2|]; by split; [|left]. }
  destruct grow.
  - destruct (grants impl m (DEFAULT_BLOCK_SIZE `max` n)) eqn:Hg.
    + cbn [grants generous]. rewrite !Ok_bind.
      destruct (ColumnIxJson.emplace_block (DEFAULT_BLOCK_SIZE `max` n) m c) as [m1 c1].
      destruct (Hk (Some (length (ColumnIxJson.blocks_ c))) m1 c1) as [H1 H2].
      split; [|exact H2]. intros HF. apply Forall_cons_1 in HF as [_ HF]. by apply H1.
    + split; [|by right]. intros HF. apply Forall_cons_1 in HF as [HF _].
      specialize (HF m). congruence.
  - rewrite !Ok_bind. destruct (Hk block m c) as [H1 H2].
    split; [|exact H2]. intros HF. apply Forall_cons_1 in HF as [_ HF]. by apply H1.
Qed.

Lemma LoadBody_on_granted impl input rows m c :
  admits_size impl rows = true → reserves impl rows = true →
  Forall (grants_block impl) (announced rows input) →
  ColumnIxJson.LoadBody_on impl input rows m c = ColumnIxJson.LoadBody input rows m c.
Proof.
  intros Ha Hr Hg. rewrite LoadBody_eq. unfold ColumnIxJson.LoadBody_on.
  rewrite Ha, Hr. simpl. by apply LoadBody_rows_on_cases.
Qed.

(** X9. [LoadBody] has no undefined behaviour, for every stream and every
    row count, whatever the column held before.  It throws
    [std::length_error] exactly when the row count is more than the vector
    admits, and [std::bad_alloc] when the reserve is refused or the block
    for the first length in the stream is; apart from these two exceptions
    it returns.  When nothing it asks for is refused it returns true exactly
    when the stream starts with [rows] complete rows; the column then holds
    them and the stream is left at the first byte behind them.  Otherwise
    it returns false and the column holds the complete rows before the
    failing read. *)
Theorem LoadBody_total (impl : Implementation) (m : mem) (c : ColumnIxJson.t)
    (input : list byte) (rows : nat) :
  Forall (λ a, a < length m) (ColumnIxJson.append_data_ c) →
  (admits_size impl rows = false ↔
   ColumnIxJson.LoadBody_on impl input rows m c = Throw length_error)
  ∧ (admits_size impl rows = true → reserves impl rows = false →
     ColumnIxJson.LoadBody_on impl input rows m c = Throw bad_alloc)
  ∧ (∀ len rest,
       admits_size impl rows = true → 0 < rows →
       ReadUInt64 input = (Some len, rest) →
       grants impl (ColumnIxJson.release_blocks c m)
              (DEFAULT_BLOCK_SIZE `max` N.to_nat len) = false →
       ColumnIxJson.LoadBody_on impl input rows m c = Throw bad_alloc)
  ∧ ((∃ r, ColumnIxJson.LoadBody_on impl input rows m c = Ok r)
     ∨ ColumnIxJson.LoadBody_on impl input rows m c = Throw length_error
     ∨ ColumnIxJson.LoadBody_on impl input rows m c = Throw bad_alloc)
  ∧ (admits_size impl rows = true → reserves impl rows = true →
     Forall (grants_block impl) (announced rows input) →
     ∃ ok rest m' c' rs tail,
       input = wire_body rs ++ tail
       ∧ ColumnIxJson.LoadBody_on impl input rows m c = Ok (ok, rest, m', c')
       ∧ rows_of m' c' = Some rs
       ∧ col_wf m' c'
       ∧ if ok : bool then length rs = rows ∧ rest = tail
         else length rs < rows ∧ row_fails tail).
Proof.
  intros Ha.
  assert (∃ ok rest m' c' rs tail,
    input = wire_body rs ++ tail
    ∧ ColumnIxJson.LoadBody input rows m c = Ok (ok, rest, m', c')
    ∧ rows_of m' c' = Some rs
    ∧ col_wf m' c'
    ∧ if ok : bool then length rs = rows ∧ rest = tail
      else length rs < rows ∧ row_fails tail) as Hgen.
  { destruct (stream_rows rows input) as (rs & tail & -> & Hf & [<-|(k & -> & Hk)]).
    - destruct (LoadBody_complete m c rs tail Ha Hf) as (m' & c' & E & R & W).
      exists true, tail, m', c', rs, tail. by split_and!.
    - destruct (LoadBody_truncated m c rs tail k Ha Hf Hk) as (m' & c' & E & R & W & _).
      exists false, [], m', c', rs, tail. split_and!; [done | done | done | done | lia | done]. }
  assert (ColumnIxJson.LoadBody_rows_on impl rows input None
            (ColumnIxJson.release_blocks c m)
            (ColumnIxJson.Make [] [] (ColumnIxJson.append_data_ c))
          = ColumnIxJson.LoadBody input rows m c
          ∨ ColumnIxJson.LoadBody_rows_on impl rows input None
              (ColumnIxJson.release_blocks c m)
              (ColumnIxJson.Make [] [] (ColumnIxJson.append_data_ c))
            = Throw bad_alloc) as Hcases
    by (rewrite LoadBody_eq; apply LoadBody_rows_on_cases).
  split_and!.
  - unfold ColumnIxJson.LoadBody_on. split.
    + by intros ->.
    + destruct (admits_size impl rows); [|done]. simpl.
      destruct (reserves impl rows); simpl; [|done].
      destruct Hgen as (ok & rest & m' & c' & rs & tail & _ & E & _).
      destruct Hcases as [H|H]; rewrite H; [by rewrite E | done].
  - intros H1 H2. unfold ColumnIxJson.LoadBody_on. by rewrite H1, H2.
  - intros len rest H1 Hrows Hrd Hg. unfold ColumnIxJson.LoadBody_on. rewrite H1. simpl.
    destruct (reserves impl rows); simpl; [|done].
    destruct rows as [|rows]; [lia|].
    cbn [ColumnIxJson.LoadBody_rows_on]. rewrite Hrd. cbv zeta.
    unfold ColumnIxJson.lacks_room. simpl. by rewrite Hg.
  - unfold ColumnIxJson.LoadBody_on.
    destruct (admits_size impl rows); simpl; [|by right; left].
    destruct (reserves impl rows); simpl; [|by right; right].
    destruct Hgen as (ok & rest & m' & c' & rs & tail & _ & E & _).
    destruct Hcases as [H|H]; rewrite H; [left; by rewrite E; eexists | by right; right].
  - intros H1 H2 Hg. rewrite (LoadBody_on_granted _ _ _ _ _ H1 H2 Hg). exact Hgen.
Qed.

Lemma LoadBody_total_witness :
  (∃ ok rest m' c' rs tail,
     wire_body [lit "ab"] ++ le_encode 8 5000 ++ lit "xy" = wire_body rs ++ tail
     ∧ ColumnIxJson.LoadBody_on one_gigabyte
         (wire_body [lit "ab"] ++ le_encode 8 5000 ++ lit "xy") 2 xyzw_memory xyzw_column
       = Ok (ok, rest, m', c')
     ∧ rows_of m' c' = Some rs
     ∧ col_wf m' c'
     ∧ if ok : bool then length rs = 2 ∧ rest = tail
       else length rs < 2 ∧ row_fails tail)
  ∧ ColumnIxJson.LoadBody_on one_gigabyte (lit "not a column body") 2
      xyzw_memory xyzw_column = Throw bad_alloc.
Proof.
  split.
  - apply (LoadBody_total one_gigabyte xyzw_memory xyzw_column
             (wire_body [lit "ab"] ++ le_encode 8 5000 ++ lit "xy") 2).
    + constructor.
    + reflexivity.
    + reflexivity.
    + repeat (constructor; [intros ?; reflexivity|]). constructor.
  - eapply (LoadBody_total one_gigabyte xyzw_memory xyzw_column (lit "not a column body") 2).
    + constructor.
    + reflexivity.
    + lia.
    + vm_compute. reflexivity.
    + cbn [grants one_gigabyte]. apply bool_decide_eq_false_2. lia.
Defined.

(** X10. What [LoadBody] has accepted, [SaveBody] writes back byte for
    byte: after a successful load the saved body followed by the unread
    rest of the stream is the stream that was loaded. *)
Theorem LoadBody_SaveBody_roundtrip (m : mem) (c : ColumnIxJson.t)
    (input rest : list byte) (rows : nat) (m' : mem) (c' : ColumnIxJson.t) :
  Forall (λ a, a < length m) (ColumnIxJson.append_data_ c) →
  ColumnIxJson.LoadBody input rows m c = Ok (true, rest, m', c') →
  ∃ wire, ColumnIxJson.SaveBody [] m' c' = Ok wire ∧ input = wire ++ rest.
Proof.
  intros Ha H.
  destruct (stream_rows rows input) as (rs & tail & -> & Hf & [<-|(k & -> & Hk)]).
  - destruct (LoadBody_complete m c rs tail Ha Hf) as (m1 & c1 & E & R & _).
    rewrite E in H. injection H as <- <- <-.
    exists (wire_body rs). split; [|done].
    unfold ColumnIxJson.SaveBody. rewrite SaveBody_items_eq.
    fold (rows_of m1 c1). by rewrite R.
  - destruct (LoadBody_truncated m c rs tail k Ha Hf Hk) as (m1 & c1 & E & _).
    rewrite E in H. discriminate.
Qed.

Lemma LoadBody_SaveBody_roundtrip_witness :
  ∃ wire,
    ColumnIxJson.SaveBody [] [Some (lit "abc" ++ replicate 4093 x00)]
      (ColumnIxJson.Make [StringView (Ptr 0 0) 2; StringView (Ptr 0 2) 1]
         [Block.Make 3 4096 0] []) = Ok wire
    ∧ wire_body [lit "ab"; lit "c"] ++ lit "rest" = wire ++ lit "rest".
Proof.
  apply (LoadBody_SaveBody_roundtrip [] ColumnIxJson.create
           (wire_body [lit "ab"; lit "c"] ++ lit "rest") (lit "rest") 2).
  - constructor.
  - vm_compute. reflexivity.
Defined.

(** ** [LoadBody] into a column that is in use *)

Lemma store_prefix m p bs m' base :
  store m p bs = Some m' → base ≤ p_base p → take base m' = take base m.
Proof.
  rewrite store_Some. intros (buf & _ & _ & ->) Hle. by apply take_insert_ge.
Qed.

Lemma ReadBytes_inv input dst n m ok input' m' :
  ReadBytes input dst n m = Ok (ok, input', m') → ∃ bs, store m dst bs = Some m'.
Proof.
  unfold ReadBytes. case_decide as Hlen; intros Hrd;
    apply bind_Ok_inv in Hrd as (m1 & Hs & Hrd); apply or_UB_Ok_inv in Hs;
    injection Hrd as <- <- <-; eauto.
Qed.

(** The loop of [LoadBody] writes only to blocks of the column it fills. *)
Lemma LoadBody_rows_old_memory rows : ∀ input block m c ok input' m' c' base,
  block_ptr_ok c block → base ≤ length m →
  Forall (λ b, base ≤ Block.data_ b) (ColumnIxJson.blocks_ c) →
  ColumnIxJson.LoadBody_rows rows input block m c = Ok (ok, input', m', c') →
  take base m' = take base m
  ∧ ColumnIxJson.append_data_ c' = ColumnIxJson.append_data_ c.
Proof.
  induction rows as [|rows IH]; intros input block m c ok input' m' c' base Hp Hbase Hbl H.
  - by injection H as <- <- <- <-.
  - rewrite LoadBody_rows_S in H.
    destruct (ReadUInt64 input) as [[len|] input1]; [|by injection H as <- <- <- <-].
    rewrite (lacks_room_ptr _ _ _ Hp), lacks_room_back, Ok_bind in H.
    set (n := N.to_nat len) in *.
    assert (∃ block1 m1 c1 b1,
      (block1 = Some (ColumnIxJson.back_index c1)
       ∧ ColumnIxJson.blocks_ c1 !! ColumnIxJson.back_index c1 = Some b1
       ∧ Forall (λ b, base ≤ Block.data_ b) (ColumnIxJson.blocks_ c1)
       ∧ take base m1 = take base m ∧ base ≤ length m1
       ∧ ColumnIxJson.append_data_ c1 = ColumnIxJson.append_data_ c)
      ∧ (i ← or_UB block1;
         b ← or_UB (ColumnIxJson.blocks_ c1 !! i);
         '(ok, input2, m2) ← ReadBytes input1 (Block.GetCurrentWritePos b) n m1;
         if ok : bool then
           let '(v, b') := Block.ConsumeTailAsStringViewUnsafe n b in
           ColumnIxJson.LoadBody_rows rows input2 block1 m2
             (ColumnIxJson.push_item v (ColumnIxJson.set_block i b' c1))
         else mret (false, input2, m2, c1)) = Ok (ok, input', m', c'))
      as (block1 & m1 & c1 & b1 & (-> & Hb1 & Hbl1 & Hm1 & Hbase1 & Ha1) & H1).
    { assert (∀ cap,
        let c1 := ColumnIxJson.Make (ColumnIxJson.items_ c)
                    (ColumnIxJson.blocks_ c ++ [Block.Make 0 cap (length m)])
                    (ColumnIxJson.append_data_ c) in
        Some (length (ColumnIxJson.blocks_ c)) = Some (ColumnIxJson.back_index c1)
        ∧ ColumnIxJson.blocks_ c1 !! ColumnIxJson.back_index c1
          = Some (Block.Make 0 cap (length m))
        ∧ Forall (λ b, base ≤ Block.data_ b) (ColumnIxJson.blocks_ c1)
        ∧ take base (m ++ [Some (replicate cap x00)]) = take base m
        ∧ base ≤ length (m ++ [Some (replicate cap x00)])
        ∧ ColumnIxJson.append_data_ c1 = ColumnIxJson.append_data_ c) as Hnew.
      { intros cap. simpl. split_and!; [| apply back_snoc | | | | done].
        - unfold ColumnIxJson.back_index. simpl. rewrite length_app. simpl. f_equal. lia.
        - apply Forall_app. split; [done|]. by apply Forall_singleton.
        - by apply take_app_le.
        - rewrite length_app. lia. }
      destruct (ColumnIxJson.blocks_ c !! ColumnIxJson.back_index c) as [b|] eqn:Hb.
      - case_bool_decide as Hav.
        + rewrite emplace_block_eq in H. eexists _, _, _, _. split; [apply Hnew | exact H].
        + exists block, m, c, b. split; [|exact H].
          split_and!; try done. apply Hp. intros E. by rewrite E in Hb.
      - rewrite emplace_block_eq in H. eexists _, _, _, _. split; [apply Hnew | exact H]. }
    simpl in H1. rewrite Hb1 in H1. simpl in H1.
    apply bind_Ok_inv in H1 as ([[ok1 input2] m2] & Hrd & H1).
    apply ReadBytes_inv in Hrd as (bs & Hs).
    pose proof (Forall_lookup_1 _ _ _ _ Hbl1 Hb1) as Hge. simpl in Hge.
    pose proof (store_prefix _ _ _ _ base Hs Hge) as Hm2.
    pose proof (store_length _ _ _ _ Hs) as Hl2.
    destruct ok1; simpl in H1.
    + pose proof (lookup_lt_Some _ _ _ Hb1) as Hlt.
      apply IH with (base := base) in H1 as [Hm' Ha'].
      * split; [congruence|]. by rewrite Ha'.
      * intros _. unfold ColumnIxJson.back_index. simpl. by rewrite length_insert.
      * lia.
      * simpl. apply Forall_insert; [done|]. simpl. done.
    + injection H1 as <- <- <- <-. split; congruence.
Qed.

(** X11. [LoadBody] on a column that is in use, whether it then succeeds or
    fails: the arrays of the blocks the column had are released, so a view
    into one of them can no longer be read; nothing else that existed
    before the call is written to or released; and [append_data_] is
    kept, so the strings the column owns stay allocated. *)
Theorem LoadBody_discards_arena (m : mem) (c : ColumnIxJson.t) (input : list byte)
    (rows : nat) (ok : bool) (rest : list byte) (m' : mem) (c' : ColumnIxJson.t)
    (v : string_view) :
  ColumnIxJson.LoadBody input rows m c = Ok (ok, rest, m', c') →
  ColumnIxJson.append_data_ c' = ColumnIxJson.append_data_ c
  ∧ take (length m) m' = ColumnIxJson.release_blocks c m
  ∧ (p_base (sv_data v) < length m →
     sv_read m' v
     = if decide (p_base (sv_data v) ∈ Block.data_ <$> ColumnIxJson.blocks_ c)
       then None else sv_read m v).
Proof.
  rewrite LoadBody_eq. intros H.
  apply (LoadBody_rows_old_memory _ _ _ _ _ _ _ _ _ (length m)) in H as [Hm Ha].
  - assert (take (length m) m' = ColumnIxJson.release_blocks c m) as Hpre.
    { rewrite Hm. apply take_ge. unfold ColumnIxJson.release_blocks.
      by rewrite length_free_all. }
    split_and!; [done | done |]. intros Hlt.
    assert (cell m' (p_base (sv_data v))
            = cell (ColumnIxJson.release_blocks c m) (p_base (sv_data v))) as Hc.
    { rewrite <- Hpre. unfold cell. by rewrite lookup_take_lt. }
    unfold sv_read, load. rewrite Hc. unfold ColumnIxJson.release_blocks.
    rewrite cell_free_all. by case_decide.
  - by intros ?.
  - unfold ColumnIxJson.release_blocks. by rewrite length_free_all.
  - constructor.
Qed.

Lemma LoadBody_discards_arena_witness :
  ∃ ok rest m' c',
    ColumnIxJson.LoadBody (wire_body [lit "ab"]) 1 xyzw_memory xyzw_column
      = Ok (ok, rest, m', c')
    ∧ sv_read m' (StringView (Ptr 0 0) 1) = None.
Proof.
  assert (∃ r, ColumnIxJson.LoadBody (wire_body [lit "ab"]) 1 xyzw_memory xyzw_column
               = Ok r) as [[[[ok rest] m'] c'] E].
  { eexists. vm_compute. reflexivity. }
  exists ok, rest, m', c'. split; [exact E|].
  destruct (LoadBody_discards_arena _ _ _ _ _ _ _ _ (StringView (Ptr 0 0) 1) E)
    as (_ & _ & H).
  rewrite H; [reflexivity | simpl; lia].
Defined.

(** ** A load that fails *)

(** The rows that the loop of [LoadBody] adds lie in blocks of the column. *)
Lemma LoadBody_rows_blocks rows : ∀ input block m c ok input' m' c',
  block_ptr_ok c block →
  Forall (λ v, p_base (sv_data v) ∈ Block.data_ <$> ColumnIxJson.blocks_ c)
         (ColumnIxJson.items_ c) →
  ColumnIxJson.LoadBody_rows rows input block m c = Ok (ok, input', m', c') →
  Forall (λ v, p_base (sv_data v) ∈ Block.data_ <$> ColumnIxJson.blocks_ c')
         (ColumnIxJson.items_ c').
Proof.
  induction rows as [|rows IH]; intros input block m c ok input' m' c' Hp Hin H.
  - by injection H as <- <- <- <-.
  - rewrite LoadBody_rows_S in H.
    destruct (ReadUInt64 input) as [[len|] input1]; [|by injection H as <- <- <- <-].
    rewrite (lacks_room_ptr _ _ _ Hp), lacks_room_back, Ok_bind in H.
    set (n := N.to_nat len) in *.
    assert (∃ block1 m1 c1 b1,
      (block1 = Some (ColumnIxJson.back_index c1)
       ∧ ColumnIxJson.blocks_ c1 !! ColumnIxJson.back_index c1 = Some b1
       ∧ Forall (λ v, p_base (sv_data v) ∈ Block.data_ <$> ColumnIxJson.blocks_ c1)
                (ColumnIxJson.items_ c1))
      ∧ (i ← or_UB block1;
         b ← or_UB (ColumnIxJson.blocks_ c1 !! i);
         '(ok, input2, m2) ← ReadBytes input1 (Block.GetCurrentWritePos b) n m1;
         if ok : bool then
           let '(v, b') := Block.ConsumeTailAsStringViewUnsafe n b in
           ColumnIxJson.LoadBody_rows rows input2 block1 m2
             (ColumnIxJson.push_item v (ColumnIxJson.set_block i b' c1))
         else mret (false, input2, m2, c1)) = Ok (ok, input', m', c'))
      as (block1 & m1 & c1 & b1 & (-> & Hb1 & Hin1) & H1).
    { assert (∀ cap,
        let c1 := ColumnIxJson.Make (ColumnIxJson.items_ c)
                    (ColumnIxJson.blocks_ c ++ [Block.Make 0 cap (length m)])
                    (ColumnIxJson.append_data_ c) in
        Some (length (ColumnIxJson.blocks_ c)) = Some (ColumnIxJson.back_index c1)
        ∧ ColumnIxJson.blocks_ c1 !! ColumnIxJson.back_index c1
          = Some (Block.Make 0 cap (length m))
        ∧ Forall (λ v, p_base (sv_data v) ∈ Block.data_ <$> ColumnIxJson.blocks_ c1)
                 (ColumnIxJson.items_ c1)) as Hnew.
      { intros cap. simpl. split_and!; [| apply back_snoc |].
        - unfold ColumnIxJson.back_index. simpl. rewrite length_app. simpl. f_equal. lia.
        - eapply Forall_impl; [exact Hin|]. intros v Hv. simpl in Hv.
          rewrite fmap_app. apply elem_of_app. by left. }
      destruct (ColumnIxJson.blocks_ c !! ColumnIxJson.back_index c) as [b|] eqn:Hb.
      - case_bool_decide as Hav.
        + rewrite emplace_block_eq in H. eexists _, _, _, _. split; [apply Hnew | exact H].
        + exists block, m, c, b. split; [|exact H].
          split_and!; try done. apply Hp. intros E. by rewrite E in Hb.
      - rewrite emplace_block_eq in H. eexists _, _, _, _. split; [apply Hnew | exact H]. }
    simpl in H1. rewrite Hb1 in H1. simpl in H1.
    apply bind_Ok_inv in H1 as ([[ok1 input2] m2] & Hrd & H1).
    destruct ok1; simpl in H1.
    + pose proof (lookup_lt_Some _ _ _ Hb1) as Hlt.
      apply IH in H1; [done | |].
      * intros _. unfold ColumnIxJson.back_index. simpl. by rewrite length_insert.
      * cbn [ColumnIxJson.items_ ColumnIxJson.push_item ColumnIxJson.set_block
             ColumnIxJson.blocks_].
        rewrite list_fmap_insert. simpl.
        rewrite list_insert_id by (by rewrite list_lookup_fmap, Hb1).
        apply Forall_app. split; [done|]. apply Forall_singleton. simpl.
        apply list_elem_of_fmap. exists b1. split; [done|].
        by eapply list_elem_of_lookup_2.
    + by injection H1 as <- <- <- <-.
Qed.

(** C2, as the code has it.  When a read of a length prefix or of the
    bytes of a row fails before all rows are processed, on an implementation
    that admits the row count and serves what the call asks for, [LoadBody]
    returns failure and the column keeps the rows that were read completely
    before the failing one, in order, each in a block of the column that is
    live; it has no row only when the first row already fails, and no block
    only when not even the first length prefix could be read. *)
Theorem LoadBody_failure_keeps_rows (impl : Implementation) (m : mem)
    (c : ColumnIxJson.t) (rs : list bytes) (tail : list byte) (n : nat) :
  Forall (λ a, a < length m) (ColumnIxJson.append_data_ c) →
  Forall (λ s, fits_size_t (length s)) rs →
  row_fails tail →
  admits_size impl (length rs + S n) = true →
  reserves impl (length rs + S n) = true →
  Forall (grants_block impl) (announced (length rs + S n) (wire_body rs ++ tail)) →
  ∃ m' c',
    ColumnIxJson.LoadBody_on impl (wire_body rs ++ tail) (length rs + S n) m c
      = Ok (false, [], m', c')
    ∧ ColumnIxJson.Size c' = length rs
    ∧ rows_of m' c' = Some rs
    ∧ (ColumnIxJson.items_ c' = [] ↔ rs = [])
    ∧ col_wf m' c'
    ∧ Forall (λ v, p_base (sv_data v) ∈ Block.data_ <$> ColumnIxJson.blocks_ c')
             (ColumnIxJson.items_ c')
    ∧ (ColumnIxJson.blocks_ c' = [] ↔ rs = [] ∧ (ReadUInt64 tail).1 = None).
Proof.
  intros Ha Hf Hfail Hadm Hres Hg.
  rewrite (LoadBody_on_granted _ _ _ _ _ Hadm Hres Hg).
  destruct (LoadBody_truncated m c rs tail n Ha Hf Hfail) as (m' & c' & E & R & W & Hblk).
  exists m', c'. pose proof (rows_of_Size _ _ _ R) as Hsz.
  assert (ColumnIxJson.items_ c' = [] ↔ rs = []) as Hitems.
  { unfold ColumnIxJson.Size in Hsz.
    split; intros H; apply length_zero_iff_nil; apply (f_equal length) in H;
      simpl in H; lia. }
  assert (Forall (λ v, p_base (sv_data v) ∈ Block.data_ <$> ColumnIxJson.blocks_ c')
            (ColumnIxJson.items_ c')) as Hin.
  { pose proof E as E'. rewrite LoadBody_eq in E'.
    eapply LoadBody_rows_blocks; [| |exact E']; [by intros ? | constructor]. }
  split_and!; [done | done | done | done | done | done |].
  split.
  - intros Hnil. split.
    + apply Hitems. destruct (ColumnIxJson.items_ c') as [|v l]; [done|].
      apply Forall_cons_1 in Hin as [Hv _]. rewrite Hnil in Hv. by apply elem_of_nil in Hv.
    + destruct (ReadUInt64 tail) as [[len|] rest] eqn:Hrd; [|done].
      by destruct (Hblk len rest eq_refl).
  - intros [-> Hnone]. simpl in E. rewrite LoadBody_eq, LoadBody_rows_S in E.
    destruct (ReadUInt64 tail) as [[len|] rest]; [done|].
    by injection E as _ _ <-.
Qed.

Lemma LoadBody_failure_keeps_rows_witness :
  ∃ m' c',
    ColumnIxJson.LoadBody_on one_gigabyte
        (wire_body [lit "ab"; lit "c"] ++ le_encode 8 5000 ++ lit "xy") (2 + 1)
        [] ColumnIxJson.create
      = Ok (false, [], m', c')
    ∧ ColumnIxJson.Size c' = 2
    ∧ rows_of m' c' = Some [lit "ab"; lit "c"]
    ∧ ColumnIxJson.blocks_ c' = [Block.Make 3 4096 0; Block.Make 0 5000 1].
Proof.
  destruct (LoadBody_failure_keeps_rows one_gigabyte [] ColumnIxJson.create
              [lit "ab"; lit "c"] (le_encode 8 5000 ++ lit "xy") 0)
    as (m' & c' & E & Hs & R & _).
  - constructor.
  - repeat constructor.
  - vm_compute. lia.
  - reflexivity.
  - reflexivity.
  - repeat (constructor; [intros ?; reflexivity|]). constructor.
  - exists m', c'. split_and!; [exact E | exact Hs | exact R |].
    assert (∀ r, ColumnIxJson.LoadBody_on one_gigabyte
                   (wire_body [lit "ab"; lit "c"] ++ le_encode 8 5000 ++ lit "xy") (2 + 1)
                   [] ColumnIxJson.create = Ok r →
                 ColumnIxJson.blocks_ r.2 = [Block.Make 3 4096 0; Block.Make 0 5000 1])
      as Hb.
    { intros r. vm_compute. by intros [= <-]. }
    exact (Hb _ E).
Defined.

(** ** [Slice] copies into one block *)

(** With room in the current block, [Append] is [AppendUnsafe]. *)
Lemma Append_in_place v m c b :
  ColumnIxJson.blocks_ c !! ColumnIxJson.back_index c = Some b →
  block_ok m b →
  sv_size v ≤ Block.capacity b - Block.size b →
  ColumnIxJson.Append v m c = ColumnIxJson.AppendUnsafe v m c.
Proof.
  intros Hb Hok Hroom. unfold ColumnIxJson.Append, ColumnIxJson.AppendUnsafe.
  rewrite lacks_room_back, Ok_bind, Hb, (block_ok_available _ _ Hok).
  by rewrite bool_decide_false by lia.
Qed.

(** The loop of [Slice] on a block that has room for all the rows it is to
    copy never opens another block. *)
Lemma Slice_rows_in_place items : ∀ count i m r b added,
  col_wf m r →
  ColumnIxJson.blocks_ r !! ColumnIxJson.back_index r = Some b →
  i + count ≤ length items →
  sum_list_with sv_size (take count (drop i items)) ≤ Block.capacity b - Block.size b →
  Forall2 (stable m r) (take count (drop i items)) added →
  ColumnIxJson.Slice_rows count i items m r
  = ColumnIxJson.AppendUnsafe_each (take count (drop i items)) m r.
Proof.
  induction count as [|count IH]; intros i m r b added Hwf Hback Hrange Hroom Hst; [done|].
  destruct (lookup_lt_is_Some_2 items i) as [v Hv]; [lia|].
  rewrite (drop_S _ _ _ Hv) in Hroom, Hst |- *. cbn [take] in Hroom, Hst |- *.
  apply Forall2_cons_inv_l in Hst as (bs & added' & [Hr Hm] & Hst & ->).
  simpl in Hroom.
  cbn [ColumnIxJson.Slice_rows ColumnIxJson.AppendUnsafe_each]. rewrite Hv. simpl.
  rewrite (Append_in_place v m r b Hback); [| |lia].
  2:{ destruct Hwf as [Hwf _]. by eapply Forall_lookup_1. }
  destruct (back_AppendUnsafe_ok m r b v bs Hwf Hback Hr Hm) as (m1 & E1 & W1 & S1 & F1);
    [lia|].
  simpl in E1. unfold ColumnIxJson.AppendUnsafe. rewrite E1. simpl.
  pose proof (lookup_lt_Some _ _ _ Hback) as Hlt.
  eapply (IH _ _ _ (Block.Make (Block.size b + sv_size v) (Block.capacity b) (Block.data_ b))
            added').
  - split; apply W1.
  - unfold ColumnIxJson.back_index. simpl. rewrite length_insert.
    by apply list_lookup_insert_eq.
  - lia.
  - simpl. lia.
  - eapply Forall2_impl; [exact Hst|]. intros u x Hu.
    destruct F1 as [_ F1]. destruct (F1 u x Hu). by split.
Qed.

(** [AppendUnsafe] writes to the array of the current block only. *)
Lemma AppendUnsafe_each_old_memory data : ∀ m c m' c' b base,
  ColumnIxJson.AppendUnsafe_each data m c = Ok (m', c') →
  ColumnIxJson.blocks_ c !! ColumnIxJson.back_index c = Some b →
  base ≤ Block.data_ b →
  take base m' = take base m.
Proof.
  induction data as [|v data IH]; intros m c m' c' b base H Hback Hbase.
  - by injection H as <- <-.
  - cbn [ColumnIxJson.AppendUnsafe_each] in H.
    apply bind_Ok_inv in H as ([m1 c1] & H1 & H).
    unfold ColumnIxJson.AppendUnsafe in H1.
    apply bind_Ok_inv in H1 as ([[v1 m2] c2] & H1 & H2). injection H2 as <- <-.
    apply back_AppendUnsafe_inv in H1 as (b' & bs & Hb' & _ & Hs & -> & ->).
    rewrite Hback in Hb'. injection Hb' as <-.
    pose proof (lookup_lt_Some _ _ _ Hback) as Hlt.
    rewrite <- (store_prefix _ _ _ _ base Hs) by done.
    eapply IH; [exact H| |].
    + unfold ColumnIxJson.back_index. simpl. rewrite length_insert.
      by apply list_lookup_insert_eq.
    + done.
Qed.

(** X12. [Slice] of rows whose sizes add up to a [size_t] value makes
    one allocation: the result has exactly one block, as large as the
    copied rows together and full, and owns no string; nothing that was
    allocated before the call is written to. *)
Theorem Slice_one_block (m : mem) (c : ColumnIxJson.t) (begin len : nat) (rs : list bytes) :
  rows_of m c = Some rs → begin < length rs →
  fits_size_t (sum_list_with length (take len (drop begin rs))) →
  ∃ m' r,
    ColumnIxJson.Slice begin len m c = Ok (m', r)
    ∧ rows_of m' r = Some (take len (drop begin rs))
    ∧ ColumnIxJson.blocks_ r
      = [Block.Make (sum_list_with length (take len (drop begin rs)))
                    (sum_list_with length (take len (drop begin rs))) (length m)]
    ∧ ColumnIxJson.append_data_ r = []
    ∧ length m' = S (length m)
    ∧ take (length m) m' = m.
Proof.
  intros Hrows Hb Hfit. pose proof (rows_of_Size _ _ _ Hrows) as Hn.
  unfold ColumnIxJson.Size in Hn. apply rows_of_Some in Hrows.
  set (sel := take len (drop begin rs)) in *.
  set (vs := take len (drop begin (ColumnIxJson.items_ c))).
  assert (Forall2 (λ v bs, sv_read m v = Some bs) vs sel) as Hsel
    by (by apply Forall2_take, Forall2_drop).
  assert (sum_list_with sv_size vs = sum_list_with length sel) as Hsz.
  { clear Hfit. induction Hsel as [|v bs l1 l2 Hv _ IH]; [done|]. simpl.
    by rewrite IH, (load_length _ _ _ _ Hv). }
  unfold ColumnIxJson.Slice. rewrite Hn, decide_True by done.
  set (n := len `min` (length rs - begin)).
  assert (take n (drop begin (ColumnIxJson.items_ c)) = vs) as Etake.
  { unfold n, vs. rewrite <- Hn, <- (length_drop (ColumnIxJson.items_ c) begin).
    apply take_min_length. }
  rewrite ComputeTotalSize_mod, Nat2N.id, Etake, Hsz, wrap_size_t_small by done.
  rewrite emplace_block_eq. simpl.
  set (T := sum_list_with length sel) in *.
  set (m1 := m ++ [Some (replicate T x00)]).
  set (r1 := ColumnIxJson.Make [] [Block.Make 0 T (length m)] []).
  assert (col_wf m1 r1) as W1.
  { split; [|constructor]. apply Forall_singleton. unfold block_ok. simpl.
    unfold m1. rewrite cell_app_new. split; [apply length_replicate | lia]. }
  assert (Forall2 (stable m1 r1) vs sel) as Hst.
  { eapply Forall2_impl; [exact Hsel|]. intros v bs Hv. split.
    - unfold m1. by apply load_alloc.
    - unfold below_mark. simpl. intros Eq. apply load_lt in Hv. lia. }
  rewrite (Slice_rows_in_place _ n begin m1 r1 (Block.Make 0 T (length m)) sel), Etake;
    [|done|done|unfold n; lia|rewrite Etake; simpl; lia|by rewrite Etake].
  destruct (AppendUnsafe_each_ok vs m1 r1 (Block.Make 0 T (length m)) sel W1)
    as (m2 & r2 & ws & E & W2 & I2 & S2 & _ & L2 & B2 & A2); [done|simpl; lia|done|].
  exists m2, r2. simpl in I2, B2. split_and!; [done| | | done | |].
  - apply stable_rows_of. by rewrite I2.
  - rewrite B2. simpl. by rewrite Hsz.
  - rewrite L2. unfold m1. rewrite length_app. simpl. lia.
  - rewrite (AppendUnsafe_each_old_memory _ _ _ _ _ (Block.Make 0 T (length m))
               (length m) E); [|done|done].
    unfold m1. by rewrite take_app_length.
Qed.

Lemma Slice_one_block_witness :
  ∃ m' r,
    ColumnIxJson.Slice 1 2 xyzw_memory xyzw_column = Ok (m', r)
    ∧ rows_of m' r = Some [lit "y"; lit "z"]
    ∧ ColumnIxJson.blocks_ r = [Block.Make 2 2 1]
    ∧ ColumnIxJson.append_data_ r = []
    ∧ length m' = 2
    ∧ take 1 m' = xyzw_memory.
Proof.
  apply (Slice_one_block xyzw_memory xyzw_column 1 2 [lit "x"; lit "y"; lit "z"; lit "w"]).
  - reflexivity.
  - simpl. lia.
  - vm_compute. reflexivity.
Defined.

(** ** What the append family leaves alone *)

Lemma keeps_refl c m : keeps c m m.
Proof. intros a buf H. by exists buf. Qed.

Lemma back_advances_refl m c : back_advances m c c.
Proof. intros b Hb. right. by exists b. Qed.

Lemma keeps_trans c m c1 m1 m2 :
  keeps c m m1 → back_advances m c c1 → keeps c1 m1 m2 → keeps c m m2.
Proof.
  intros K1 B K2 a buf Ha.
  destruct (K1 a buf Ha) as (buf1 & Ha1 & L1 & T1).
  destruct (K2 a buf1 Ha1) as (buf2 & Ha2 & L2 & T2).
  exists buf2. split_and!; [done | congruence |].
  intros k Hk. rewrite T2, T1; [done | done |].
  intros b1 Hb1 E1. destruct (B b1 Hb1) as [Hnew|(b & Hb & Ed & Hs)].
  - apply cell_lt in Ha. lia.
  - specialize (Hk b Hb). lia.
Qed.

Lemma back_advances_trans m c m1 c1 c2 :
  back_advances m c c1 → length m ≤ length m1 → back_advances m1 c1 c2 →
  back_advances m c c2.
Proof.
  intros B1 Hl B2 b2 Hb2. destruct (B2 b2 Hb2) as [Hnew|(b1 & Hb1 & Ed & Hs)].
  - left. lia.
  - destruct (B1 b1 Hb1) as [Hnew|(b & Hb & Ed' & Hs')].
    + left. lia.
    + right. exists b. split_and!; [done | congruence | lia].
Qed.

Lemma keeps_alloc c m l : keeps c m (m ++ l).
Proof.
  intros a buf Ha. exists buf. rewrite cell_app by (by eapply cell_lt). done.
Qed.

(** A write at the write mark of the current block. *)
Lemma keeps_store c m b bs m' :
  ColumnIxJson.blocks_ c !! ColumnIxJson.back_index c = Some b →
  store m (Ptr (Block.data_ b) (Block.size b)) bs = Some m' →
  keeps c m m'.
Proof.
  intros Hback Hs a buf Ha.
  destruct (decide (a = Block.data_ b)) as [->|Hne].
  - apply store_Some in Hs as (buf0 & Hc & Hle & ->). simpl in *.
    rewrite Ha in Hc. injection Hc as <-.
    rewrite cell_insert by (by eapply cell_lt). rewrite decide_True by done.
    eexists. split_and!; [done | |].
    + rewrite !length_app, length_take, length_drop. lia.
    + intros k Hk. specialize (Hk b Hback eq_refl).
      rewrite take_app_le by (rewrite length_take; lia).
      rewrite take_take. f_equal. lia.
  - exists buf. by rewrite (store_cell _ _ _ _ _ Hs Hne).
Qed.

Lemma back_AppendUnsafe_frame v m c v' m' c' :
  ColumnIxJson.back_AppendUnsafe v m c = Ok (v', m', c') →
  length m' = length m ∧ keeps c m m'
  ∧ ∃ b, ColumnIxJson.blocks_ c !! ColumnIxJson.back_index c = Some b
         ∧ ColumnIxJson.blocks_ c' !! ColumnIxJson.back_index c'
           = Some (Block.Make (Block.size b + sv_size v) (Block.capacity b) (Block.data_ b)).
Proof.
  intros H. apply back_AppendUnsafe_inv in H as (b & bs & Hb & _ & Hs & -> & ->).
  split_and!; [by eapply store_length | by eapply keeps_store |].
  exists b. split; [done|]. pose proof (lookup_lt_Some _ _ _ Hb) as Hlt.
  unfold ColumnIxJson.back_index. simpl. rewrite length_insert.
  by apply list_lookup_insert_eq.
Qed.

Lemma Append_frame v m c m' c' :
  ColumnIxJson.Append v m c = Ok (m', c') →
  length m ≤ length m' ∧ back_advances m c c' ∧ keeps c m m'.
Proof.
  unfold ColumnIxJson.Append. rewrite lacks_room_back, Ok_bind. intros H.
  assert (ColumnIxJson.back_AppendUnsafe v m c
            ≫= (λ '(v0, m2, c2), mret (m2, ColumnIxJson.push_item v0 c2)) = Ok (m', c') →
          length m ≤ length m' ∧ back_advances m c c' ∧ keeps c m m') as Hstay.
  { intros H1. apply bind_Ok_inv in H1 as ([[v1 m2] c2] & H1 & H2). injection H2 as <- <-.
    apply back_AppendUnsafe_frame in H1 as (L & K & b & Hb & Hb').
    split_and!; [lia | | done].
    intros b' Hb2. right. exists b. split; [done|].
    change (ColumnIxJson.blocks_ c2 !! ColumnIxJson.back_index c2 = Some b') in Hb2.
    rewrite Hb' in Hb2. injection Hb2 as <-. simpl. split; [done | lia]. }
  assert (∀ m1 c1,
    ColumnIxJson.emplace_block (DEFAULT_BLOCK_SIZE `max` sv_size v) m c = (m1, c1) →
    ColumnIxJson.back_AppendUnsafe v m1 c1
      ≫= (λ '(v0, m2, c2), mret (m2, ColumnIxJson.push_item v0 c2)) = Ok (m', c') →
    length m ≤ length m' ∧ back_advances m c c' ∧ keeps c m m') as Hgrow.
  { intros m1 c1 Hgo H1. rewrite emplace_block_eq in Hgo. injection Hgo as <- <-.
    apply bind_Ok_inv in H1 as ([[v1 m2] c2] & H1 & H2). injection H2 as <- <-.
    apply back_AppendUnsafe_frame in H1 as (L & K & b & Hb & Hb').
    rewrite back_snoc in Hb. injection Hb as <-. simpl in Hb'.
    rewrite length_app in L. simpl in L.
    assert (back_advances m c c2) as B.
    { intros b' Hb2. rewrite Hb' in Hb2. injection Hb2 as <-. left. simpl. lia. }
    split_and!; [lia | exact B |].
    eapply keeps_trans; [apply keeps_alloc | | exact K].
    intros b' Hb2. rewrite back_snoc in Hb2. injection Hb2 as <-. left. simpl. lia. }
  destruct (ColumnIxJson.blocks_ c !! ColumnIxJson.back_index c) as [b|] eqn:Hb.
  - case_bool_decide as Hav.
    + destruct (ColumnIxJson.emplace_block _ m c) as [m1 c1] eqn:Hgo. by eapply Hgrow.
    + by apply Hstay.
  - destruct (ColumnIxJson.emplace_block _ m c) as [m1 c1] eqn:Hgo. by eapply Hgrow.
Qed.

Lemma run_call_frame a m c m' c' :
  run_call a m c = Ok (m', c') →
  length m ≤ length m' ∧ back_advances m c c' ∧ keeps c m m'.
Proof.
  destruct a as [str|str|s|str]; simpl.
  - apply Append_frame.
  - unfold ColumnIxJson.Append_cstr. intros H.
    apply bind_Ok_inv in H as (n & _ & H). by apply Append_frame in H.
  - unfold ColumnIxJson.Append_move. simpl. intros [= <- <-].
    split_and!; [rewrite length_app; lia | | apply keeps_alloc].
    intros b Hb. right. by exists b.
  - unfold ColumnIxJson.AppendNoManagedLifetime. intros [= <- <-].
    split_and!; [done | | apply keeps_refl].
    intros b Hb. right. by exists b.
Qed.

Lemma run_calls_frame calls : ∀ m c m' c',
  run_calls calls m c = Ok (m', c') →
  length m ≤ length m' ∧ back_advances m c c' ∧ keeps c m m'.
Proof.
  induction calls as [|a calls IH]; intros m c m' c' H.
  - injection H as <- <-.
    split_and!; [done | apply back_advances_refl | apply keeps_refl].
  - cbn [run_calls] in H. apply bind_Ok_inv in H as ([m1 c1] & H1 & H).
    apply run_call_frame in H1 as (L1 & B1 & K1).
    apply IH in H as (L2 & B2 & K2).
    split_and!; [lia | by eapply back_advances_trans | by eapply keeps_trans].
Qed.

(** X13. Whatever calls of the append family a column has run, every
    allocation that was live before them is still live and as long as it
    was, and its contents are what they were: the appends release nothing and
    write to nothing but the array of the block that was current when they
    began, and in that array only above its write mark. *)
Theorem appends_leave_memory_alone (calls : list AppendCall) (m : mem)
    (c : ColumnIxJson.t) (m' : mem) (c' : ColumnIxJson.t) (a : addr) (buf : bytes) :
  run_calls calls m c = Ok (m', c') →
  cell m a = Some buf →
  ∃ buf',
    cell m' a = Some buf' ∧ length buf' = length buf
    ∧ match ColumnIxJson.blocks_ c !! ColumnIxJson.back_index c with
      | Some b =>
        if decide (Block.data_ b = a)
        then take (Block.size b) buf' = take (Block.size b) buf
        else buf' = buf
      | None => buf' = buf
      end.
Proof.
  intros H Ha. apply run_calls_frame in H as (_ & _ & K).
  destruct (K a buf Ha) as (buf' & Ha' & L & T).
  exists buf'. split_and!; [done | done |].
  assert ((∀ b, ColumnIxJson.blocks_ c !! ColumnIxJson.back_index c = Some b →
                Block.data_ b ≠ a) → buf' = buf) as Hother.
  { intros Hne. pose proof (T (length buf)) as Hk. rewrite !take_ge in Hk by lia.
    apply Hk. intros b Hb E. by destruct (Hne b Hb). }
  destruct (ColumnIxJson.blocks_ c !! ColumnIxJson.back_index c) as [b|] eqn:Hb.
  - case_decide as E.
    + apply T. intros b0 [= <-] _. done.
    + apply Hother. by intros b0 [= <-].
  - by apply Hother.
Qed.

Lemma appends_leave_memory_alone_witness :
  ∃ m' c',
    run_calls sample_calls sample_memory ColumnIxJson.create = Ok (m', c')
    ∧ cell m' 2 = Some (lit "json:{x:1}" ++ [x00]).
Proof.
  assert (∃ r, run_calls sample_calls sample_memory ColumnIxJson.create = Ok r)
    as [[m' c'] E].
  { eexists. vm_compute. reflexivity. }
  exists m', c'. split; [exact E|].
  destruct (appends_leave_memory_alone _ _ _ _ _ 2 (lit "json:{x:1}" ++ [x00]) E eq_refl)
    as (buf' & Hc & _ & Hb).
  simpl in Hb. by rewrite Hc, Hb.
Defined.

(** ** The one reservation of [Append(ColumnRef)] *)

Lemma AppendUnsafe_shape v m c m' c' :
  ColumnIxJson.AppendUnsafe v m c = Ok (m', c') →
  length m' = length m
  ∧ Block.data_ <$> ColumnIxJson.blocks_ c' = Block.data_ <$> ColumnIxJson.blocks_ c
  ∧ Block.capacity <$> ColumnIxJson.blocks_ c' = Block.capacity <$> ColumnIxJson.blocks_ c
  ∧ ColumnIxJson.append_data_ c' = ColumnIxJson.append_data_ c.
Proof.
  unfold ColumnIxJson.AppendUnsafe. intros H.
  apply bind_Ok_inv in H as ([[v1 m2] c2] & H1 & H). injection H as <- <-.
  apply back_AppendUnsafe_inv in H1 as (b & bs & Hb & _ & Hs & -> & ->). simpl.
  split_and!; [by eapply store_length | | | done].
  - rewrite list_fmap_insert. apply list_insert_id. by rewrite list_lookup_fmap, Hb.
  - rewrite list_fmap_insert. apply list_insert_id. by rewrite list_lookup_fmap, Hb.
Qed.

(** The loop of [Append(ColumnRef)] allocates nothing and touches no object
    but the receiver, also when the source is the receiver. *)
Lemma Append_column_rows_shape (this col : ColumnRef) :
  ∀ fuel i w w' A,
    objects w !! this = Some (IxJson A) →
    Append_column_rows fuel this col i w = Ok w' →
    ∃ A', objects w' !! this = Some (IxJson A')
          ∧ length (memory w') = length (memory w)
          ∧ Block.data_ <$> ColumnIxJson.blocks_ A' = Block.data_ <$> ColumnIxJson.blocks_ A
          ∧ Block.capacity <$> ColumnIxJson.blocks_ A'
            = Block.capacity <$> ColumnIxJson.blocks_ A
          ∧ ColumnIxJson.append_data_ A' = ColumnIxJson.append_data_ A
          ∧ (∀ r, r ≠ this → objects w' !! r = objects w !! r).
Proof.
  induction fuel as [|fuel IH]; intros i w w' A Hthis H; [done|].
  cbn [Append_column_rows] in H. apply bind_Ok_inv in H as (source & _ & H).
  case_decide as Hlt.
  - apply bind_Ok_inv in H as (v & _ & H).
    apply bind_Ok_inv in H as (w1 & H1 & H).
    apply on_object_inv in H1 as (A0 & m1 & c1 & HA0 & Hf & ->).
    rewrite Hthis in HA0. injection HA0 as <-.
    apply AppendUnsafe_shape in Hf as (L1 & D1 & C1 & P1).
    pose proof (lookup_lt_Some _ _ _ Hthis) as Hin.
    destruct (IH (S i) (MkWorld m1 (<[this:=IxJson c1]> (objects w))) w' c1)
      as (A' & HA' & L & D & C & P & O); [|exact H|].
    + simpl. by apply list_lookup_insert_eq.
    + exists A'. simpl in L, O. split_and!; [done | congruence.. |].
      intros r Hr. rewrite (O r Hr). by apply list_lookup_insert_ne.
  - injection H as <-. exists A. by split_and!.
Qed.

(** X14. Whenever [Append(ColumnRef)] of a string column returns, the
    receiver has got at most one new block, of capacity [max(4096, total)],
    and only when it had no block or its current block had less than the
    total size of the source left; no other allocation is made, the blocks
    it had keep their arrays and capacities, the strings it owns are the
    same, and every other object is as it was. *)
Theorem Append_column_one_reservation (fuel : nat) (this col : ColumnRef) (w w' : World)
    (A B : ColumnIxJson.t) :
  objects w !! this = Some (IxJson A) →
  objects w !! col = Some (IxJson B) →
  Append_column fuel this col w = Ok w' →
  let total_size := ComputeTotalSize sv_size (ColumnIxJson.items_ B) 0 SIZE_MAX in
  let grow := match ColumnIxJson.blocks_ A !! ColumnIxJson.back_index A with
              | Some b => bool_decide (Block.GetAvailable b < total_size)
              | None => true
              end in
  ∃ A',
    objects w' !! this = Some (IxJson A')
    ∧ length (memory w') = length (memory w) + (if grow then 1 else 0)
    ∧ Block.data_ <$> ColumnIxJson.blocks_ A'
      = (Block.data_ <$> ColumnIxJson.blocks_ A)
        ++ (if grow then [length (memory w)] else [])
    ∧ Block.capacity <$> ColumnIxJson.blocks_ A'
      = (Block.capacity <$> ColumnIxJson.blocks_ A)
        ++ (if grow then [DEFAULT_BLOCK_SIZE `max` total_size] else [])
    ∧ ColumnIxJson.append_data_ A' = ColumnIxJson.append_data_ A
    ∧ (∀ r, r ≠ this → objects w' !! r = objects w !! r).
Proof.
  intros Hthis Hcol H. simpl.
  pose proof (lookup_lt_Some _ _ _ Hthis) as Hlt.
  destruct (Append_column_prelude fuel this col w A B Hthis Hcol) as (m1 & c1 & Hgo & E).
  rewrite E in H. clear E.
  destruct (Append_column_rows_shape this col fuel 0
              (MkWorld m1 (<[this:=IxJson c1]> (objects w))) w' c1)
    as (A' & HA' & L & D & C & P & O); [|exact H|].
  { simpl. by apply list_lookup_insert_eq. }
  simpl in L, O. exists A'. split; [done|].
  assert (∀ r, r ≠ this → objects w' !! r = objects w !! r) as O'.
  { intros r Hr. rewrite (O r Hr). by apply list_lookup_insert_ne. }
  rewrite L, D, C, P.
  match type of Hgo with (if ?g then _ else _) = _ => destruct g end.
  - rewrite emplace_block_eq in Hgo. injection Hgo as <- <-. simpl.
    rewrite length_app, !fmap_app. simpl. by split_and!.
  - injection Hgo as <- <-. rewrite !app_nil_r. split_and!; [lia | done..].
Qed.

Lemma Append_column_one_reservation_witness :
  ∃ w' A',
    Append_column 3 1 3 sample_world = Ok w'
    ∧ objects w' !! 1 = Some (IxJson A')
    ∧ length (memory w') = 2
    ∧ Block.data_ <$> ColumnIxJson.blocks_ A' = [0]
    ∧ objects w' !! 3 = objects sample_world !! 3.
Proof.
  assert (∃ w', Append_column 3 1 3 sample_world = Ok w') as [w' E].
  { eexists. vm_compute. reflexivity. }
  destruct (Append_column_one_reservation 3 1 3 sample_world w' _ _ eq_refl eq_refl E)
    as (A' & H1 & H2 & H3 & _ & _ & H6).
  exists w', A'. split_and!; [exact E | exact H1 | exact H2 | exact H3 |].
  apply H6. lia.
Defined.

(** ** Copying and borrowing *)

Lemma sv_read_free m a v :
  sv_read (free a m) v = if decide (a = p_base (sv_data v)) then None else sv_read m v.
Proof. unfold sv_read, load. rewrite cell_free. by case_decide. Qed.

(** X15. [Append(std::string_view)] copies and [AppendNoManagedLifetime]
    borrows: for a readable string in a buffer that is not one of the
    column's blocks, the row added by [Append] still reads the string after
    the buffer has been released, while the row added by
    [AppendNoManagedLifetime] is the caller's view itself, memory is not
    touched, and the row cannot be read once the buffer is gone. *)
Theorem Append_copies_NoManagedLifetime_borrows (m : mem) (c : ColumnIxJson.t)
    (str : string_view) (bs : bytes) :
  col_wf m c → sv_read m str = Some bs →
  p_base (sv_data str) ∉ Block.data_ <$> ColumnIxJson.blocks_ c →
  (∃ m' c' v',
     ColumnIxJson.Append str m c = Ok (m', c')
     ∧ ColumnIxJson.items_ c' = ColumnIxJson.items_ c ++ [v']
     ∧ p_base (sv_data v') ≠ p_base (sv_data str)
     ∧ sv_read (free (p_base (sv_data str)) m') v' = Some bs)
  ∧ ColumnIxJson.AppendNoManagedLifetime str m c
    = Ok (m, ColumnIxJson.Make (ColumnIxJson.items_ c ++ [str]) (ColumnIxJson.blocks_ c)
               (ColumnIxJson.append_data_ c))
  ∧ sv_read (free (p_base (sv_data str)) m) str = None.
Proof.
  intros Hwf Hr Hout. split_and!.
  - assert (below_mark c str) as Hbelow.
    { unfold below_mark.
      destruct (ColumnIxJson.blocks_ c !! ColumnIxJson.back_index c) as [b|] eqn:Hb; [|done].
      intros Eb. destruct Hout. rewrite Eb. apply list_elem_of_fmap. exists b.
      split; [done|]. by eapply list_elem_of_lookup_2. }
    destruct (Append_ok m c str bs Hwf Hr Hbelow)
      as (m' & c' & v' & E & I & _ & _ & [S _] & _).
    destruct (Append_inv _ _ _ _ _ E) as (v1 & I1 & _ & Hin & Haddr).
    rewrite I in I1. apply app_inj_tail in I1 as [_ <-].
    assert (p_base (sv_data v') ≠ p_base (sv_data str)) as Hne.
    { intros Eq. rewrite Eq in Hin. destruct Haddr as [Ha|Ha]; rewrite Ha in Hin; [done|].
      apply elem_of_app in Hin as [Hin|Hin]; [done|].
      apply list_elem_of_singleton in Hin. apply load_lt in Hr. lia. }
    exists m', c', v'. split_and!; [done | done | done |].
    rewrite sv_read_free. by rewrite decide_False.
  - done.
  - rewrite sv_read_free. by rewrite decide_True.
Qed.

Lemma Append_copies_NoManagedLifetime_borrows_witness :
  (∃ m' c' v',
     ColumnIxJson.Append (StringView (Ptr 0 0) 1) sample_memory ColumnIxJson.create
       = Ok (m', c')
     ∧ ColumnIxJson.items_ c' = [] ++ [v']
     ∧ p_base (sv_data v') ≠ 0
     ∧ sv_read (free 0 m') v' = Some (lit "a"))
  ∧ ColumnIxJson.AppendNoManagedLifetime (StringView (Ptr 0 0) 1) sample_memory
      ColumnIxJson.create
    = Ok (sample_memory, ColumnIxJson.Make ([] ++ [StringView (Ptr 0 0) 1]) [] [])
  ∧ sv_read (free 0 sample_memory) (StringView (Ptr 0 0) 1) = None.
Proof.
  apply (Append_copies_NoManagedLifetime_borrows sample_memory ColumnIxJson.create
           (StringView (Ptr 0 0) 1) (lit "a")).
  - split; constructor.
  - reflexivity.
  - simpl. apply not_elem_of_nil.
Defined.

(** ** [Append] of a C string *)

Lemma find_nul_Some l : ∀ n,
  find_nul l = Some n →
  ∃ bs rest, l = bs ++ x00 :: rest ∧ (x00 ∉ bs) ∧ length bs = n.
Proof.
  induction l as [|b l IH]; intros n H; [done|].
  cbn [find_nul] in H. destruct (decide (b = x00)) as [->|Hb].
  - injection H as <-. exists [], l. split_and!; [done | apply not_elem_of_nil | done].
  - destruct (find_nul l) as [k|] eqn:Hk; [|done]. injection H as <-.
    destruct (IH k eq_refl) as (bs & rest & -> & Hn & <-).
    exists (b :: bs), rest. split_and!; [done | | done].
    apply not_elem_of_cons. split; [congruence | done].
Qed.

Lemma find_nul_None l : find_nul l = None → x00 ∉ l.
Proof.
  induction l as [|b l IH]; intros H; [apply not_elem_of_nil|].
  cbn [find_nul] in H. destruct (decide (b = x00)) as [->|Hb]; [done|].
  destruct (find_nul l) as [k|] eqn:Hk; [done|].
  apply not_elem_of_cons. split; [congruence | by apply IH].
Qed.

(** X16. [Append] of a [const char*] on a well-formed column, the pointer
    being into a buffer other than the array of the column's current block.
    When there is a zero byte between the pointer and the end of its buffer,
    the call returns and the row it adds reads the bytes before the first
    zero byte, none of which is zero.  When there is none, or the buffer is
    gone, the scan for the terminator leaves the buffer and the call is
    undefined. *)
Theorem Append_cstr_reads_to_first_nul (m : mem) (c : ColumnIxJson.t) (str : ptr) :
  col_wf m c →
  (∀ b, ColumnIxJson.blocks_ c !! ColumnIxJson.back_index c = Some b →
        Block.data_ b ≠ p_base str) →
  match strlen m str with
  | Some n =>
    ∃ bs m' c' v',
      length bs = n ∧ (x00 ∉ bs)
      ∧ load m str (S n) = Some (bs ++ [x00])
      ∧ ColumnIxJson.Append_cstr str m c = Ok (m', c')
      ∧ ColumnIxJson.items_ c' = ColumnIxJson.items_ c ++ [v']
      ∧ sv_read m' v' = Some bs
  | None =>
    ColumnIxJson.Append_cstr str m c = UB
    ∧ ∀ buf, cell m (p_base str) = Some buf → p_off str ≤ length buf →
             x00 ∉ drop (p_off str) buf
  end.
Proof.
  intros Hwf Hother. destruct (strlen m str) as [n|] eqn:Hs.
  - unfold strlen in Hs. destruct (cell m (p_base str)) as [buf|] eqn:Hc; [|done].
    simpl in Hs. case_decide as Hoff; [|done].
    apply find_nul_Some in Hs as (bs & rest & Hd & Hn & <-).
    assert (load m str (S (length bs)) = Some (bs ++ [x00])) as Hl.
    { apply load_Some. exists buf. split; [done|].
      pose proof (f_equal length Hd) as Hlen.
      rewrite length_drop, length_app in Hlen. simpl in Hlen. split; [lia|].
      rewrite Hd, (cons_middle x00 bs rest), app_assoc. symmetry. apply take_app_length'.
      rewrite length_app. simpl. lia. }
    destruct (strlen_ok _ _ _ Hl Hn) as [Hs' Hb].
    assert (below_mark c (StringView str (length bs))) as Hbelow.
    { unfold below_mark.
      destruct (ColumnIxJson.blocks_ c !! ColumnIxJson.back_index c) as [b|] eqn:Hback;
        [|done].
      simpl. intros Eb. by destruct (Hother b eq_refl). }
    destruct (Append_ok m c (StringView str (length bs)) bs Hwf Hb Hbelow)
      as (m' & c' & v' & E & I & _ & _ & [S _] & _).
    exists bs, m', c', v'. split_and!; [done | done | done | | done | done].
    unfold ColumnIxJson.Append_cstr. by rewrite Hs'.
  - split.
    + unfold ColumnIxJson.Append_cstr. by rewrite Hs.
    + intros buf Hc Hoff. unfold strlen in Hs. rewrite Hc in Hs. simpl in Hs.
      rewrite decide_True in Hs by done. by apply find_nul_None.
Qed.

Lemma Append_cstr_reads_to_first_nul_witness :
  ∃ bs m' c' v',
    length bs = 4 ∧ (x00 ∉ bs)
    ∧ load (xyzw_memory ++ [Some (lit "json" ++ [x00])]) (Ptr 1 0) 5 = Some (bs ++ [x00])
    ∧ ColumnIxJson.Append_cstr (Ptr 1 0) (xyzw_memory ++ [Some (lit "json" ++ [x00])])
        xyzw_column = Ok (m', c')
    ∧ ColumnIxJson.items_ c' = ColumnIxJson.items_ xyzw_column ++ [v']
    ∧ sv_read m' v' = Some bs.
Proof.
  apply (Append_cstr_reads_to_first_nul (xyzw_memory ++ [Some (lit "json" ++ [x00])])
           xyzw_column (Ptr 1 0)).
  - split; [apply Forall_singleton; solve_block_ok | constructor].
  - intros b [= <-]. simpl. lia.
Defined.

(** A C string that lies across the write mark of the current block, here
    the row "y" with what follows it in the block: the copy would be between
    overlapping ranges. *)
Example Append_cstr_across_write_mark :
  strlen [Some (lit "xyzw" ++ replicate 4092 x00)] (Ptr 0 1) = Some 3
  ∧ ColumnIxJson.Append_cstr (Ptr 0 1) [Some (lit "xyzw" ++ replicate 4092 x00)]
      (ColumnIxJson.Make [StringView (Ptr 0 0) 1; StringView (Ptr 0 1) 1]
         [Block.Make 2 4096 0] []) = UB.
Proof. split; vm_compute; reflexivity. Qed.

(** ** Unused capacity *)

Lemma run_call_waste a m c m' c' :
  waste_bounded c → run_call a m c = Ok (m', c') → waste_bounded c'.
Proof.
  intros Hw.
  assert (∀ v, ColumnIxJson.Append v m c = Ok (m', c') → waste_bounded c') as HA.
  { intros v H. apply Append_blocks_inv in H. simpl in H. unfold waste_bounded in *.
    assert (Forall (λ b, Block.capacity b - Block.size b ≤ DEFAULT_BLOCK_SIZE)
              (ColumnIxJson.blocks_ c
               ++ [Block.Make (sv_size v) (DEFAULT_BLOCK_SIZE `max` sv_size v) (length m)]))
      as Hnew.
    { apply Forall_app. split; [done|]. apply Forall_singleton. simpl. lia. }
    destruct (ColumnIxJson.blocks_ c !! ColumnIxJson.back_index c) as [b|] eqn:Hb.
    - case_bool_decide.
      + destruct H as [-> _]. exact Hnew.
      + destruct H as [-> _]. apply Forall_insert; [done|]. simpl.
        pose proof (Forall_lookup_1 _ _ _ _ Hw Hb) as Hle. simpl in Hle. lia.
    - destruct H as [-> _]. exact Hnew. }
  destruct a as [str|str|s|str]; simpl.
  - apply HA.
  - unfold ColumnIxJson.Append_cstr. intros H.
    apply bind_Ok_inv in H as (n & _ & H). by eapply HA.
  - unfold ColumnIxJson.Append_move. simpl. by intros [= <- <-].
  - unfold ColumnIxJson.AppendNoManagedLifetime. by intros [= <- <-].
Qed.

Lemma run_calls_waste calls : ∀ m c m' c',
  waste_bounded c → run_calls calls m c = Ok (m', c') → waste_bounded c'.
Proof.
  induction calls as [|a calls IH]; intros m c m' c' Hw H.
  - by injection H as <- <-.
  - cbn [run_calls] in H. apply bind_Ok_inv in H as ([m1 c1] & H1 & H).
    eapply IH; [|exact H]. by eapply run_call_waste.
Qed.

Lemma LoadBody_rows_waste rows : ∀ input block m c input' m' c',
  block_ptr_ok c block → waste_bounded c →
  ColumnIxJson.LoadBody_rows rows input block m c = Ok (true, input', m', c') →
  waste_bounded c'.
Proof.
  induction rows as [|rows IH]; intros input block m c input' m' c' Hp Hw H.
  - by injection H as <- <- <-.
  - rewrite LoadBody_rows_S in H.
    destruct (ReadUInt64 input) as [[len|] input1]; [|discriminate].
    rewrite (lacks_room_ptr _ _ _ Hp), lacks_room_back, Ok_bind in H.
    set (n := N.to_nat len) in *.
    assert (∃ block1 m1 c1 b1,
      (block1 = Some (ColumnIxJson.back_index c1)
       ∧ ColumnIxJson.blocks_ c1 !! ColumnIxJson.back_index c1 = Some b1
       ∧ Block.capacity b1 - Block.size b1 ≤ DEFAULT_BLOCK_SIZE `max` n
       ∧ ∀ i b, ColumnIxJson.blocks_ c1 !! i = Some b → i ≠ ColumnIxJson.back_index c1 →
                Block.capacity b - Block.size b ≤ DEFAULT_BLOCK_SIZE)
      ∧ (i ← or_UB block1;
         b ← or_UB (ColumnIxJson.blocks_ c1 !! i);
         '(ok, input2, m2) ← ReadBytes input1 (Block.GetCurrentWritePos b) n m1;
         if ok : bool then
           let '(v, b') := Block.ConsumeTailAsStringViewUnsafe n b in
           ColumnIxJson.LoadBody_rows rows input2 block1 m2
             (ColumnIxJson.push_item v (ColumnIxJson.set_block i b' c1))
         else mret (false, input2, m2, c1)) = Ok (true, input', m', c'))
      as (block1 & m1 & c1 & b1 & (-> & Hb1 & Hslack & Hall) & H1).
    { assert (∀ cap,
        let c1 := ColumnIxJson.Make (ColumnIxJson.items_ c)
                    (ColumnIxJson.blocks_ c ++ [Block.Make 0 cap (length m)])
                    (ColumnIxJson.append_data_ c) in
        Some (length (ColumnIxJson.blocks_ c)) = Some (ColumnIxJson.back_index c1)
        ∧ ∀ i b, ColumnIxJson.blocks_ c1 !! i = Some b → i ≠ ColumnIxJson.back_index c1 →
                 Block.capacity b - Block.size b ≤ DEFAULT_BLOCK_SIZE) as Hnew.
      { intros cap. simpl.
        assert (ColumnIxJson.back_index
                  (ColumnIxJson.Make (ColumnIxJson.items_ c)
                     (ColumnIxJson.blocks_ c ++ [Block.Make 0 cap (length m)])
                     (ColumnIxJson.append_data_ c))
                = length (ColumnIxJson.blocks_ c)) as ->.
        { unfold ColumnIxJson.back_index. simpl. rewrite length_app. simpl. lia. }
        split; [done|]. intros i b Hi Hne.
        pose proof (lookup_lt_Some _ _ _ Hi) as Hlt. rewrite length_app in Hlt. simpl in Hlt.
        rewrite lookup_app_l in Hi by lia.
        exact (Forall_lookup_1 _ _ _ _ Hw Hi). }
      destruct (ColumnIxJson.blocks_ c !! ColumnIxJson.back_index c) as [b|] eqn:Hb.
      - case_bool_decide as Hav.
        + rewrite emplace_block_eq in H. eexists _, _, _, _. split; [|exact H].
          split_and!; [apply Hnew|apply back_snoc|simpl; lia|apply Hnew].
        + exists block, m, c, b. split; [|exact H].
          split_and!.
          * apply Hp. intros E. by rewrite E in Hb.
          * done.
          * pose proof (Forall_lookup_1 _ _ _ _ Hw Hb) as Hle. simpl in Hle. lia.
          * intros i b0 Hi _. exact (Forall_lookup_1 _ _ _ _ Hw Hi).
      - rewrite emplace_block_eq in H. eexists _, _, _, _. split; [|exact H].
        split_and!; [apply Hnew|apply back_snoc|simpl; lia|apply Hnew]. }
    simpl in H1. rewrite Hb1 in H1. simpl in H1.
    apply bind_Ok_inv in H1 as ([[ok input2] m2] & Hrd & H1).
    destruct ok; [|discriminate]. simpl in H1.
    pose proof (lookup_lt_Some _ _ _ Hb1) as Hlt.
    eapply IH; [| |exact H1].
    + intros _. unfold ColumnIxJson.back_index. simpl. by rewrite length_insert.
    + unfold waste_bounded. simpl.
      apply Forall_lookup. intros i b Hi.
      destruct (decide (i = ColumnIxJson.back_index c1)) as [->|Hne].
      * rewrite list_lookup_insert_eq in Hi by done. injection Hi as <-. simpl. lia.
      * rewrite list_lookup_insert_ne in Hi by done. by eapply Hall.
Qed.

(** X17. No block of a column has more than 4096 bytes unused: this holds
    for the empty column, is kept by every call of the append family that
    returns, and holds after every [LoadBody] that succeeds, whatever the
    column was before. *)
Theorem blocks_waste_bounded :
  waste_bounded ColumnIxJson.create
  ∧ (∀ calls m c m' c',
       waste_bounded c → run_calls calls m c = Ok (m', c') → waste_bounded c')
  ∧ (∀ input rows m c rest m' c',
       ColumnIxJson.LoadBody input rows m c = Ok (true, rest, m', c') →
       waste_bounded c').
Proof.
  split_and!.
  - constructor.
  - intros calls m c m' c'. apply run_calls_waste.
  - intros input rows m c rest m' c'. rewrite LoadBody_eq.
    apply LoadBody_rows_waste; [by intros ? | constructor].
Qed.

Lemma blocks_waste_bounded_witness :
  ∃ m' c',
    run_calls sample_calls sample_memory ColumnIxJson.create = Ok (m', c')
    ∧ waste_bounded c'.
Proof.
  assert (∃ r, run_calls sample_calls sample_memory ColumnIxJson.create = Ok r)
    as [[m' c'] E].
  { eexists. vm_compute. reflexivity. }
  exists m', c'. split; [exact E|].
  destruct blocks_waste_bounded as (H0 & Hcalls & _).
  exact (Hcalls _ _ _ _ _ H0 E).
Defined.

(** ** A column appended to itself *)

(** The loop of [Append(ColumnRef)] on one object for source and receiver:
    among the [n] rows from row [i] on there is one that is not empty, so
    the write mark of the current block, whose array has [L] bytes, moves up
    at least once in [n] rounds. *)
Lemma self_append_rows_overrun (this : ColumnRef) (n L : nat) :
  0 < n →
  ∀ fuel i w c b k v,
    objects w !! this = Some (IxJson c) →
    length (ColumnIxJson.items_ c) = n + i →
    ColumnIxJson.blocks_ c !! ColumnIxJson.back_index c = Some b →
    (∀ buf, cell (memory w) (Block.data_ b) = Some buf → length buf = L) →
    k < n → ColumnIxJson.items_ c !! (i + k) = Some v → 0 < sv_size v →
    n * (L - Block.size b) + k < fuel →
    Append_column_rows fuel this this i w = UB.
Proof.
  intros Hn. induction fuel as [|fuel IH]; intros i w c b k v Hc Hlen Hb HL Hk Hv Hpos Hfuel;
    [by apply Nat.nlt_0_r in Hfuel|].
  cbn [Append_column_rows]. rewrite (fields_Ok _ _ _ Hc), Ok_bind.
  rewrite decide_True by (unfold ColumnIxJson.Size; lia).
  destruct (lookup_lt_is_Some_2 (ColumnIxJson.items_ c) i) as [vi Hvi]; [lia|].
  unfold ColumnIxJson.subscript. rewrite Hvi. simpl or_UB. rewrite Ok_bind.
  unfold on_object. rewrite (fields_Ok _ _ _ Hc), Ok_bind.
  unfold ColumnIxJson.AppendUnsafe, ColumnIxJson.back_AppendUnsafe.
  rewrite Hb. simpl or_UB. rewrite Ok_bind. unfold Block.AppendUnsafe.
  destruct (memcpy_cases (Ptr (Block.data_ b) (Block.size b)) (sv_data vi) (sv_size vi)
              (memory w)) as [[m' Hcpy]|Hcpy]; rewrite Hcpy; [|done].
  apply memcpy_Ok in Hcpy as (bs & Hr & _ & Hs).
  rewrite !Ok_bind.
  pose proof (load_length _ _ _ _ Hr) as Hbs.
  pose proof (lookup_lt_Some _ _ _ Hc) as Hthis.
  pose proof (lookup_lt_Some _ _ _ Hb) as Hback.
  pose proof Hs as Hs'. apply store_Some in Hs' as (buf & Hbuf & Hfit & _).
  simpl in Hbuf, Hfit. pose proof (HL buf Hbuf) as HLbuf.
  set (b' := Block.Make (Block.size b + sv_size vi) (Block.capacity b) (Block.data_ b)).
  set (v' := StringView (Ptr (Block.data_ b) (Block.size b)) (sv_size vi)).
  set (c' := ColumnIxJson.push_item v' (ColumnIxJson.set_block (ColumnIxJson.back_index c) b' c)).
  assert (∀ k' v0,
    k' < n → ColumnIxJson.items_ c' !! (S i + k') = Some v0 → 0 < sv_size v0 →
    n * (L - Block.size b') + k' < fuel →
    Append_column_rows fuel this this (S i) (MkWorld m' (<[this:=IxJson c']> (objects w)))
    = UB) as Hnext.
  { intros k' v0 Hk' Hv0 Hpos' Hfuel'. eapply (IH (S i) _ c' b' k' v0); [| | | |done..].
    - simpl. by apply list_lookup_insert_eq.
    - unfold c'. simpl. rewrite length_app. simpl. lia.
    - unfold c', ColumnIxJson.back_index. simpl. rewrite length_insert.
      by apply list_lookup_insert_eq.
    - simpl. intros buf' Hbuf'.
      destruct (keeps_store c _ _ _ _ Hb Hs _ _ Hbuf) as (buf1 & Hbuf1 & Hlen1 & _).
      rewrite Hbuf' in Hbuf1. injection Hbuf1 as <-. lia. }
  destruct k as [|k].
  - rewrite Nat.add_0_r, Hvi in Hv. injection Hv as <-.
    apply (Hnext (n - 1) v'); [lia | | simpl; lia |].
    + unfold c'. simpl. replace (S (i + (n - 1))) with (length (ColumnIxJson.items_ c) + 0) by lia.
      by rewrite lookup_app_r, Nat.add_comm, Nat.add_sub by lia.
    + simpl. nia.
  - apply (Hnext k v); [lia | | done |].
    + unfold c'. simpl. rewrite lookup_app_l by lia.
      by replace (S (i + k)) with (i + S k) by lia.
    + simpl. nia.
Qed.

(** X18. A string column with at least one non-empty row that is
    appended to itself neither returns nor runs for ever: the loop copies
    rows into the one block reserved before it, each round adds a row to the
    rows still to copy, and after finitely many rounds a copy reads a row
    that cannot be read or writes past the end of the block. *)
Theorem self_append_is_undefined (this : ColumnRef) (w : World) (c : ColumnIxJson.t) :
  objects w !! this = Some (IxJson c) →
  Exists (λ v, 0 < sv_size v) (ColumnIxJson.items_ c) →
  ∃ fuel0, ∀ fuel, fuel0 ≤ fuel → Append_column fuel this this w = UB.
Proof.
  intros Hc Hex. apply Exists_exists in Hex as (v & Hin & Hpos).
  apply list_elem_of_lookup in Hin as [k Hk].
  pose proof (lookup_lt_Some _ _ _ Hk) as Hlt.
  pose proof (lookup_lt_Some _ _ _ Hc) as Hthis.
  set (n := length (ColumnIxJson.items_ c)) in *.
  assert (∃ m1 c1 b L,
    (∀ fuel, Append_column fuel this this w
             = Append_column_rows fuel this this 0
                 (MkWorld m1 (<[this := IxJson c1]> (objects w))))
    ∧ ColumnIxJson.items_ c1 = ColumnIxJson.items_ c
    ∧ ColumnIxJson.blocks_ c1 !! ColumnIxJson.back_index c1 = Some b
    ∧ ∀ buf, cell m1 (Block.data_ b) = Some buf → length buf = L)
    as (m1 & c1 & b & L & Hrun & Hitems & Hb & HL).
  { assert (∀ m1 c1 b,
      ColumnIxJson.blocks_ c1 !! ColumnIxJson.back_index c1 = Some b →
      ∃ L, ∀ buf, cell m1 (Block.data_ b) = Some buf → length buf = L) as Hcell.
    { intros m1 c1 b _. destruct (cell m1 (Block.data_ b)) as [buf|].
      - exists (length buf). by intros ? [= <-].
      - by exists 0. }
    destruct (Append_column_prelude 0 this this w c c Hc Hc) as (m1 & c1 & Hgo & _).
    assert (∀ fuel, Append_column fuel this this w
                    = Append_column_rows fuel this this 0
                        (MkWorld m1 (<[this := IxJson c1]> (objects w)))) as Hrun.
    { intros fuel.
      destruct (Append_column_prelude fuel this this w c c Hc Hc) as (m2 & c2 & Hgo2 & E).
      simpl in Hgo, Hgo2. rewrite Hgo in Hgo2. by injection Hgo2 as <- <-. }
    simpl in Hgo.
    assert (∃ b, ColumnIxJson.blocks_ c1 !! ColumnIxJson.back_index c1 = Some b) as [b Hb].
    { destruct (ColumnIxJson.blocks_ c !! ColumnIxJson.back_index c) as [b0|] eqn:Hb0.
      - case_bool_decide.
        + rewrite emplace_block_eq in Hgo. injection Hgo as <- <-. eexists. apply back_snoc.
        + injection Hgo as <- <-. by exists b0.
      - rewrite emplace_block_eq in Hgo. injection Hgo as <- <-. eexists. apply back_snoc. }
    destruct (Hcell m1 c1 b Hb) as [L HL].
    exists m1, c1, b, L. split_and!; [done | by eapply make_room_items | done | done]. }
  exists (S (n * (L - Block.size b) + k)). intros fuel Hfuel. rewrite Hrun.
  eapply (self_append_rows_overrun this n L ltac:(lia) fuel 0 _ c1 b k v).
  - simpl. by apply list_lookup_insert_eq.
  - rewrite Hitems. unfold n. lia.
  - done.
  - done.
  - done.
  - by rewrite Hitems.
  - done.
  - lia.
Qed.

Lemma self_append_is_undefined_witness :
  ∃ fuel0, ∀ fuel, fuel0 ≤ fuel → Append_column fuel 1 1 sample_world = UB.
Proof.
  apply (self_append_is_undefined 1 sample_world
           (ColumnIxJson.Make [StringView (Ptr 0 0) 2] [Block.Make 2 4096 0] [])).
  - reflexivity.
  - apply Exists_cons_hd. simpl. lia.
Defined.

(** ** [LoadBody] and [Append] build the same column *)

(** One round of the loop of [LoadBody] on a row that is all there does what
    [Append] does with a view of the same bytes. *)
Lemma LoadBody_rows_step_Append n s input block m c v :
  col_wf m c → block_ptr_ok c block → fits_size_t (length s) →
  sv_read m v = Some s → below_mark c v →
  ∃ m' c',
    ColumnIxJson.Append v m c = Ok (m', c')
    ∧ ColumnIxJson.LoadBody_rows (S n) (wire_row s ++ input) block m c
      = ColumnIxJson.LoadBody_rows n input (Some (ColumnIxJson.back_index c')) m' c'
    ∧ col_wf m' c' ∧ frame m c m' c'.
Proof.
  intros Hwf Hp Hf Hr Hbelow.
  destruct (Append_ok m c v s Hwf Hr Hbelow) as (m' & c' & v' & E & _ & _ & W & _ & F).
  exists m', c'. split_and!; [done | | done | done].
  pose proof (load_length _ _ _ _ Hr) as Hsz.
  assert (∀ m1 c1,
    sv_read m1 v = Some s →
    ColumnIxJson.back_AppendUnsafe v m1 c1
      ≫= (λ '(v0, m2, c2), mret (m2, ColumnIxJson.push_item v0 c2)) = Ok (m', c') →
    (i ← or_UB (Some (ColumnIxJson.back_index c1));
     b ← or_UB (ColumnIxJson.blocks_ c1 !! i);
     '(ok, input2, m2) ← ReadBytes (s ++ input) (Block.GetCurrentWritePos b) (length s) m1;
     if ok : bool then
       let '(v, b') := Block.ConsumeTailAsStringViewUnsafe (length s) b in
       ColumnIxJson.LoadBody_rows n input2 (Some (ColumnIxJson.back_index c1)) m2
         (ColumnIxJson.push_item v (ColumnIxJson.set_block i b' c1))
     else mret (false, input2, m2, c1))
    = ColumnIxJson.LoadBody_rows n input (Some (ColumnIxJson.back_index c')) m' c') as Hstep.
  { intros m1 c1 Hr1 H.
    apply bind_Ok_inv in H as ([[v1 m2] c2] & H1 & H2). injection H2 as <- <-.
    apply back_AppendUnsafe_inv in H1 as (b & bs & Hb & Hr' & Hs & -> & ->).
    rewrite Hr1 in Hr'. injection Hr' as <-.
    pose proof (lookup_lt_Some _ _ _ Hb) as Hlt.
    simpl. rewrite Hb. simpl.
    unfold ReadBytes. rewrite decide_True by (rewrite length_app; lia).
    rewrite take_app_length, drop_app_length.
    unfold Block.GetCurrentWritePos. rewrite Hs. simpl. rewrite Hsz.
    f_equal. unfold ColumnIxJson.back_index. simpl. by rewrite length_insert. }
  unfold ColumnIxJson.Append in E. rewrite lacks_room_back, Ok_bind in E.
  rewrite LoadBody_rows_S.
  rewrite (ReadUInt64_row _ _ Hf), Nat2N.id.
  rewrite (lacks_room_ptr _ _ _ Hp), lacks_room_back, Ok_bind.
  rewrite <- Hsz in E.
  assert (ColumnIxJson.blocks_ c ≠ [] → block = Some (ColumnIxJson.back_index c)) as Hp'
    by exact Hp.
  assert (∀ cap,
    length (ColumnIxJson.blocks_ c)
    = ColumnIxJson.back_index
        (ColumnIxJson.Make (ColumnIxJson.items_ c)
           (ColumnIxJson.blocks_ c ++ [Block.Make 0 cap (length m)])
           (ColumnIxJson.append_data_ c))) as Hbi.
  { intros cap. unfold ColumnIxJson.back_index. simpl. rewrite length_app. simpl. lia. }
  destruct (ColumnIxJson.blocks_ c !! ColumnIxJson.back_index c) as [b|] eqn:Hb.
  - case_bool_decide as Hav.
    + rewrite emplace_block_eq in E |- *.
      rewrite (Hbi (DEFAULT_BLOCK_SIZE `max` length s)).
      exact (Hstep _ _ (load_alloc _ _ _ _ _ Hr) E).
    + rewrite Hp'; [exact (Hstep _ _ Hr E)|].
      intros Hnil. by rewrite Hnil in Hb.
  - rewrite emplace_block_eq in E |- *.
    rewrite (Hbi (DEFAULT_BLOCK_SIZE `max` length s)).
    exact (Hstep _ _ (load_alloc _ _ _ _ _ Hr) E).
Qed.

Lemma LoadBody_rows_as_appends srcs : ∀ rs n input block m c,
  col_wf m c → block_ptr_ok c block →
  Forall2 (stable m c) srcs rs →
  Forall (λ s, fits_size_t (length s)) rs →
  ∃ m' c' block',
    run_calls (CallAppend <$> srcs) m c = Ok (m', c')
    ∧ ColumnIxJson.LoadBody_rows (length rs + n) (wire_body rs ++ input) block m c
      = ColumnIxJson.LoadBody_rows n input block' m' c'.
Proof.
  induction srcs as [|v srcs IH]; intros rs n input block m c Hwf Hp Hst Hf.
  - apply Forall2_nil_inv_l in Hst as ->. by exists m, c, block.
  - apply Forall2_cons_inv_l in Hst as (s & rs' & [Hr Hm] & Hst & ->).
    apply Forall_cons_1 in Hf as [Hs Hf].
    change (wire_body (s :: rs')) with (wire_row s ++ wire_body rs').
    rewrite <- app_assoc. cbn [length plus].
    destruct (LoadBody_rows_step_Append (length rs' + n) s (wire_body rs' ++ input)
                block m c v Hwf Hp Hs Hr Hm) as (m1 & c1 & E1 & L1 & W1 & F1).
    destruct (IH rs' n input (Some (ColumnIxJson.back_index c1)) m1 c1 W1)
      as (m2 & c2 & block2 & E2 & L2); [by intros _ | | done |].
    { eapply Forall2_impl; [exact Hst|]. intros u x Hu. destruct F1 as [_ F1]. by apply F1. }
    exists m2, c2, block2. split; [|by rewrite L1].
    cbn [fmap list_fmap run_calls run_call]. by rewrite E1.
Qed.

(** X19. Loading rows from the wire into a new column builds exactly the
    column that appending the same rows one by one with
    [Append(std::string_view)] builds: the same views, the same blocks with
    the same sizes and capacities, and the same contents of memory. *)
Theorem LoadBody_builds_what_Append_builds (m : mem) (srcs : list string_view)
    (rs : list bytes) (rest : list byte) :
  Forall2 (λ v bs, sv_read m v = Some bs) srcs rs →
  Forall (λ s, fits_size_t (length s)) rs →
  ∃ m' c',
    run_calls (CallAppend <$> srcs) m ColumnIxJson.create = Ok (m', c')
    ∧ ColumnIxJson.LoadBody (wire_body rs ++ rest) (length rs) m ColumnIxJson.create
      = Ok (true, rest, m', c').
Proof.
  intros Hsrc Hf.
  destruct (LoadBody_rows_as_appends srcs rs 0 rest None m ColumnIxJson.create)
    as (m' & c' & block' & E & L).
  - split; constructor.
  - by intros ?.
  - eapply Forall2_impl; [exact Hsrc|]. intros v bs Hv. by split.
  - done.
  - exists m', c'. split; [done|].
    rewrite Nat.add_0_r in L. rewrite LoadBody_eq. exact L.
Qed.

Lemma LoadBody_builds_what_Append_builds_witness :
  ∃ m' c',
    run_calls (CallAppend <$> caller_views [lit "alpha"; []; long_string])
      (caller_memory [lit "alpha"; []; long_string]) ColumnIxJson.create = Ok (m', c')
    ∧ ColumnIxJson.LoadBody (wire_body [lit "alpha"; []; long_string] ++ lit "rest") 3
        (caller_memory [lit "alpha"; []; long_string]) ColumnIxJson.create
      = Ok (true, lit "rest", m', c').
Proof.
  apply (LoadBody_builds_what_Append_builds (caller_memory [lit "alpha"; []; long_string])
           (caller_views [lit "alpha"; []; long_string]) [lit "alpha"; []; long_string]
           (lit "rest")).
  - repeat constructor.
  - repeat constructor.
Defined.
